(** * neuroHarmonize: the learning entry point [harmonizationLearn]

    A shallow embedding of [neuroHarmonize/harmonizationLearn.py]:
    [harmonizationLearn], [StandardizeAcrossFeatures] and
    [saveHarmonizationModel], together with the part of numpy, pandas and
    the operating system they call.

    Conventions.
    - Numbers are the elements of a field ([Scalar]); the theorems hold in
      exact arithmetic, rounding of binary64 is not part of the model.
    - A 2-D numpy array is an [ndarray]: its shape and its rows.
    - A raised exception is [Err e]; functions that print or touch the file
      system run in the state-and-error monad [M] over a [world]. *)

From Stdlib Require Import List String Ascii Arith Lia Bool ZArith.
From Stdlib Require Import QArith Qcanon Field Ring Permutation Sorted.
From Stdlib Require Import DecimalString DecimalNat.
From stdpp Require Import gmap strings.
Import ListNotations.

Local Open Scope nat_scope.
Local Open Scope list_scope.

(* ================================================================= *)
(** ** Numbers *)

(** The float type of the program, idealised as a field with a square root,
    an order test and a decidable equality. *)
Class Scalar : Type := {
  F : Type;
  zero : F;
  one : F;
  add : F -> F -> F;
  mul : F -> F -> F;
  sub : F -> F -> F;
  opp : F -> F;
  div : F -> F -> F;
  inv : F -> F;
  sqrt : F -> F;
  leb : F -> F -> bool;
  eqb : F -> F -> bool;
  scalar_field : field_theory zero one add mul sub opp div inv (@eq F);
  eqb_eq : forall x y, eqb x y = true <-> x = y
}.

(* ================================================================= *)
(** ** Exceptions *)

Inductive exn : Type :=
| KeyError (key : string)
| ValueError (msg : string)
| IndexError (msg : string)
| TypeError (msg : string)
| AttributeError (msg : string)
| LinAlgError (msg : string)
| FileExistsError (path : string)
| FileNotFoundError (path : string)
| IsADirectoryError (path : string)
| NotADirectoryError (path : string)
| LibraryError (msg : string).

Inductive result (A : Type) : Type :=
| Ok (a : A)
| Err (e : exn).
Arguments Ok {A} a.
Arguments Err {A} e.

Definition rbind {A B} (r : result A) (k : A -> result B) : result B :=
  match r with
  | Ok a => k a
  | Err e => Err e
  end.

Definition is_Ok {A} (r : result A) : bool :=
  match r with
  | Ok _ => true
  | Err _ => false
  end.

Declare Scope result_scope.
Declare Scope M_scope.
Delimit Scope M_scope with M.
Delimit Scope result_scope with result.
Notation "'let?' x ':=' e 'in' k" := (rbind e (fun x => k))
  (at level 10, x pattern, e at level 100, k at level 200) : result_scope.

Local Open Scope result_scope.
Local Open Scope M_scope.

(** [for x in l: acc = f acc x], stopping at the first exception. *)
Fixpoint rfold {A B} (f : A -> B -> result A) (acc : A) (l : list B) : result A :=
  match l with
  | [] => Ok acc
  | x :: l' => let? acc' := f acc x in rfold f acc' l'
  end.

(** A list comprehension whose body can raise. *)
Fixpoint rmap {A B} (f : A -> result B) (l : list A) : result (list B) :=
  match l with
  | [] => Ok []
  | x :: l' => let? y := f x in let? ys := rmap f l' in Ok (y :: ys)
  end.

(* ================================================================= *)
(** ** numpy arrays *)

(** A 2-D array: [shape0] rows of [shape1] entries each. The shape is kept
    beside the rows so that arrays with a dimension of 0 keep the other. *)
Record ndarray (A : Type) : Type := mk_ndarray {
  shape0 : nat;
  shape1 : nat;
  item : list (list A)
}.
Arguments mk_ndarray {A} _ _ _.
Arguments shape0 {A} _.
Arguments shape1 {A} _.
Arguments item {A} _.

Definition shape {A} (a : ndarray A) : nat * nat := (shape0 a, shape1 a).

(** The array of shape [(r, c)] whose entry [(i, j)] is [f i j]. *)
Definition tabulate {A} (r c : nat) (f : nat -> nat -> A) : ndarray A :=
  mk_ndarray r c (map (fun i => map (fun j => f i j) (seq 0 c)) (seq 0 r)).

(** [a[i, j]], with [d] outside the rows kept. *)
Definition get {A} (d : A) (a : ndarray A) (i j : nat) : A :=
  nth j (nth i (item a) []) d.

(** The rows agree with the shape. *)
Definition well_shaped {A} (a : ndarray A) : Prop :=
  List.length (item a) = shape0 a /\
  Forall (fun row => List.length row = shape1 a) (item a).

(** [a.T] *)
Definition transpose {A} (d : A) (a : ndarray A) : ndarray A :=
  tabulate (shape1 a) (shape0 a) (fun i j => get d a j i).

(** [a[:, j]] as a 1-D array. *)
Definition column {A} (d : A) (a : ndarray A) (j : nat) : result (list A) :=
  if j <? shape1 a
  then Ok (map (fun i => get d a i j) (seq 0 (shape0 a)))
  else Err (IndexError "index is out of bounds for axis 1").

(** [a[i, :]] as a 1-D array. *)
Definition row {A} (d : A) (a : ndarray A) (i : nat) : list A :=
  map (fun j => get d a i j) (seq 0 (shape1 a)).

(** [a[:, j] = v]: [v] has the length of a column, or length 1 and is
    broadcast. *)
Definition set_column {A} (d : A) (a : ndarray A) (j : nat) (v : list A)
  : result (ndarray A) :=
  if negb (j <? shape1 a) then Err (IndexError "index is out of bounds for axis 1")
  else if List.length v =? shape0 a
  then Ok (tabulate (shape0 a) (shape1 a)
             (fun i k => if k =? j then nth i v d else get d a i k))
  else if List.length v =? 1
  then Ok (tabulate (shape0 a) (shape1 a)
             (fun i k => if k =? j then nth 0 v d else get d a i k))
  else Err (ValueError "could not broadcast input array").

(** [np.concatenate((a, b), axis=1)] *)
Definition concatenate_axis1 {A} (d : A) (a b : ndarray A) : result (ndarray A) :=
  if shape0 a =? shape0 b
  then Ok (tabulate (shape0 a) (shape1 a + shape1 b)
             (fun i j => if j <? shape1 a then get d a i j
                         else get d b i (j - shape1 a)))
  else Err (ValueError "all the input array dimensions except for the concatenation axis must match").

Declare Scope scalar_scope.
Delimit Scope scalar_scope with F.
Notation "x + y" := (add x y) : scalar_scope.
Notation "x * y" := (mul x y) : scalar_scope.
Notation "x - y" := (sub x y) : scalar_scope.
Notation "x / y" := (div x y) : scalar_scope.

Section Numeric.
Context {Sc : Scalar}.

Add Field scalar_field_tac : scalar_field.

(** [float(n)] *)
Fixpoint of_nat (n : nat) : F :=
  match n with
  | 0 => zero
  | S k => (of_nat k + one)%F
  end.

Definition of_Z (z : Z) : F :=
  match z with
  | Z0 => zero
  | Zpos p => of_nat (Pos.to_nat p)
  | Zneg p => opp (of_nat (Pos.to_nat p))
  end.

(** [f 0 + f 1 + ... + f (n-1)], accumulated from the left. *)
Fixpoint sum_n (n : nat) (f : nat -> F) : F :=
  match n with
  | 0 => zero
  | S k => (sum_n k f + f k)%F
  end.

Definition at_ (a : ndarray F) (i j : nat) : F := get zero a i j.

(** [np.dot(a, b)] for two 2-D arrays. *)
Definition np_dot (a b : ndarray F) : result (ndarray F) :=
  if shape1 a =? shape0 b
  then Ok (tabulate (shape0 a) (shape1 b)
             (fun i j => sum_n (shape1 a) (fun k => (at_ a i k * at_ b k j)%F)))
  else Err (ValueError "shapes not aligned").

(** [np.dot(v, b)] for a 1-D [v] and a 2-D [b]: a 1-D array. *)
Definition np_dot_1d (v : list F) (b : ndarray F) : result (list F) :=
  if List.length v =? shape0 b
  then Ok (map (fun j => sum_n (List.length v)
                           (fun k => (nth k v zero * at_ b k j)%F))
             (seq 0 (shape1 b)))
  else Err (ValueError "shapes not aligned").

(** numpy broadcasting of one dimension: equal, or one of them is 1. *)
Definition bdim (d1 d2 : nat) : option nat :=
  if d1 =? d2 then Some d1
  else if d1 =? 1 then Some d2
  else if d2 =? 1 then Some d1
  else None.

Definition bidx (d i : nat) : nat := if d =? 1 then 0 else i.

(** An elementwise binary operator, with broadcasting. *)
Definition broadcast2 (op : F -> F -> F) (a b : ndarray F) : result (ndarray F) :=
  match bdim (shape0 a) (shape0 b), bdim (shape1 a) (shape1 b) with
  | Some r, Some c =>
      Ok (tabulate r c
            (fun i j => op (at_ a (bidx (shape0 a) i) (bidx (shape1 a) j))
                           (at_ b (bidx (shape0 b) i) (bidx (shape1 b) j))))
  | _, _ => Err (ValueError "operands could not be broadcast together")
  end.

Definition np_sub := broadcast2 sub.
Definition np_div := broadcast2 div.

(** [a += b]: [b] is broadcast to the shape of [a], which cannot change. *)
Definition np_iadd (a b : ndarray F) : result (ndarray F) :=
  match bdim (shape0 a) (shape0 b), bdim (shape1 a) (shape1 b) with
  | Some r, Some c =>
      if (r =? shape0 a) && (c =? shape1 a)
      then Ok (tabulate r c
                 (fun i j => (at_ a i j
                              + at_ b (bidx (shape0 b) i) (bidx (shape1 b) j))%F))
      else Err (ValueError "non-broadcastable output operand")
  | _, _ => Err (ValueError "operands could not be broadcast together")
  end.

(** [a ** 2], [np.sqrt(a)], [a / x] *)
Definition np_square (a : ndarray F) : ndarray F :=
  tabulate (shape0 a) (shape1 a) (fun i j => (at_ a i j * at_ a i j)%F).
Definition np_sqrt (a : ndarray F) : ndarray F :=
  tabulate (shape0 a) (shape1 a) (fun i j => sqrt (at_ a i j)).
Definition np_div_scalar (a : ndarray F) (x : F) : ndarray F :=
  tabulate (shape0 a) (shape1 a) (fun i j => (at_ a i j / x)%F).

Definition np_ones (r c : nat) : ndarray F := tabulate r c (fun _ _ => one).
Definition np_zeros (r c : nat) : ndarray F := tabulate r c (fun _ _ => zero).

(** [v.reshape((len(v), 1))] *)
Definition reshape_column (v : list F) : ndarray F :=
  tabulate (List.length v) 1 (fun i _ => nth i v zero).

(** [a[:n, :]] *)
Definition rows_upto (n : nat) (a : ndarray F) : ndarray F :=
  tabulate (Nat.min n (shape0 a)) (shape1 a) (fun i j => at_ a i j).

(** [t = np.array(a.copy()); t[:, :n] = 0] *)
Definition zero_columns_upto (n : nat) (a : ndarray F) : ndarray F :=
  tabulate (shape0 a) (shape1 a) (fun i j => if j <? n then zero else at_ a i j).

(** [np.eye(n)] and [np.array_equal(a, b)] *)
Definition np_eye (n : nat) : ndarray F :=
  tabulate n n (fun i j => if i =? j then one else zero).

Definition np_array_equal (a b : ndarray F) : bool :=
  (shape0 a =? shape0 b) && (shape1 a =? shape1 b)
  && forallb (fun i => forallb (fun j => eqb (at_ a i j) (at_ b i j))
                         (seq 0 (shape1 a)))
       (seq 0 (shape0 a)).

(** [b] is the inverse of [a]: both products are the identity. *)
Definition is_inverse_of (b a : ndarray F) : bool :=
  match np_dot a b, np_dot b a with
  | Ok ab, Ok ba =>
      np_array_equal ab (np_eye (shape0 a)) && np_array_equal ba (np_eye (shape0 a))
  | _, _ => false
  end.

(** The determinant by Laplace expansion along the first row, and the
    adjugate over the determinant. *)
Definition sign (k : nat) : F := if Nat.even k then one else opp one.

Definition minor (f : nat -> nat -> F) (r c : nat) : nat -> nat -> F :=
  fun i j => f (if i <? r then i else S i) (if j <? c then j else S j).

Fixpoint det (n : nat) (f : nat -> nat -> F) : F :=
  match n with
  | 0 => one
  | S k => sum_n (S k) (fun j => (sign j * f 0 j * det k (minor f 0 j))%F)
  end.

Definition adjugate_over_det (a : ndarray F) : ndarray F :=
  let n := shape0 a in
  let d := det n (at_ a) in
  tabulate n n (fun i j => (sign (i + j) * det (n - 1) (minor (at_ a) j i) / d)%F).

(** [np.linalg.inv(a)]: the inverse of a square matrix; a matrix that is
    not square or has no inverse raises [LinAlgError]. The candidate is
    the adjugate over the determinant, and it is returned once both
    products with [a] are seen to be the identity, as they are in exact
    arithmetic. *)
Definition np_linalg_inv (a : ndarray F) : result (ndarray F) :=
  if negb (shape0 a =? shape1 a)
  then Err (LinAlgError "Last 2 dimensions of the array must be square")
  else if eqb (det (shape0 a) (at_ a)) zero
  then Err (LinAlgError "Singular matrix")
  else
    let b := adjugate_over_det a in
    if is_inverse_of b a then Ok b else Err (LinAlgError "Singular matrix").

(* ================================================================= *)
(** ** [np.unique] *)

Section Unique.
Context {A : Type} `{EqDecision A} (le : A -> A -> bool).

Fixpoint insert_sorted (x : A) (l : list A) : list A :=
  match l with
  | [] => [x]
  | y :: l' => if le x y then x :: y :: l' else y :: insert_sorted x l'
  end.

Definition sort (l : list A) : list A := fold_right insert_sorted [] l.

(** [np.unique(l)]: the distinct elements of [l], sorted. *)
Definition np_unique (l : list A) : list A :=
  sort (nodup (fun x y => decide (x = y)) l).

Fixpoint index_of (x : A) (l : list A) : nat :=
  match l with
  | [] => 0
  | y :: l' => if decide (x = y) then 0 else S (index_of x l')
  end.

(** [np.unique(l, return_inverse=True)[-1]]: for each element its position
    among the sorted distinct elements. *)
Definition unique_inverse (l : list A) : list nat :=
  map (fun x => index_of x (np_unique l)) l.

(** [np.unique(l, return_counts=True)[-1]] *)
Definition unique_counts (l : list A) : list nat :=
  map (fun u => count_occ (fun x y => decide (x = y)) l u) (np_unique l).

End Unique.

#[local] Instance F_eq_dec : EqDecision F.
Proof.
  intros x y. destruct (eqb x y) eqn:E.
  - left. now apply eqb_eq.
  - right. intros H. apply eqb_eq in H. congruence.
Defined.

(* ================================================================= *)
(** ** The covariate table *)

(** An entry of the table, and of the object array made from it: a label, a
    Python integer or a float. *)
Inductive cell : Type :=
| PyStr (s : string)
| PyInt (z : Z)
| PyFloat (x : F).

Record DataFrame : Type := mk_DataFrame {
  columns : list string;
  values : ndarray cell
}.

(** [columns.get_loc(c)] for distinct column labels. *)
Fixpoint get_loc (cols : list string) (c : string) : option nat :=
  match cols with
  | [] => None
  | c' :: cols' =>
      if String.eqb c' c then Some 0
      else option_map S (get_loc cols' c)
  end.

Definition columns_get_loc (cols : list string) (c : string) : result nat :=
  match get_loc cols c with
  | Some i => Ok i
  | None => Err (KeyError c)
  end.

Definition cell_at (a : ndarray cell) (i j : nat) : cell := get (PyInt 0) a i j.

(** [float(x)] on an entry. *)
Definition to_float (x : cell) : result F :=
  match x with
  | PyStr s => Err (ValueError "could not convert string to float")
  | PyInt z => Ok (of_Z z)
  | PyFloat y => Ok y
  end.

Definition all_str (l : list cell) : option (list string) :=
  fold_right (fun x acc => match x, acc with
                           | PyStr s, Some r => Some (s :: r)
                           | _, _ => None
                           end) (Some []) l.

Definition all_int (l : list cell) : option (list Z) :=
  fold_right (fun x acc => match x, acc with
                           | PyInt z, Some r => Some (z :: r)
                           | _, _ => None
                           end) (Some []) l.

Definition all_num (l : list cell) : option (list F) :=
  fold_right (fun x acc => match x, acc with
                           | PyInt z, Some r => Some (of_Z z :: r)
                           | PyFloat y, Some r => Some (y :: r)
                           | _, _ => None
                           end) (Some []) l.

(** [np.unique(col, return_inverse=True)[-1]] on a column of an object
    array: labels are ordered as strings, numbers as numbers, and a column
    that mixes the two cannot be sorted. *)
Definition np_unique_inverse (col : list cell) : result (list nat) :=
  match all_str col with
  | Some l => Ok (unique_inverse String.leb l)
  | None =>
      match all_int col with
      | Some l => Ok (unique_inverse Z.leb l)
      | None =>
          match all_num col with
          | Some l => Ok (unique_inverse leb l)
          | None => Err (TypeError "'<' not supported between instances of 'str' and 'float'")
          end
      end
  end.

(** [a[:, cols].astype(float)] *)
Definition columns_astype_float (a : ndarray cell) (cols : list nat)
  : result (ndarray F) :=
  let? cs := rmap (fun c => let? col := column (PyInt 0) a c in
                            rmap to_float col) cols in
  Ok (tabulate (shape0 a) (List.length cols)
        (fun i j => nth i (nth j cs []) zero)).

(* ================================================================= *)
(** ** Python values, files and the console *)

(** [str(n)] for a non-negative integer. *)
Definition str (n : nat) : string := NilEmpty.string_of_uint (Nat.to_uint n).

(** [c in l] for column labels and for column positions. *)
Definition str_in (c : string) (l : list string) : bool := existsb (String.eqb c) l.
Definition nat_in (c : nat) (l : list nat) : bool := existsb (Nat.eqb c) l.

(** A dict with string keys, in insertion order: [d[k] = v]. *)
Fixpoint dict_set {V} (k : string) (v : V) (d : list (string * V)) : list (string * V) :=
  match d with
  | [] => [(k, v)]
  | (k', v') :: d' =>
      if String.eqb k' k then (k, v) :: d' else (k', v') :: dict_set k v d'
  end.

Fixpoint dict_get {V} (k : string) (d : list (string * V)) : result V :=
  match d with
  | [] => Err (KeyError k)
  | (k', v') :: d' => if String.eqb k' k then Ok v' else dict_get k d'
  end.

(** The values a model bundle holds. *)
Inductive pyobj : Type :=
| Array2 (a : ndarray F)
| Array1 (v : list F)
| Int (n : nat).

(** [obj.nbytes], for arrays of 8-byte floats. *)
Definition nbytes (obj : pyobj) : result nat :=
  match obj with
  | Array2 a => Ok (8 * (shape0 a * shape1 a))
  | Array1 v => Ok (8 * List.length v)
  | Int _ => Err (AttributeError "'int' object has no attribute 'nbytes'")
  end.

Inductive node : Type :=
| Dir
| File (content : pyobj).

(** A printed line; the size in MB of a saved object is kept as its number
    of bytes, not as the text ["%4.2f"] renders. *)
Inductive console_line : Type :=
| Text (s : string)
| SavingModelObject (key : string) (size_bytes : nat).

(** What a run can change: the files and the console. *)
Record world : Type := mk_world {
  fs : gmap string node;
  stdout : list console_line
}.

Definition M (A : Type) : Type := world -> result A * world.

Definition ret {A} (a : A) : M A := fun w => (Ok a, w).
Definition raise {A} (e : exn) : M A := fun w => (Err e, w).
Definition bind {A B} (m : M A) (k : A -> M B) : M B :=
  fun w => match m w with
           | (Ok a, w') => k a w'
           | (Err e, w') => (Err e, w')
           end.
Definition lift {A} (r : result A) : M A := fun w => (r, w).
Definition print (line : console_line) : M unit :=
  fun w => (Ok tt, mk_world (fs w) (stdout w ++ [line])).

Notation "'do' x '<-' e ';' k" := (bind e (fun x => k))
  (at level 10, x pattern, e at level 100, k at level 200) : M_scope.

Fixpoint mfold {A B} (f : A -> B -> M A) (acc : A) (l : list B) : M A :=
  match l with
  | [] => ret acc
  | x :: l' => bind (f acc x) (fun acc' => mfold f acc' l')
  end.

(** [os.path.exists(p)] *)
Definition os_path_exists (p : string) : M bool :=
  fun w => (Ok (match fs w !! p with Some _ => true | None => false end), w).

(** The proper prefixes of [p] that end before a ['/'], shortest first. *)
Fixpoint ancestors_from (pre p : string) : list string :=
  match p with
  | EmptyString => []
  | String c p' =>
      (if Ascii.eqb c "/" then (if String.eqb pre "" then [] else [pre]) else [])
      ++ ancestors_from (pre +:+ String c EmptyString) p'
  end.
Definition ancestors (p : string) : list string := ancestors_from "" p.

(** [os.makedirs(p)]: creates [p] and the missing directories above it. *)
Definition os_makedirs (p : string) : M unit :=
  fun w =>
    match fs w !! p with
    | Some _ => (Err (FileExistsError p), w)
    | None =>
        if String.eqb p "" then (Err (FileNotFoundError p), w)
        else if existsb (fun a => match fs w !! a with
                             | Some (File _) => true
                             | _ => false
                             end) (ancestors p)
        then (Err (NotADirectoryError p), w)
        else (Ok tt, mk_world (fold_right (fun a m => <[a := Dir]> m) (fs w)
                                 (p :: ancestors p))
                       (stdout w))
    end.

(** The directory part of a path: all before its last ['/']. *)
Definition dirname (p : string) : string := List.last (ancestors p) "".

(** [np.save(path, obj)] for a path that ends in [.npy]: writes the file
    into a directory that exists; a path without directory part is in the
    working directory. *)
Definition np_save (path : string) (obj : pyobj) : M unit :=
  fun w =>
    match fs w !! path with
    | Some Dir => (Err (IsADirectoryError path), w)
    | _ =>
        match (if String.eqb (dirname path) "" then Some Dir
               else fs w !! dirname path) with
        | Some Dir => (Ok tt, mk_world (<[path := File obj]> (fs w)) (stdout w))
        | _ => (Err (FileNotFoundError path), w)
        end
    end.

(* ================================================================= *)
(** ** pandas frames of float columns *)

(** A frame with float columns, column by column in insertion order: the
    dict [df_gam] and the [DataFrame] made from it. *)
Definition frame : Type := list (string * list F).

Definition frame_nrows (fr : frame) : nat :=
  match fr with
  | [] => 0
  | (_, c) :: _ => List.length c
  end.

(** [pd.DataFrame(d)] for a dict of 1-D arrays. *)
Definition pd_DataFrame (d : frame) : result frame :=
  if forallb (fun kv => List.length (snd kv) =? frame_nrows d) d
  then Ok d
  else Err (ValueError "All arrays must be of the same length").

(** The frame as a 2-D array, as [np.concatenate] reads it. *)
Definition frame_to_array (fr : frame) : ndarray F :=
  tabulate (frame_nrows fr) (List.length fr)
    (fun i j => nth i (snd (nth j fr (EmptyString, []))) zero).

(** [df.loc[:, k] = v] *)
Definition loc_set_column (fr : frame) (k : string) (v : list F) : result frame :=
  if List.length v =? frame_nrows fr
  then Ok (dict_set k v fr)
  else Err (ValueError "Length of values does not match length of index").

(* ================================================================= *)
(** ** Collaborators *)

(** [info_dict] *)
Record info_dict_t : Type := mk_info_dict {
  batch_levels : list nat;
  n_batch : nat;
  n_sample : nat;
  sample_per_batch : list nat;
  batch_info : list (list nat)
}.

(** statsmodels: the spline basis and the additive-model fit are a provided
    capability; the program only passes them around and reads [basis] and
    the fitted [params]. *)
Class Statsmodels : Type := {
  bsplines : Type;
  BSplines : ndarray F -> list nat -> list nat -> result bsplines;
  basis : bsplines -> ndarray F;
  glmgam : Type;
  GLMGam_from_formula : string -> frame -> bsplines -> list F -> result glmgam;
  glmgam_fit : glmgam -> result (list F);
  select_penweight : glmgam -> result (list F);
  set_alpha : glmgam -> list F -> glmgam
}.

(** The two estimation steps of [neuroCombat.py], a module of the repository
    whose source is not at hand; they are parameters of the development. *)
Class NeuroCombat : Type := {
  LS_dict_t : Type;
  fit_LS_model_and_find_priors :
    ndarray F -> ndarray F -> info_dict_t -> result LS_dict_t;
  find_parametric_adjustments :
    ndarray F -> LS_dict_t -> info_dict_t -> result (ndarray F * ndarray F)
}.

Context {SM : Statsmodels} {NC : NeuroCombat}.

(** [smooth_model] *)
Record smooth_model_t : Type := mk_smooth_model {
  perform_smoothing : bool;
  smooth_terms : list string;
  smooth_cols : list nat;
  bsplines_constructor : option bsplines;
  smooth_design : option (ndarray F);
  formula : option string;
  df_gam : option frame
}.

(** Modelled from the spec: [make_design_matrix] of neuroCombat.py, which is
    not among the sources. Spec 4.1: the batch column is expanded to
    N_batches one-hot indicator columns, ordered by ascending site code,
    followed by one column per numeric covariate in the given order; no
    intercept column; it fails if the designated site column is absent. *)
Definition make_design_matrix (Y : ndarray cell) (batch_col : nat)
    (cat_cols num_cols : list nat) : result (ndarray F) :=
  let? col := column (PyInt 0) Y batch_col in
  let? batch := np_unique_inverse col in
  let n_batch := List.length (np_unique Nat.leb batch) in
  let? nums := rmap (fun c => let? v := column (PyInt 0) Y c in
                              rmap to_float v) num_cols in
  Ok (tabulate (shape0 Y) (n_batch + List.length num_cols)
        (fun i j =>
           if j <? n_batch
           then (if nth i batch 0 =? j then one else zero)
           else nth i (nth (j - n_batch) nums []) zero)).

(** The site of sample [j]: the first entry of [batch_info] that lists it. *)
Fixpoint site_of (batch_info : list (list nat)) (j : nat) : option nat :=
  match batch_info with
  | [] => None
  | idxs :: rest =>
      if nat_in j idxs then Some 0 else option_map S (site_of rest j)
  end.

(** Modelled from the spec: [adjust_data_final] of neuroCombat.py, which is
    not among the sources. Spec 4.6: for each site's samples, subtract that
    site's gamma_star (broadcast per feature), divide by sqrt of that
    site's delta_star, rescale by sqrt(var_pooled), and add back
    stand_mean; the output shape matches s_data (features x samples). *)
Definition adjust_data_final (s_data design gamma_star delta_star
    stand_mean var_pooled : ndarray F) (info_dict : info_dict_t) : ndarray F :=
  tabulate (shape0 s_data) (shape1 s_data)
    (fun f j =>
       let z := match site_of (batch_info info_dict) j with
                | Some b => ((at_ s_data f j - at_ gamma_star b f)
                             / sqrt (at_ delta_star b f))%F
                | None => at_ s_data f j
                end in
       (z * sqrt (at_ var_pooled f 0) + at_ stand_mean f j)%F).

(* ================================================================= *)
(** ** [StandardizeAcrossFeatures] *)

(** Line 147: [B_hat = inv(design.T . design) . design.T . X.T] *)
Definition B_hat_linear (X design : ndarray F) : result (ndarray F) :=
  let? gram := np_dot (transpose zero design) design in
  let? gram_inv := np_linalg_inv gram in
  let? pinv := np_dot gram_inv (transpose zero design) in
  np_dot pinv (transpose zero X).

Definition not_none {A} (o : option A) (what : string) : result A :=
  match o with
  | Some a => Ok a
  | None => Err (AttributeError what)
  end.

(** Lines 138-145: the body of the loop over the features. The frame is
    mutated in place and so is carried from one round to the next. *)
Definition gam_fit_feature (X : ndarray F) (smooth_model : smooth_model_t)
    (alpha : list F) (acc : option frame * ndarray F) (i : nat)
  : result (option frame * ndarray F) :=
  let '(df_gam, B_hat) := acc in
  let? df_gam := not_none df_gam "loc" in
  let? df_gam := loc_set_column df_gam "y" (row zero X i) in
  let? formula := not_none (formula smooth_model) "formula" in
  let? bs := not_none (bsplines_constructor smooth_model) "smoother" in
  let? gam_bs := GLMGam_from_formula formula df_gam bs alpha in
  let? res_bs := glmgam_fit gam_bs in
  let? alpha_opt := select_penweight gam_bs in
  let gam_bs := set_alpha gam_bs alpha_opt in
  let? res_bs_optim := glmgam_fit gam_bs in
  let? B_hat := set_column zero B_hat i res_bs_optim in
  Ok (Some df_gam, B_hat).

(** Lines 124-145: the design and [B_hat] of the smoothing path. *)
Definition B_hat_smoothing (X : ndarray F) (smooth_model : smooth_model_t)
  : M (ndarray F * ndarray F) :=
  do _ <- (if 10 <? shape0 X
           then do _ <- print (Text (String "010"
                    "WARNING: more than 10 variables will be harmonized with smoothing model."));
                print (Text " Computation will take some time. For linear model (faster) remove arg: smooth_terms.")
           else ret tt);
  lift (let alpha := repeat one (List.length (smooth_cols smooth_model)) in
        let? design := not_none (smooth_design smooth_model) "shape" in
        let B_hat := np_zeros (shape1 design) (shape0 X) in
        let? r := rfold (gam_fit_feature X smooth_model alpha)
                    (df_gam smooth_model, B_hat) (seq 0 (shape0 X)) in
        Ok (design, snd r)).

(** Lines 148-158: what follows the estimate of [B_hat]. *)
Definition standardize_with (X design B_hat : ndarray F) (info_dict : info_dict_t)
  : result (ndarray F * ndarray F * ndarray F * ndarray F * list F) :=
  let n_batch := n_batch info_dict in
  let n_sample := n_sample info_dict in
  let sample_per_batch := sample_per_batch info_dict in
  let? grand_mean :=
    np_dot_1d (map (fun c => (of_nat c / of_nat n_sample)%F) sample_per_batch)
      (rows_upto n_batch B_hat) in
  let? fitted := np_dot design B_hat in
  let? resid := np_sub X (transpose zero fitted) in
  let? var_pooled :=
    np_dot (np_square resid)
      (np_div_scalar (np_ones n_sample 1) (of_nat n_sample)) in
  let? stand_mean := np_dot (reshape_column grand_mean) (np_ones 1 n_sample) in
  let tmp := zero_columns_upto n_batch design in
  let? covariate_part := np_dot tmp B_hat in
  let? stand_mean := np_iadd stand_mean (transpose zero covariate_part) in
  let? centred := np_sub X stand_mean in
  let? scale := np_dot (np_sqrt var_pooled) (np_ones 1 n_sample) in
  let? s_data := np_div centred scale in
  Ok (s_data, stand_mean, var_pooled, B_hat, grand_mean).

Definition StandardizeAcrossFeatures (X design : ndarray F)
    (info_dict : info_dict_t) (smooth_model : smooth_model_t)
  : M (ndarray F * ndarray F * ndarray F * ndarray F * list F) :=
  do db <- (if perform_smoothing smooth_model
            then B_hat_smoothing X smooth_model
            else do B_hat <- lift (B_hat_linear X design); ret (design, B_hat));
  lift (standardize_with X (fst db) (snd db) info_dict).

(* ================================================================= *)
(** ** [harmonizationLearn] *)

(** Lines 77-86: the formula and the dict of columns of the additive
    model. *)
Definition gam_formula_and_frame (covars : ndarray cell) (design : ndarray F)
    (batch_levels num_cols smooth_cols : list nat) : result (string * frame) :=
  let? acc :=
    rfold (fun '(formula, df_gam) b =>
             let? col := column zero design b in
             Ok (formula +:+ "x" +:+ str b +:+ " + ",
                 dict_set ("x" +:+ str b) col df_gam))
      ("y ~ ", []) batch_levels in
  let? acc :=
    rfold (fun '(formula, df_gam) c =>
             if nat_in c smooth_cols then Ok (formula, df_gam)
             else
               let? col := column (PyInt 0) covars c in
               let? v := rmap to_float col in
               Ok (formula +:+ "c" +:+ str c +:+ " + ",
                   dict_set ("c" +:+ str c) v df_gam))
      acc num_cols in
  let '(formula, df_gam) := acc in
  Ok (substring 0 (String.length formula - 2) formula +:+ "- 1", df_gam).

(** Lines 73-94: the additional setup when smoothing is performed. *)
Definition smoothing_setup (covars : ndarray cell) (design : ndarray F)
    (batch_levels num_cols : list nat) (smooth_model : smooth_model_t)
  : result smooth_model_t :=
  let smooth_cols := smooth_cols smooth_model in
  let? X_spline := columns_astype_float covars smooth_cols in
  let? bs := BSplines X_spline (repeat 10 (List.length smooth_cols))
               (repeat 3 (List.length smooth_cols)) in
  let? fd := gam_formula_and_frame covars design batch_levels num_cols smooth_cols in
  let? df_gam := pd_DataFrame (snd fd) in
  let? design_gam := concatenate_axis1 zero (frame_to_array df_gam) (basis bs) in
  Ok (mk_smooth_model (perform_smoothing smooth_model) (smooth_terms smooth_model)
        smooth_cols (Some bs) (Some design_gam) (Some (fst fd)) (Some df_gam)).

(** Lines 42-70 and 72-94: everything before the ComBat steps. After line
    59 the site column of [covars] holds [codes], which lines 61-67 read
    back. *)
Record prepared_t : Type := mk_prepared {
  p_info_dict : info_dict_t;
  p_design : ndarray F;
  p_smooth_model : smooth_model_t
}.

Definition prepare (covars : DataFrame) (smooth_terms : list string)
  : result prepared_t :=
  let? batch_col := columns_get_loc (columns covars) "SITE" in
  let cat_cols : list nat := [] in
  let? num_cols := rmap (columns_get_loc (columns covars))
                     (List.filter (fun c => negb (String.eqb c "SITE")) (columns covars)) in
  let? smooth_cols := rmap (columns_get_loc (columns covars))
                        (List.filter (fun c => str_in c smooth_terms) (columns covars)) in
  let smooth_model :=
    mk_smooth_model (0 <? List.length smooth_terms) smooth_terms smooth_cols
      None None None None in
  let covars := values covars in
  let? site := column (PyInt 0) covars batch_col in
  let? codes := np_unique_inverse site in
  let? covars := set_column (PyInt 0) covars batch_col
                   (map (fun c => PyInt (Z.of_nat c)) codes) in
  let batch_levels := np_unique Nat.leb codes in
  let sample_per_batch := unique_counts Nat.leb codes in
  let info_dict :=
    mk_info_dict batch_levels (List.length batch_levels) (shape0 covars)
      sample_per_batch
      (map (fun idx => List.filter (fun i => nth i codes 0 =? idx)
                         (seq 0 (List.length codes))) batch_levels) in
  let? design := make_design_matrix covars batch_col cat_cols num_cols in
  let? smooth_model :=
    (if perform_smoothing smooth_model
     then smoothing_setup covars design batch_levels num_cols smooth_model
     else Ok smooth_model) in
  Ok (mk_prepared info_dict design smooth_model).

Definition harmonizationLearn (data : ndarray F) (covars : DataFrame)
    (smooth_terms : list string) : M (list (string * pyobj) * ndarray F) :=
  let data := transpose zero data in
  do p <- lift (prepare covars smooth_terms);
  let info_dict := p_info_dict p in
  let design := p_design p in
  do (s_data, stand_mean, var_pooled, B_hat, grand_mean) <-
    StandardizeAcrossFeatures data design info_dict (p_smooth_model p);
  do LS_dict <- lift (fit_LS_model_and_find_priors s_data design info_dict);
  do (gamma_star, delta_star) <-
    lift (find_parametric_adjustments s_data LS_dict info_dict);
  let bayes_data :=
    adjust_data_final s_data design gamma_star delta_star stand_mean var_pooled
      info_dict in
  let model :=
    [("design", Array2 design); ("s_data", Array2 s_data);
     ("stand_mean", Array2 stand_mean); ("var_pooled", Array2 var_pooled);
     ("B_hat", Array2 B_hat); ("grand_mean", Array1 grand_mean);
     ("gamma_star", Array2 gamma_star); ("delta_star", Array2 delta_star);
     ("n_batch", Int (n_batch info_dict))] in
  let bayes_data := transpose zero bayes_data in
  ret (model, bayes_data).

(* ================================================================= *)
(** ** [saveHarmonizationModel] *)

Definition do_not_save : list string := ["design"; "s_data"; "stand_mean"; "n_batch"].

Definition folder_exists_message (fldr_name : string) : string :=
  "Model folder already exists: " +:+ fldr_name +:+ " Change name or delete to save.".

Definition save_object (model : list (string * pyobj)) (fldr_name : string)
    (_ : unit) (key : string) : M unit :=
  if negb (str_in key do_not_save)
  then
    do obj <- lift (dict_get key model);
    do size <- lift (nbytes obj);
    do _ <- print (SavingModelObject key size);
    np_save (fldr_name +:+ "/" +:+ key +:+ ".npy") obj
  else ret tt.

Definition saveHarmonizationModel (model : list (string * pyobj))
    (fldr_name : string) : M unit :=
  do found <- os_path_exists fldr_name;
  do _ <- (if found
           then raise (ValueError (folder_exists_message fldr_name))
           else os_makedirs fldr_name);
  do _ <- mfold (save_object model fldr_name) tt (map fst model);
  ret tt.

End Numeric.

Notation "'do' x '<-' e ';' k" := (bind e (fun x => k))
  (at level 10, x pattern, e at level 100, k at level 200) : M_scope.

(* ================================================================= *)
(** * What the specification says

    The quantities of sections 4.2 and 4.3 of the specification, written
    from its words, entry by entry; the theorems below compare them with
    what the program computes. *)

Section Specification.
Context {Sc : Scalar} {SM : Statsmodels} {NC : NeuroCombat}.

(** The design that the estimates are made with: the combined design when
    smoothing is active, the linear design otherwise. *)
Definition design_in_use (design : ndarray F) (smooth_model : smooth_model_t)
  : option (ndarray F) :=
  if perform_smoothing smooth_model then smooth_design smooth_model
  else Some design.

(** [(design . B_hat)[j, f]]: the fitted value of feature [f] at sample [j]. *)
Definition fitted_value (design B_hat : ndarray F) (j f : nat) : F :=
  sum_n (shape1 design) (fun k => (at_ design j k * at_ B_hat k f)%F).

(** [B_hat = (design^T design)^(-1) design^T X^T], given the inverse. *)
Definition ols_closed_form (gram_inv design X : ndarray F) : ndarray F :=
  tabulate (shape1 design) (shape0 X)
    (fun k f =>
       sum_n (shape1 X)
         (fun j => (sum_n (shape1 design)
                      (fun m => (at_ gram_inv k m * at_ design j m)%F)
                    * at_ X f j)%F)).

(** The normal equations of least squares, entry by entry:
    [(design^T design) B_hat = design^T X^T]. *)
Definition normal_equations (gram design X B_hat : ndarray F) : Prop :=
  forall k f, k < shape1 design -> f < shape0 X ->
    sum_n (shape1 design) (fun m => (at_ gram k m * at_ B_hat m f)%F)
    = sum_n (shape1 X) (fun j => (at_ design j k * at_ X f j)%F).

(** The weighted average of the first [n] rows of [B_hat], one value per
    feature, with weights samples-per-site over total samples. *)
Definition weighted_average_of_rows (counts : list nat) (total n : nat)
    (B_hat : ndarray F) : list F :=
  map (fun f => sum_n n (fun b => (of_nat (nth b counts 0) / of_nat total
                                   * at_ B_hat b f)%F))
    (seq 0 (shape1 B_hat)).

(** The same average taken over the first [n] columns of [B_hat], one value
    per row. *)
Definition weighted_average_of_columns (counts : list nat) (total n : nat)
    (B_hat : ndarray F) : list F :=
  map (fun k => sum_n n (fun b => (of_nat (nth b counts 0) / of_nat total
                                   * at_ B_hat k b)%F))
    (seq 0 (shape0 B_hat)).

(** Population variance of the residuals of feature [f]: divide by [N]. *)
Definition mean_squared_residual (X design B_hat : ndarray F) (f : nat) : F :=
  (sum_n (shape1 X)
     (fun j => ((at_ X f j - fitted_value design B_hat j f)
                * (at_ X f j - fitted_value design B_hat j f))%F)
   / of_nat (shape1 X))%F.

(** The part of [design . B_hat] that comes from the columns after the
    first [n] ones. *)
Definition covariate_part (n : nat) (design B_hat : ndarray F) (j f : nat) : F :=
  sum_n (shape1 design - n)
    (fun k => (at_ design j (n + k) * at_ B_hat (n + k) f)%F).

Definition stand_mean_spec (n : nat) (X design B_hat : ndarray F)
    (grand_mean : list F) : ndarray F :=
  tabulate (shape0 X) (shape1 X)
    (fun f j => (nth f grand_mean zero + covariate_part n design B_hat j f)%F).

Definition s_data_spec (X stand_mean var_pooled : ndarray F) : ndarray F :=
  tabulate (shape0 X) (shape1 X)
    (fun f j => ((at_ X f j - at_ stand_mean f j) / sqrt (at_ var_pooled f 0))%F).

(** The formula of section 4.2: a term [x<b>] per site and a term [c<k>]
    per covariate column that enters linearly, joined by [" + "], without
    intercept. *)
Definition x_term (b : nat) : string := "x" +:+ str b.
Definition c_term (c : nat) : string := "c" +:+ str c.

Definition formula_spec (terms : list string) : string :=
  "y ~ " +:+ String.concat " + " terms +:+ " - 1".

(** The positions of the columns whose label satisfies [P]. *)
Definition column_positions (P : string -> bool) (cols : list string) : list nat :=
  List.filter (fun i => P (nth i cols EmptyString)) (seq 0 (List.length cols)).

(** The positions of the numeric covariates that enter linearly: every
    column but SITE and the smooth terms. *)
Definition linear_covariate_positions (cols smooth_terms : list string) : list nat :=
  column_positions
    (fun c => negb (String.eqb c "SITE") && negb (str_in c smooth_terms)) cols.

Definition formula_terms (n_batch : nat) (cols smooth_terms : list string)
  : list string :=
  map x_term (seq 0 n_batch)
  ++ map c_term (linear_covariate_positions cols smooth_terms).

(** Every term followed by [" + "], as the loops of lines 79-85 leave the
    formula. *)
Definition terms_with_plus (terms : list string) : string :=
  fold_right (fun t acc => t +:+ " + " +:+ acc) EmptyString terms.

(** [design[:, b]], and the columns [x<b>] of the frame of the additive
    model. *)
Definition design_column (design : ndarray F) (b : nat) : list F :=
  map (fun i => at_ design i b) (seq 0 (shape0 design)).

Definition site_columns (design : ndarray F) (levels : list nat) : frame :=
  map (fun b => (x_term b, design_column design b)) levels.

(** A covariate table as the docstring asks for: one label per column, the
    site labels all strings or all numbers, every other entry a number. *)
Record well_formed_covars (covars : DataFrame) : Prop := {
  labels_match : shape1 (values covars) = List.length (columns covars);
  has_site : In "SITE" (columns covars);
  site_sortable :
    forall bc site,
      columns_get_loc (columns covars) "SITE" = Ok bc ->
      column (PyInt 0) (values covars) bc = Ok site ->
      is_Ok (np_unique_inverse site) = true;
  covariates_numeric :
    forall i c,
      i < shape0 (values covars) -> c < shape1 (values covars) ->
      nth c (columns covars) EmptyString <> "SITE" ->
      is_Ok (to_float (cell_at (values covars) i c)) = true
}.

(** The folder is there: a file or a directory has that path. *)
Definition folder_present (fldr_name : string) (w : world) : Prop :=
  is_Some (fs w !! fldr_name).

End Specification.

(* ================================================================= *)
(** * What the calls do

    Names for what the properties below speak of: the files and lines of
    a save, the parts of a table of covariates, and the conditions on a
    design and on a fit. *)

Section Behaviour.
Context {Sc : Scalar} {SM : Statsmodels} {NC : NeuroCombat}.

(** [fldr_name + '/' + key + '.npy'], the file of a saved object. *)
Definition npy_path (fldr_name key : string) : string :=
  fldr_name +:+ "/" +:+ key +:+ ".npy".

(** The keys that line 178 lets through, in the order of the model. *)
Definition saved_keys (model : list (string * pyobj)) : list string :=
  List.filter (fun key => negb (str_in key do_not_save)) (map fst model).

(** Nothing has the path [fldr_name] and nothing is stored below it. *)
Definition fresh_folder (fldr_name : string) (w : world) : Prop :=
  fs w !! fldr_name = None /\
  forall p, In fldr_name (ancestors p) -> fs w !! p = None.

Fixpoint has_slash (s : string) : bool :=
  match s with
  | EmptyString => false
  | String c s' => Ascii.eqb c "/" || has_slash s'
  end.

(** The line that line 180 prints for [key]. *)
Definition saving_line (model : list (string * pyobj)) (key : string)
    (line : console_line) : Prop :=
  exists obj size,
    dict_get key model = Ok obj /\ nbytes obj = Ok size /\
    line = SavingModelObject key size.

(** Every entry that line 178 lets through is an array, under a key
    without ['/']. *)
Definition savable (model : list (string * pyobj)) : bool :=
  forallb (fun kv => str_in (fst kv) do_not_save
                     || (negb (has_slash (fst kv)) && is_Ok (nbytes (snd kv))))
    model.

(** The two lines of lines 131-132. *)
Definition smoothing_warning : list console_line :=
  [Text (String "010"
           "WARNING: more than 10 variables will be harmonized with smoothing model.");
   Text " Computation will take some time. For linear model (faster) remove arg: smooth_terms."].

(** The keys of the model bundle, in the order of lines 103-105. *)
Definition model_keys : list string :=
  ["design"; "s_data"; "stand_mean"; "var_pooled"; "B_hat"; "grand_mean";
   "gamma_star"; "delta_star"; "n_batch"].

Definition is_str (x : cell) : bool :=
  match x with PyStr _ => true | _ => false end.
Definition is_int (x : cell) : bool :=
  match x with PyInt _ => true | _ => false end.
Definition is_float (x : cell) : bool :=
  match x with PyFloat _ => true | _ => false end.

(** The labels of a column are of one kind: all strings, all Python
    integers or all floats. *)
Definition one_kind (col : list cell) : bool :=
  forallb is_str col || forallb is_int col || forallb is_float col.

(** Samples [i] and [j] are listed under the same site of [batch_info]. *)
Definition same_batch (info : info_dict_t) (i j : nat) : Prop :=
  exists b, b < n_batch info /\
            In i (nth b (batch_info info) []) /\ In j (nth b (batch_info info) []).

(** The first [n_batch] columns of the design are site indicators that
    agree with [sample_per_batch]: on every sample they add up to 1, and
    column [b] adds up to the number of samples of site [b]. *)
Definition site_indicator_columns (design : ndarray F) (info : info_dict_t) : Prop :=
  (forall j, j < shape0 design ->
     sum_n (n_batch info) (fun b => at_ design j b) = one) /\
  (forall b, b < n_batch info ->
     sum_n (shape0 design) (fun j => at_ design j b)
     = of_nat (nth b (sample_per_batch info) 0)).

(** The columns of the design are linearly dependent: a combination of
    them with a coefficient that is not zero vanishes on every sample. *)
Definition collinear (design : ndarray F) : Prop :=
  exists (v : nat -> F) (k : nat),
    k < shape1 design /\ v k <> zero /\
    forall j, j < shape0 design ->
      sum_n (shape1 design) (fun m => (at_ design j m * v m)%F) = zero.

(** The design holds the site indicators and nothing else: entry [(j, b)]
    is 1 when sample [j] has site code [b], and 0 otherwise. *)
Definition indicator_design (design : ndarray F) (n_batch : nat)
    (code : nat -> nat) : Prop :=
  shape1 design = n_batch /\
  forall j b, j < shape0 design -> b < n_batch ->
    at_ design j b = if code j =? b then one else zero.

(** The entry that [B_hat[:, i] = params] leaves in row [k]: [params[k]],
    or the single value of a [params] of length 1. *)
Definition assigned (params : list F) (rows k : nat) : F :=
  nth (if List.length params =? rows then k else 0) params zero.

(** Lines 139-145 for feature [i], from the frame and the formula of
    [smooth_model]: the parameters of the second fit. *)
Definition refit_params (X : ndarray F) (smooth_model : smooth_model_t)
    (df : frame) (fml : string) (bs : bsplines) (i : nat) (params : list F) : Prop :=
  exists gam first alpha,
    GLMGam_from_formula fml (dict_set "y" (row zero X i) df) bs
      (repeat one (List.length (smooth_cols smooth_model))) = Ok gam /\
    glmgam_fit gam = Ok first /\
    select_penweight gam = Ok alpha /\
    glmgam_fit (set_alpha gam alpha) = Ok params.

(** What the rows of [B_hat] rest on in the smoothing path, where they are
    the parameters that the additive-model fit returns: the fit of the
    formula that names every column of the frame but ["y"] returns one
    parameter per column of its design, which is these columns in the
    order of the frame followed by the basis of the smoother, and, the
    penalty being on the smoother alone, the residuals of ["y"] are
    orthogonal to the columns of the frame. *)
Definition fit_follows_design_columns : Prop :=
  forall (df : frame) (y : list F) (bs : bsplines) (alpha alpha' : list F)
         (gam : glmgam) (params : list F) (D : ndarray F),
    ~ In "y" (map fst df) ->
    GLMGam_from_formula (formula_spec (map fst df)) (df ++ [("y", y)]) bs alpha
    = Ok gam ->
    glmgam_fit (set_alpha gam alpha') = Ok params ->
    concatenate_axis1 zero (frame_to_array df) (basis bs) = Ok D ->
    List.length params = shape1 D /\
    forall k, k < List.length df ->
      sum_n (shape0 D)
        (fun j => (at_ D j k
                   * (nth j y zero
                      - sum_n (shape1 D)
                          (fun m => (at_ D j m * nth m params zero)%F)))%F)
      = zero.

End Behaviour.

(* ================================================================= *)
(** * A concrete instance

    Exact rationals as the numbers, and collaborators simple enough to
    run, so that the definitions above can be evaluated on small tables. *)

(** The square root of a rational whose numerator and denominator are
    perfect squares; rounded down on each otherwise. *)
Definition Qc_sqrt (x : Qc) : Qc :=
  Q2Qc (Z.sqrt (Qnum (this x)) # Pos.sqrt (Qden (this x))).

#[export] Instance Qc_scalar : Scalar.
Proof.
  refine {| F := Qc; zero := Q2Qc 0; one := 1%Qc;
            add := Qcplus; mul := Qcmult; sub := Qcminus; opp := Qcopp;
            div := Qcdiv; inv := Qcinv; sqrt := Qc_sqrt;
            leb := fun x y => Qle_bool (this x) (this y);
            eqb := fun x y => if Qc_eq_dec x y then true else false |}.
  - exact Qcft.
  - intros x y. destruct (Qc_eq_dec x y); split; congruence.
Defined.

Section Collaborators.
Context {Sc : Scalar}.

(** ComBat steps that find no site effect: a location shift of 0 and a
    scale of 1 for every site and feature. *)
#[export] Instance unit_adjustment : NeuroCombat := {|
  LS_dict_t := unit;
  fit_LS_model_and_find_priors := fun _ _ _ => Ok tt;
  find_parametric_adjustments := fun s_data _ info_dict =>
    Ok (np_zeros (n_batch info_dict) (shape0 s_data),
        np_ones (n_batch info_dict) (shape0 s_data))
|}.

(** An additive model without penalty: the basis of a smooth covariate is
    the covariate itself, and the fit is least squares of the column ["y"]
    on the other columns of the frame followed by the basis. *)
Definition least_squares_fit (g : frame * ndarray F) : result (list F) :=
  let? y := dict_get "y" (fst g) in
  let linear := List.filter (fun kv => negb (String.eqb (fst kv) "y")) (fst g) in
  let? design := concatenate_axis1 zero (frame_to_array linear) (snd g) in
  let? B := B_hat_linear (mk_ndarray 1 (List.length y) [y]) design in
  column zero B 0.

#[export] Instance least_squares_gam : Statsmodels := {|
  bsplines := ndarray F;
  BSplines := fun X _ _ => Ok X;
  basis := fun bs => bs;
  glmgam := (frame * ndarray F)%type;
  GLMGam_from_formula := fun _ df bs _ => Ok (df, bs);
  glmgam_fit := least_squares_fit;
  select_penweight := fun _ => Ok [];
  set_alpha := fun g _ => g
|}.

End Collaborators.

Module Example.

Definition q (z : Z) : F := Q2Qc (inject_Z z).

Definition array (rows : list (list Z)) : ndarray F :=
  mk_ndarray (List.length rows) (List.length (hd [] rows)) (map (map q) rows).

Definition empty_world : world := mk_world ∅ [].

(** Six samples of two features, from two sites. *)
Definition data : ndarray F :=
  array [[1; 10]; [5; 20]; [3; 30]; [7; 40]; [2; 25]; [8; 35]]%Z.

Definition covars_site_only : DataFrame :=
  mk_DataFrame ["SITE"]
    (mk_ndarray 6 1 [[PyStr "A"]; [PyStr "B"]; [PyStr "A"]; [PyStr "B"];
                     [PyStr "A"]; [PyStr "B"]]).

Definition covars : DataFrame :=
  mk_DataFrame ["AGE"; "SITE"; "SEX"]
    (mk_ndarray 6 3
       [[PyInt 30; PyStr "B"; PyInt 0]; [PyInt 41; PyStr "A"; PyInt 1];
        [PyInt 52; PyStr "B"; PyInt 1]; [PyInt 47; PyStr "A"; PyInt 1];
        [PyInt 35; PyStr "B"; PyInt 0]; [PyInt 60; PyStr "A"; PyInt 0]]).

Definition covars_without_site : DataFrame :=
  mk_DataFrame ["AGE"]
    (mk_ndarray 6 1 [[PyInt 30]; [PyInt 41]; [PyInt 52]; [PyInt 47];
                     [PyInt 35]; [PyInt 60]]).

(** What [harmonizationLearn] hands to [StandardizeAcrossFeatures] for
    [data] and [covars_site_only]. *)
Definition X : ndarray F := transpose zero data.
Definition design : ndarray F :=
  array [[1; 0]; [0; 1]; [1; 0]; [0; 1]; [1; 0]; [0; 1]]%Z.
Definition info_dict : info_dict_t :=
  mk_info_dict [0; 1] 2 6 [3; 3] [[0; 2; 4]; [1; 3; 5]].
Definition no_smoothing : smooth_model_t :=
  mk_smooth_model false [] [] None None None None.

(** The entries of an array, as fractions. *)
Definition rationals (a : ndarray F) : list (list Q) := map (map this) (item a).

(** A model bundle, as [harmonizationLearn] assembles it. *)
Definition model : list (string * pyobj) :=
  [("design", Array2 design); ("s_data", Array2 X); ("stand_mean", Array2 X);
   ("var_pooled", Array2 (array [[1]; [4]]%Z));
   ("B_hat", Array2 (array [[2; 20]; [6; 30]]%Z));
   ("grand_mean", Array1 [q 4; q 25]);
   ("gamma_star", Array2 (array [[0; 0]; [0; 0]]%Z));
   ("delta_star", Array2 (array [[1; 1]; [1; 1]]%Z));
   ("n_batch", Int 2)].

End Example.

Section FurtherCollaborators.
Context {Sc : Scalar}.

(** The fit of [least_squares_gam] with its parameters in the opposite
    order: a fit that [fit_follows_design_columns] rules out. *)
Definition reversed_gam : Statsmodels := {|
  bsplines := ndarray F;
  BSplines := fun X _ _ => Ok X;
  basis := fun bs => bs;
  glmgam := (frame * ndarray F)%type;
  GLMGam_from_formula := fun _ df bs _ => Ok (df, bs);
  glmgam_fit := fun g => let? params := least_squares_fit g in Ok (rev params);
  select_penweight := fun _ => Ok [];
  set_alpha := fun g _ => g
|}.

(** The residuals of feature [f] added up over the samples of site [b], for
    the [B_hat] that [harmonizationLearn] stores and the design in use. *)
Definition site_residual_sum {SM : Statsmodels} {NC : NeuroCombat}
    (data : ndarray F) (covars : DataFrame) (st : list string) (w : world)
    (b f : nat) : option F :=
  match prepare covars st, harmonizationLearn data covars st w with
  | Ok p, (Ok (model, _), _) =>
      match design_in_use (p_design p) (p_smooth_model p),
            dict_get "B_hat" model with
      | Some D, Ok (Array2 B) =>
          Some (sum_n (shape0 D)
                  (fun j => (at_ D j b * (at_ (transpose zero data) f j
                                          - fitted_value D B j f))%F))
      | _, _ => None
      end
  | _, _ => None
  end.

End FurtherCollaborators.

(** Further values for the examples. *)

Module Cases.
Import Example.

(** A bundle with an entry that is no array. *)
Definition model_with_count : list (string * pyobj) :=
  [("B_hat", Array2 (array [[2; 20]; [6; 30]]%Z)); ("n_sites", Int 2)].

(** A SITE column that holds a name beside a number. *)
Definition covars_mixed : DataFrame :=
  mk_DataFrame ["SITE"]
    (mk_ndarray 6 1 [[PyStr "A"]; [PyInt 2]; [PyStr "A"]; [PyInt 2];
                     [PyStr "A"]; [PyInt 2]]).

(** Five samples of two features, features x samples. *)
Definition X5 : ndarray F :=
  transpose zero (array [[1; 10]; [5; 20]; [3; 30]; [7; 40]; [2; 25]]%Z).

(** The site indicators of [design] beside a constant column, which is
    their sum. *)
Definition design_with_constant : ndarray F :=
  array [[1; 0; 1]; [0; 1; 1]; [1; 0; 1]; [0; 1; 1]; [1; 0; 1]; [0; 1; 1]]%Z.

Definition dependence (m : nat) : F := nth m [q 1; q 1; q (-1)] zero.

(** The site code of sample [j] in [design]. *)
Definition site_code (j : nat) : nat := j mod 2.

End Cases.


(* ================================================================= *)
(** * Properties *)

(** ** The monads *)

Lemma rbind_Ok {A B} (r : result A) (k : A -> result B) (b : B) :
  rbind r k = Ok b -> exists a, r = Ok a /\ k a = Ok b.
Proof. destruct r as [a|e]; simpl; [eauto | discriminate]. Qed.

(** ** Arrays *)

Section Arrays.
Context {A : Type}.

Lemma get_tabulate (d : A) r c f i j :
  i < r -> j < c -> get d (tabulate r c f) i j = f i j.
Proof.
  intros Hi Hj. unfold get, tabulate. simpl.
  rewrite (nth_indep _ [] (map (fun j => f 0 j) (seq 0 c)))
    by (rewrite length_map, length_seq; exact Hi).
  rewrite (map_nth (fun i => map (fun j => f i j) (seq 0 c)) (seq 0 r) 0 i).
  rewrite seq_nth by exact Hi. simpl.
  rewrite (nth_indep _ d (f i 0)) by (rewrite length_map, length_seq; exact Hj).
  rewrite (map_nth (fun j => f i j) (seq 0 c) 0 j).
  now rewrite seq_nth by exact Hj.
Qed.

Lemma tabulate_ext r c (f g : nat -> nat -> A) :
  (forall i j, i < r -> j < c -> f i j = g i j) -> tabulate r c f = tabulate r c g.
Proof.
  intros H. unfold tabulate. f_equal.
  apply map_ext_in. intros i Hi. apply in_seq in Hi.
  apply map_ext_in. intros j Hj. apply in_seq in Hj.
  apply H; lia.
Qed.

Lemma well_shaped_tabulate r c (f : nat -> nat -> A) : well_shaped (tabulate r c f).
Proof.
  split; simpl.
  - now rewrite length_map, length_seq.
  - apply List.Forall_forall. intros row Hrow. apply in_map_iff in Hrow as (i & <- & _).
    now rewrite length_map, length_seq.
Qed.

(** A well-shaped array is the table of its entries. *)
Lemma tabulate_get (d : A) (a : ndarray A) :
  well_shaped a -> tabulate (shape0 a) (shape1 a) (get d a) = a.
Proof.
  destruct a as [r c rows]. unfold well_shaped, tabulate, get. simpl.
  intros [Hr Hc]. f_equal. subst r.
  apply nth_ext with (d := []) (d' := []).
  - now rewrite length_map, length_seq.
  - intros i Hi. rewrite length_map, length_seq in Hi.
    rewrite (nth_indep _ [] (map (fun j => nth j (nth 0 rows []) d) (seq 0 c)))
      by (rewrite length_map, length_seq; exact Hi).
    rewrite (map_nth (fun i => map (fun j => nth j (nth i rows []) d) (seq 0 c))
               (seq 0 (List.length rows)) 0 i).
    rewrite seq_nth by exact Hi. simpl.
    assert (Hlen : List.length (nth i rows []) = c).
    { rewrite List.Forall_forall in Hc. apply Hc. now apply nth_In. }
    apply nth_ext with (d := d) (d' := d).
    + now rewrite length_map, length_seq.
    + intros j Hj. rewrite length_map, length_seq in Hj.
      rewrite (nth_indep _ d (nth 0 (nth i rows []) d))
        by (rewrite length_map, length_seq; exact Hj).
      rewrite (map_nth (fun j => nth j (nth i rows []) d) (seq 0 c) 0 j).
      now rewrite seq_nth by exact Hj.
Qed.

Lemma transpose_involutive (d : A) (a : ndarray A) :
  well_shaped a -> transpose d (transpose d a) = a.
Proof.
  intros Ha. unfold transpose at 1. simpl.
  rewrite <- (tabulate_get d a Ha) at 3.
  apply tabulate_ext. intros i j Hi Hj. unfold transpose.
  now rewrite get_tabulate.
Qed.

Lemma column_length (d : A) (a : ndarray A) j v :
  column d a j = Ok v -> List.length v = shape0 a.
Proof.
  unfold column. destruct (j <? shape1 a); [|discriminate].
  intros H. inversion H. now rewrite length_map, length_seq.
Qed.

Lemma set_column_shape (d : A) (a a' : ndarray A) j v :
  set_column d a j v = Ok a' -> shape a' = shape a.
Proof.
  unfold set_column. destruct (negb (j <? shape1 a)); [discriminate|].
  destruct (List.length v =? shape0 a); [intros H; now inversion H|].
  destruct (List.length v =? 1); [intros H; now inversion H | discriminate].
Qed.

End Arrays.

(** ** [np.unique] *)

Section UniqueFacts.
Context {A : Type} `{EqDecision A} (le : A -> A -> bool).

Lemma insert_sorted_perm (x : A) (l : list A) :
  Permutation (insert_sorted le x l) (x :: l).
Proof.
  induction l as [|y l IH]; simpl; [reflexivity|].
  destruct (le x y); [reflexivity|].
  rewrite IH. apply perm_swap.
Qed.

Lemma sort_perm (l : list A) : Permutation (sort le l) l.
Proof.
  induction l as [|x l IH]; simpl; [reflexivity|].
  rewrite insert_sorted_perm. now constructor.
Qed.

Lemma np_unique_In (x : A) (l : list A) : In x (np_unique le l) <-> In x l.
Proof.
  unfold np_unique. split; intros Hx.
  - apply (Permutation_in _ (sort_perm _)) in Hx. now apply nodup_In in Hx.
  - apply (Permutation_in _ (Permutation_sym (sort_perm _))). now apply nodup_In.
Qed.

Lemma np_unique_NoDup (l : list A) : List.NoDup (np_unique le l).
Proof.
  unfold np_unique.
  apply (Permutation_NoDup (Permutation_sym (sort_perm _))). apply List.NoDup_nodup.
Qed.

Lemma index_of_lt (x : A) (l : list A) : In x l -> index_of x l < List.length l.
Proof.
  induction l as [|y l IH]; simpl; [tauto|].
  intros [-> | Hx]; destruct (decide _) as [?|Hne]; try lia.
  - congruence.
  - specialize (IH Hx). lia.
Qed.

Lemma index_of_nth (d : A) (l : list A) (i : nat) :
  List.NoDup l -> i < List.length l -> index_of (nth i l d) l = i.
Proof.
  revert i. induction l as [|y l IH]; simpl; intros i Hnd Hi; [lia|].
  inversion Hnd as [|? ? Hy Hnd']; subst.
  destruct i as [|i].
  - destruct (decide (y = y)); congruence.
  - destruct (decide (nth i l d = y)) as [E|_].
    + exfalso. apply Hy. rewrite <- E. apply nth_In. lia.
    + f_equal. apply IH; [assumption | lia].
Qed.

Lemma unique_inverse_length (l : list A) :
  List.length (unique_inverse le l) = List.length l.
Proof. unfold unique_inverse. apply length_map. Qed.

(** The codes are exactly the positions among the distinct values. *)
Lemma unique_inverse_In (l : list A) (c : nat) :
  In c (unique_inverse le l) <-> c < List.length (np_unique le l).
Proof.
  unfold unique_inverse. split.
  - intros Hc. apply in_map_iff in Hc as (x & <- & Hx).
    apply index_of_lt. now apply np_unique_In.
  - intros Hc. destruct (np_unique le l) as [|u us] eqn:E; [simpl in Hc; lia|].
    rewrite <- E in *. apply in_map_iff. exists (nth c (np_unique le l) u). split.
    + apply index_of_nth; [apply np_unique_NoDup | assumption].
    + apply np_unique_In. now apply nth_In.
Qed.

Lemma unique_counts_length (l : list A) :
  List.length (unique_counts le l) = List.length (np_unique le l).
Proof. unfold unique_counts. apply length_map. Qed.

End UniqueFacts.

Section UniqueMap.
Context {A B : Type} `{EqDecision A} `{EqDecision B}.
Context (leA : A -> A -> bool) (leB : B -> B -> bool) (f : A -> B).
Hypothesis f_inj : forall x y, f x = f y -> x = y.
Hypothesis f_mono : forall x y, leB (f x) (f y) = leA x y.

Lemma nodup_map_inj (l : list A) :
  nodup (fun x y => decide (x = y)) (map f l)
  = map f (nodup (fun x y => decide (x = y)) l).
Proof using f_inj.
  induction l as [|x l IH]; simpl; [reflexivity|].
  destruct (in_dec _ (f x) (map f l)) as [Hin|Hnin];
    destruct (in_dec _ x l) as [Hin'|Hnin']; simpl.
  - exact IH.
  - exfalso. apply in_map_iff in Hin as (y & Hy & Hyl).
    apply f_inj in Hy. subst. contradiction.
  - exfalso. apply Hnin. now apply in_map.
  - now rewrite IH.
Qed.

Lemma insert_sorted_map (x : A) (l : list A) :
  insert_sorted leB (f x) (map f l) = map f (insert_sorted leA x l).
Proof using f_mono.
  induction l as [|y l IH]; simpl; [reflexivity|].
  rewrite f_mono. destruct (leA x y); simpl; [reflexivity|]. now rewrite IH.
Qed.

Lemma sort_map (l : list A) : sort leB (map f l) = map f (sort leA l).
Proof using f_mono.
  induction l as [|x l IH]; simpl; [reflexivity|].
  now rewrite IH, insert_sorted_map.
Qed.

Lemma np_unique_map (l : list A) : np_unique leB (map f l) = map f (np_unique leA l).
Proof using f_inj f_mono. unfold np_unique. now rewrite nodup_map_inj, sort_map. Qed.

Lemma index_of_map (x : A) (l : list A) : index_of (f x) (map f l) = index_of x l.
Proof using f_inj.
  induction l as [|y l IH]; simpl; [reflexivity|].
  destruct (decide (f x = f y)) as [E|E]; destruct (decide (x = y)) as [E'|E'].
  - reflexivity.
  - apply f_inj in E. contradiction.
  - subst. contradiction.
  - now rewrite IH.
Qed.

End UniqueMap.

(** Sorting natural numbers. *)
Lemma insert_sorted_nat_sorted (x : nat) (l : list nat) :
  StronglySorted Nat.le l -> StronglySorted Nat.le (insert_sorted Nat.leb x l).
Proof.
  induction 1 as [|y l Hs IH Hall]; simpl.
  - repeat constructor.
  - destruct (Nat.leb x y) eqn:E.
    + apply Nat.leb_le in E. constructor; [now constructor|].
      constructor; [exact E|].
      rewrite List.Forall_forall in *. intros z Hz. specialize (Hall z Hz).
      unfold Nat.le in *. lia.
    + apply Nat.leb_gt in E. constructor; [exact IH|].
      rewrite List.Forall_forall in *. intros z Hz.
      apply (Permutation_in _ (insert_sorted_perm Nat.leb x l)) in Hz.
      destruct Hz as [<-|Hz]; [unfold Nat.le; lia | now apply Hall].
Qed.

Lemma sort_nat_sorted (l : list nat) : StronglySorted Nat.le (sort Nat.leb l).
Proof.
  induction l as [|x l IH]; simpl; [constructor|].
  now apply insert_sorted_nat_sorted.
Qed.

(** A sorted list without repetition that holds exactly the numbers from [a]
    to [a + n - 1] is that range. *)
Lemma sorted_range (n : nat) : forall (a : nat) (l : list nat),
  StronglySorted Nat.le l -> List.NoDup l ->
  (forall x, In x l <-> a <= x < a + n) -> l = seq a n.
Proof.
  induction n as [|n IH]; intros a l Hs Hnd Hin.
  - destruct l as [|y l]; [reflexivity|].
    exfalso. assert (In y (y :: l)) as Hy by now left. apply Hin in Hy. lia.
  - destruct l as [|y l].
    + exfalso. assert (a <= a < a + S n) as Ha by lia. apply Hin in Ha. inversion Ha.
    + inversion Hs as [|? ? Hs' Hall]; subst.
      inversion Hnd as [|? ? Hy Hnd']; subst.
      rewrite List.Forall_forall in Hall.
      assert (y = a) as ->.
      { assert (In y (y :: l)) as Hy1 by now left. apply Hin in Hy1.
        assert (In a (y :: l)) as Ha by (apply Hin; lia).
        destruct Ha as [Ha|Ha]; [assumption|].
        specialize (Hall a Ha). unfold Nat.le in Hall. lia. }
      simpl. f_equal. apply IH; [assumption | assumption |].
      intros x. split.
      * intros Hx. assert (x <> a) by (intros ->; contradiction).
        specialize (Hall x Hx). unfold Nat.le in Hall.
        assert (In x (a :: l)) as Hx' by now right. apply Hin in Hx'. lia.
      * intros Hx. assert (In x (a :: l)) as Hx' by (apply Hin; lia).
        destruct Hx' as [<-|Hx']; [lia | assumption].
Qed.

(** After the re-encoding, the distinct site codes are [0, 1, ..., n-1]. *)
Lemma np_unique_codes {A : Type} `{EqDecision A} (le : A -> A -> bool) (l : list A) :
  np_unique Nat.leb (unique_inverse le l) = seq 0 (List.length (np_unique le l)).
Proof.
  apply sorted_range.
  - apply sort_nat_sorted.
  - apply np_unique_NoDup.
  - intros x. rewrite np_unique_In, unique_inverse_In. lia.
Qed.

Lemma index_of_seq (n c : nat) : c < n -> index_of c (seq 0 n) = c.
Proof.
  intros Hc.
  assert (E : nth c (seq 0 n) 0 = c) by (rewrite seq_nth; lia).
  rewrite <- E at 1.
  apply index_of_nth; [apply List.seq_NoDup | now rewrite length_seq].
Qed.

(** Re-encoding codes that are already contiguous changes nothing. *)
Lemma unique_inverse_codes (codes : list nat) (n : nat) :
  np_unique Nat.leb codes = seq 0 n ->
  unique_inverse Z.leb (map Z.of_nat codes) = codes.
Proof.
  intros Hu. unfold unique_inverse.
  rewrite (np_unique_map Nat.leb Z.leb Z.of_nat).
  - rewrite Hu, map_map. rewrite <- (map_id codes) at 2.
    apply map_ext_in. intros c Hc.
    rewrite (index_of_map Z.of_nat) by (intros x y; apply Nat2Z.inj).
    apply index_of_seq.
    apply (np_unique_In Nat.leb) in Hc. rewrite Hu in Hc. apply in_seq in Hc. lia.
  - intros x y. apply Nat2Z.inj.
  - intros x y. destruct (Nat.leb x y) eqn:E.
    + apply Nat.leb_le in E. apply Z.leb_le. lia.
    + apply Nat.leb_gt in E. apply Z.leb_gt. lia.
Qed.

(** ** Arithmetic of arrays *)

Section NumericFacts.
Context {Sc : Scalar}.

Add Field numeric_facts_field : scalar_field.

Lemma at_tabulate r c f i j : i < r -> j < c -> at_ (tabulate r c f) i j = f i j.
Proof. apply get_tabulate. Qed.

Lemma at_transpose (a : ndarray F) i j :
  i < shape1 a -> j < shape0 a -> at_ (transpose zero a) i j = at_ a j i.
Proof. intros. unfold transpose. now rewrite at_tabulate. Qed.

Lemma sum_n_ext n (f g : nat -> F) :
  (forall k, k < n -> f k = g k) -> sum_n n f = sum_n n g.
Proof.
  induction n as [|n IH]; simpl; intros H; [reflexivity|].
  rewrite IH by (intros; apply H; lia). now rewrite H by lia.
Qed.

Lemma sum_n_one (f : nat -> F) : sum_n 1 f = f 0.
Proof. simpl. ring. Qed.

Lemma sum_n_scale n (f : nat -> F) (c : F) :
  sum_n n (fun k => (f k * c)%F) = (sum_n n f * c)%F.
Proof. induction n as [|n IH]; simpl; [ring | rewrite IH; ring]. Qed.

Lemma sum_n_zero n : sum_n n (fun _ => zero) = zero.
Proof. induction n as [|n IH]; simpl; [reflexivity | rewrite IH; ring]. Qed.

(** Terms whose left factor was set to zero drop out of a dot product. *)
Lemma sum_n_zeroed_prefix (n K : nat) (g h : nat -> F) :
  sum_n K (fun k => ((if k <? n then zero else g k) * h k)%F)
  = sum_n (K - n) (fun k => (g (n + k)%nat * h (n + k)%nat)%F).
Proof.
  induction K as [|K IH]; simpl; [reflexivity|].
  destruct (K <? n) eqn:E.
  - apply Nat.ltb_lt in E. rewrite IH.
    replace (S K - n) with 0 by lia. replace (K - n) with 0 by lia. simpl. ring.
  - apply Nat.ltb_ge in E. rewrite IH.
    replace (S K - n) with (S (K - n)) by lia. simpl.
    replace (n + (K - n)) with K by lia. reflexivity.
Qed.

Lemma np_dot_Ok (a b m : ndarray F) :
  np_dot a b = Ok m ->
  shape1 a = shape0 b /\
  m = tabulate (shape0 a) (shape1 b)
        (fun i j => sum_n (shape1 a) (fun k => (at_ a i k * at_ b k j)%F)).
Proof.
  unfold np_dot. destruct (shape1 a =? shape0 b) eqn:E; [|discriminate].
  apply Nat.eqb_eq in E. intros H. now inversion H.
Qed.

Lemma np_dot_defined (a b : ndarray F) :
  shape1 a = shape0 b -> exists m, np_dot a b = Ok m.
Proof.
  intros E. unfold np_dot. apply Nat.eqb_eq in E. rewrite E. eauto.
Qed.

Lemma np_dot_1d_Ok (v : list F) (b : ndarray F) (r : list F) :
  np_dot_1d v b = Ok r ->
  List.length v = shape0 b /\
  r = map (fun j => sum_n (List.length v) (fun k => (nth k v zero * at_ b k j)%F))
        (seq 0 (shape1 b)).
Proof.
  unfold np_dot_1d. destruct (List.length v =? shape0 b) eqn:E; [|discriminate].
  apply Nat.eqb_eq in E. intros H. now inversion H.
Qed.

Lemma bdim_same d : bdim d d = Some d.
Proof. unfold bdim. now rewrite Nat.eqb_refl. Qed.

Lemma bidx_lt d i : i < d -> bidx d i = i.
Proof. unfold bidx. destruct (d =? 1) eqn:E; [apply Nat.eqb_eq in E; lia | reflexivity]. Qed.

Lemma broadcast2_same (op : F -> F -> F) (a b m : ndarray F) :
  broadcast2 op a b = Ok m -> shape0 b = shape0 a -> shape1 b = shape1 a ->
  m = tabulate (shape0 a) (shape1 a) (fun i j => op (at_ a i j) (at_ b i j)).
Proof.
  unfold broadcast2. intros H E0 E1. rewrite E0, E1, !bdim_same in H.
  inversion H. apply tabulate_ext. intros i j Hi Hj.
  now rewrite !bidx_lt.
Qed.

Lemma np_iadd_Ok (a b m : ndarray F) :
  np_iadd a b = Ok m -> shape m = shape a.
Proof.
  unfold np_iadd.
  destruct (bdim (shape0 a) (shape0 b)) as [r|]; [|discriminate].
  destruct (bdim (shape1 a) (shape1 b)) as [c|]; [|discriminate].
  destruct ((r =? shape0 a) && (c =? shape1 a)) eqn:E; [|discriminate].
  apply andb_true_iff in E as [E0 E1].
  apply Nat.eqb_eq in E0, E1. subst. intros H. now inversion H.
Qed.

Lemma np_iadd_same (a b m : ndarray F) :
  np_iadd a b = Ok m -> shape0 b = shape0 a -> shape1 b = shape1 a ->
  m = tabulate (shape0 a) (shape1 a) (fun i j => (at_ a i j + at_ b i j)%F).
Proof.
  unfold np_iadd. intros H E0 E1. rewrite E0, E1, !bdim_same, !Nat.eqb_refl in H.
  simpl in H. inversion H. apply tabulate_ext. intros i j Hi Hj.
  now rewrite !bidx_lt.
Qed.

Lemma sum_n_add n (f g : nat -> F) :
  sum_n n (fun k => (f k + g k)%F) = (sum_n n f + sum_n n g)%F.
Proof. induction n as [|n IH]; simpl; [ring | rewrite IH; ring]. Qed.

Lemma sum_n_scale_l n (f : nat -> F) (c : F) :
  sum_n n (fun k => (c * f k)%F) = (c * sum_n n f)%F.
Proof. induction n as [|n IH]; simpl; [ring | rewrite IH; ring]. Qed.

(** The order of two sums can be exchanged. *)
Lemma sum_n_swap n m (f : nat -> nat -> F) :
  sum_n n (fun i => sum_n m (fun j => f i j))
  = sum_n m (fun j => sum_n n (fun i => f i j)).
Proof.
  induction n as [|n IH]; simpl.
  - now rewrite sum_n_zero.
  - now rewrite IH, sum_n_add.
Qed.

(** A sum against a row of the identity picks one term. *)
Lemma sum_n_identity n i (g : nat -> F) :
  i < n ->
  sum_n n (fun m => ((if i =? m then one else zero) * g m)%F) = g i.
Proof.
  induction n as [|n IH]; intros Hi; [lia|]. simpl.
  destruct (Nat.eq_dec i n) as [->|Hne].
  - rewrite Nat.eqb_refl.
    rewrite (sum_n_ext _ _ (fun _ => zero)).
    + rewrite sum_n_zero. ring.
    + intros k Hk. replace (n =? k) with false
        by (symmetry; apply Nat.eqb_neq; lia). ring.
  - rewrite IH by lia.
    replace (i =? n) with false by (symmetry; apply Nat.eqb_neq; lia). ring.
Qed.

Lemma div_as_mul (x y : F) : (x / y)%F = (x * inv y)%F.
Proof. apply (Fdiv_def scalar_field). Qed.

End NumericFacts.

(** ** [StandardizeAcrossFeatures] *)

Section Standardize.
Context {Sc : Scalar} {SM : Statsmodels} {NC : NeuroCombat}.

Add Field standardize_field : scalar_field.

Lemma nth_weights (counts : list nat) (total b : nat) :
  b < List.length counts ->
  nth b (map (fun c => (of_nat c / of_nat total)%F) counts) zero
  = (of_nat (nth b counts 0) / of_nat total)%F.
Proof.
  intros Hb.
  rewrite (nth_indep _ zero ((fun c => (of_nat c / of_nat total)%F) 0))
    by (rewrite length_map; exact Hb).
  apply (map_nth (fun c => (of_nat c / of_nat total)%F)).
Qed.

(** Lines 148-158 on arrays whose shapes agree: every returned array, entry
    by entry. *)
Lemma standardize_with_Ok (X D B : ndarray F) (info : info_dict_t)
    (s stm vp B' : ndarray F) (g : list F) :
  standardize_with X D B info = Ok (s, stm, vp, B', g) ->
  shape1 B = shape0 X -> shape0 D = shape1 X -> n_sample info = shape1 X ->
  B' = B /\
  shape1 D = shape0 B /\
  List.length (sample_per_batch info) = Nat.min (n_batch info) (shape0 B) /\
  g = weighted_average_of_rows (sample_per_batch info) (n_sample info)
        (List.length (sample_per_batch info)) B /\
  vp = tabulate (shape0 X) 1 (fun f _ => mean_squared_residual X D B f) /\
  stm = stand_mean_spec (n_batch info) X D B g /\
  s = s_data_spec X stm vp.
Proof.
  unfold standardize_with. intros H HB HD Hn.
  apply rbind_Ok in H as (g0 & Hg & H).
  apply rbind_Ok in H as (fitted & Hfit & H).
  apply rbind_Ok in H as (resid & Hres & H).
  apply rbind_Ok in H as (vp0 & Hvp & H).
  apply rbind_Ok in H as (sm0 & Hsm0 & H).
  apply rbind_Ok in H as (cp & Hcp & H).
  apply rbind_Ok in H as (sm1 & Hsm1 & H).
  apply rbind_Ok in H as (centred & Hcen & H).
  apply rbind_Ok in H as (scale & Hscale & H).
  apply rbind_Ok in H as (s0 & Hs & H).
  inversion H; subst s0 sm1 vp0 B' g0; clear H.
  apply np_dot_1d_Ok in Hg as [Hlen Hg].
  rewrite length_map in Hlen, Hg. simpl in Hlen, Hg.
  apply np_dot_Ok in Hfit as [HDB Hfit].
  assert (Hg' : g = weighted_average_of_rows (sample_per_batch info) (n_sample info)
                      (List.length (sample_per_batch info)) B).
  { rewrite Hg. unfold weighted_average_of_rows. apply map_ext_in.
    intros f Hf. apply in_seq in Hf. apply sum_n_ext. intros b Hb.
    rewrite nth_weights by exact Hb.
    unfold rows_upto. rewrite at_tabulate by lia. reflexivity. }
  assert (Hglen : List.length g = shape0 X).
  { rewrite Hg. now rewrite length_map, length_seq. }
  (* the residuals *)
  apply broadcast2_same in Hres;
    [| subst fitted; simpl; congruence | subst fitted; simpl; congruence].
  assert (Hres' : forall f j, f < shape0 X -> j < shape1 X ->
            at_ resid f j = (at_ X f j - fitted_value D B j f)%F).
  { intros f j Hf Hj. rewrite Hres, at_tabulate by assumption.
    rewrite at_transpose by (subst fitted; simpl; lia).
    rewrite Hfit, at_tabulate by lia. reflexivity. }
  (* the pooled variance *)
  apply np_dot_Ok in Hvp as [_ Hvp].
  assert (Hvp' : vp = tabulate (shape0 X) 1 (fun f _ => mean_squared_residual X D B f)).
  { rewrite Hvp. unfold np_square at 1 2. simpl.
    replace (shape0 resid) with (shape0 X) by (now rewrite Hres).
    replace (shape1 resid) with (shape1 X) by (now rewrite Hres).
    apply tabulate_ext. intros f c Hf Hc.
    unfold mean_squared_residual.
    rewrite (sum_n_ext _ _ (fun j => ((at_ X f j - fitted_value D B j f)
                                      * (at_ X f j - fitted_value D B j f)
                                      * (one / of_nat (shape1 X)))%F)).
    - rewrite sum_n_scale, !div_as_mul. ring.
    - intros j Hj. unfold np_square, np_div_scalar, np_ones. simpl.
      replace (shape0 resid) with (shape0 X) by (now rewrite Hres).
      replace (shape1 resid) with (shape1 X) by (now rewrite Hres).
      rewrite !at_tabulate by lia. rewrite !Hres' by assumption.
      rewrite Hn. reflexivity. }
  (* the standardisation mean *)
  apply np_dot_Ok in Hsm0 as [_ Hsm0]. simpl in Hsm0.
  apply np_dot_Ok in Hcp as [_ Hcp]. simpl in Hcp.
  apply np_iadd_same in Hsm1;
    [| subst sm0 cp; simpl; lia | subst sm0 cp; simpl; lia].
  assert (Hstm : stm = stand_mean_spec (n_batch info) X D B g).
  { rewrite Hsm1. unfold stand_mean_spec.
    replace (shape0 sm0) with (shape0 X) by (subst sm0; simpl; lia).
    replace (shape1 sm0) with (shape1 X) by (subst sm0; simpl; lia).
    apply tabulate_ext. intros f j Hf Hj.
    rewrite at_transpose by (subst cp; simpl; lia).
    rewrite Hsm0, Hcp, !at_tabulate by lia.
    unfold reshape_column, np_ones.
    rewrite !at_tabulate by lia.
    unfold covariate_part.
    pose proof (sum_n_zeroed_prefix (n_batch info) (shape1 D)
                  (fun k => at_ D j k) (fun k => at_ B k f)) as E.
    cbv beta in E. rewrite <- E. clear E.
    rewrite (sum_n_ext _ _ (fun k => ((if k <? n_batch info then zero else at_ D j k)
                                      * at_ B k f)%F)).
    - ring.
    - intros k Hk. unfold zero_columns_upto. now rewrite at_tabulate by lia. }
  (* the standardised data *)
  apply broadcast2_same in Hcen;
    [| rewrite Hstm; reflexivity | rewrite Hstm; reflexivity].
  assert (Hvp0 : shape0 vp = shape0 X) by (now rewrite Hvp').
  assert (Hvp1 : shape1 vp = 1) by (now rewrite Hvp').
  apply np_dot_Ok in Hscale as [_ Hscale]. simpl in Hscale.
  rewrite Hvp0, Hvp1 in Hscale.
  apply broadcast2_same in Hs;
    [| subst scale centred; simpl; lia | subst scale centred; simpl; lia].
  assert (Hs' : s = s_data_spec X stm vp).
  { rewrite Hs. unfold s_data_spec.
    replace (shape0 centred) with (shape0 X) by (now rewrite Hcen).
    replace (shape1 centred) with (shape1 X) by (now rewrite Hcen).
    apply tabulate_ext. intros f j Hf Hj.
    rewrite Hcen, Hscale, !at_tabulate by lia.
    rewrite sum_n_one. unfold np_sqrt, np_ones.
    rewrite !at_tabulate by lia.
    f_equal. ring. }
  repeat split; assumption.
Qed.

End Standardize.

Section StandardizeAcrossFeaturesFacts.
Context {Sc : Scalar} {SM : Statsmodels} {NC : NeuroCombat}.

Add Field standardize_facts_field : scalar_field.

Lemma bind_Ok {A B} (m : M A) (k : A -> M B) (w w' : world) (b : B) :
  bind m k w = (Ok b, w') ->
  exists a w1, m w = (Ok a, w1) /\ k a w1 = (Ok b, w').
Proof.
  unfold bind. destruct (m w) as [[a|e] w1]; [eauto | discriminate].
Qed.

Lemma lift_Ok {A} (r : result A) (w w' : world) (a : A) :
  lift r w = (Ok a, w') -> r = Ok a /\ w' = w.
Proof. unfold lift. intros H. inversion H. auto. Qed.

Lemma np_array_equal_true (a b : ndarray F) :
  np_array_equal a b = true ->
  shape a = shape b /\
  forall i j, i < shape0 a -> j < shape1 a -> at_ a i j = at_ b i j.
Proof.
  unfold np_array_equal. intros H.
  apply andb_true_iff in H as [H Hall]. apply andb_true_iff in H as [H0 H1].
  apply Nat.eqb_eq in H0, H1. split; [unfold shape; congruence|].
  intros i j Hi Hj. rewrite forallb_forall in Hall.
  specialize (Hall i). rewrite forallb_forall in Hall.
  apply eqb_eq. apply Hall; apply in_seq; lia.
Qed.

(** What [np.linalg.inv] returns is a two-sided inverse. *)
Lemma np_linalg_inv_Ok (a b : ndarray F) :
  np_linalg_inv a = Ok b ->
  shape0 a = shape1 a /\ shape b = shape a /\
  (forall i j, i < shape0 a -> j < shape0 a ->
     sum_n (shape0 a) (fun k => (at_ a i k * at_ b k j)%F)
     = if i =? j then one else zero) /\
  (forall i j, i < shape0 a -> j < shape0 a ->
     sum_n (shape0 a) (fun k => (at_ b i k * at_ a k j)%F)
     = if i =? j then one else zero).
Proof.
  unfold np_linalg_inv.
  destruct (shape0 a =? shape1 a) eqn:E; simpl; [|discriminate].
  apply Nat.eqb_eq in E.
  destruct (eqb (det (shape0 a) (at_ a)) zero); [discriminate|].
  destruct (is_inverse_of (adjugate_over_det a) a) eqn:Hinv; [|discriminate].
  intros H. injection H as <-.
  assert (Hb0 : shape0 (adjugate_over_det a) = shape0 a) by reflexivity.
  assert (Hb1 : shape1 (adjugate_over_det a) = shape0 a) by reflexivity.
  split; [exact E|]. split; [unfold shape; congruence|].
  unfold is_inverse_of in Hinv.
  destruct (np_dot a (adjugate_over_det a)) as [ab|] eqn:Hab; [|discriminate].
  destruct (np_dot (adjugate_over_det a) a) as [ba|] eqn:Hba; [|discriminate].
  apply andb_true_iff in Hinv as [Hab_eq Hba_eq].
  apply np_array_equal_true in Hab_eq as [_ Hab_eq].
  apply np_array_equal_true in Hba_eq as [_ Hba_eq].
  apply np_dot_Ok in Hab as [_ Hab]. apply np_dot_Ok in Hba as [_ Hba].
  rewrite Hb1 in Hab. rewrite Hb0, Hb1, <- E in Hba. rewrite <- E in Hab.
  split; intros i j Hi Hj.
  - specialize (Hab_eq i j). rewrite Hab in Hab_eq. simpl in Hab_eq.
    rewrite at_tabulate in Hab_eq by lia.
    unfold np_eye in Hab_eq. rewrite at_tabulate in Hab_eq by lia.
    apply Hab_eq; lia.
  - specialize (Hba_eq i j). rewrite Hba in Hba_eq. simpl in Hba_eq.
    rewrite at_tabulate in Hba_eq by lia.
    unfold np_eye in Hba_eq. rewrite at_tabulate in Hba_eq by lia.
    apply Hba_eq; lia.
Qed.

(** The closed form solves the normal equations when [gram_inv] is a right
    inverse of the Gram matrix. *)
Lemma ols_closed_form_normal_equations (gram gram_inv D X : ndarray F) :
  (forall i j, i < shape1 D -> j < shape1 D ->
     sum_n (shape1 D) (fun k => (at_ gram i k * at_ gram_inv k j)%F)
     = if i =? j then one else zero) ->
  normal_equations gram D X (ols_closed_form gram_inv D X).
Proof.
  intros Hinv k f Hk Hf. unfold ols_closed_form.
  transitivity
    (sum_n (shape1 D)
       (fun m => sum_n (shape1 X)
                   (fun j => sum_n (shape1 D)
                               (fun l => (at_ gram k m * at_ gram_inv m l
                                          * (at_ D j l * at_ X f j))%F)))).
  { apply sum_n_ext. intros m Hm. rewrite at_tabulate by lia.
    rewrite <- sum_n_scale_l. apply sum_n_ext. intros j Hj.
    rewrite <- sum_n_scale, <- sum_n_scale_l.
    apply sum_n_ext. intros l Hl. ring. }
  rewrite sum_n_swap. apply sum_n_ext. intros j Hj.
  rewrite sum_n_swap.
  transitivity
    (sum_n (shape1 D)
       (fun l => ((if k =? l then one else zero) * (at_ D j l * at_ X f j))%F)).
  { apply sum_n_ext. intros l Hl. rewrite sum_n_scale. now rewrite Hinv by lia. }
  now rewrite sum_n_identity by lia.
Qed.

(** Line 147, taken apart. *)
Lemma B_hat_linear_Ok (X D B : ndarray F) :
  B_hat_linear X D = Ok B ->
  exists gram gram_inv,
    np_dot (transpose zero D) D = Ok gram /\
    np_linalg_inv gram = Ok gram_inv /\
    B = ols_closed_form gram_inv D X /\
    normal_equations gram D X B /\
    shape0 D = shape1 X /\
    shape B = (shape1 D, shape0 X).
Proof.
  unfold B_hat_linear. intros H.
  apply rbind_Ok in H as (gram & Hgram & H).
  apply rbind_Ok in H as (gram_inv & Hinv & H).
  apply rbind_Ok in H as (pinv & Hpinv & H).
  exists gram, gram_inv. split; [exact Hgram|]. split; [exact Hinv|].
  apply np_linalg_inv_Ok in Hinv as (Hsq & Hshape & Hright & _).
  apply np_dot_Ok in Hgram as [_ Hgram].
  apply np_dot_Ok in Hpinv as [_ Hpinv].
  apply np_dot_Ok in H as [HX HB].
  unfold shape in Hshape. inversion Hshape as [[Hs0 Hs1]].
  assert (G0 : shape0 gram = shape1 D) by (now rewrite Hgram).
  assert (G1 : shape1 gram = shape1 D) by (now rewrite Hgram).
  assert (P0 : shape0 pinv = shape1 D) by (rewrite Hpinv; simpl; congruence).
  assert (P1 : shape1 pinv = shape0 D) by (now rewrite Hpinv).
  simpl in HX. rewrite P1 in HX.
  assert (HBform : B = ols_closed_form gram_inv D X).
  { rewrite HB. unfold ols_closed_form. simpl. rewrite P0, P1, HX.
    apply tabulate_ext. intros k f Hk Hf. apply sum_n_ext. intros j Hj.
    rewrite at_transpose by lia. f_equal.
    rewrite Hpinv, at_tabulate by (simpl; lia).
    rewrite Hs1, G1. apply sum_n_ext. intros m Hm.
    now rewrite at_transpose by lia. }
  split; [exact HBform|]. split; [|split].
  - rewrite HBform. apply ols_closed_form_normal_equations.
    rewrite G0 in Hright. exact Hright.
  - exact HX.
  - rewrite HB. unfold shape. simpl. now rewrite P0.
Qed.

Lemma gam_fit_feature_shape (X : ndarray F) sm alpha df B i df' B' :
  gam_fit_feature X sm alpha (df, B) i = Ok (df', B') -> shape B' = shape B.
Proof.
  unfold gam_fit_feature. intros H.
  repeat (apply rbind_Ok in H as (? & ? & H)).
  inversion H; subst. eapply set_column_shape. eassumption.
Qed.

Lemma rfold_gam_fit_shape (X : ndarray F) sm alpha (l : list nat) :
  forall df B df' B',
    rfold (gam_fit_feature X sm alpha) (df, B) l = Ok (df', B') ->
    shape B' = shape B.
Proof.
  induction l as [|i l IH]; simpl; intros df B df' B' H.
  - now inversion H.
  - apply rbind_Ok in H as ([df1 B1] & H1 & H).
    apply gam_fit_feature_shape in H1. apply IH in H. congruence.
Qed.

Lemma B_hat_smoothing_Ok (X : ndarray F) sm w w' D B :
  B_hat_smoothing X sm w = (Ok (D, B), w') ->
  smooth_design sm = Some D /\ shape B = (shape1 D, shape0 X).
Proof.
  unfold B_hat_smoothing. intros H.
  apply bind_Ok in H as (u & w1 & _ & H).
  apply lift_Ok in H as [H _].
  apply rbind_Ok in H as (D0 & HD & H).
  apply rbind_Ok in H as ([df' B'] & Hfold & H).
  inversion H; subst. simpl.
  destruct (smooth_design sm) as [D1|]; simpl in HD; [|discriminate].
  inversion HD; subst. split; [reflexivity|].
  apply rfold_gam_fit_shape in Hfold. exact Hfold.
Qed.

(** What a successful call of [StandardizeAcrossFeatures] went through. *)
Lemma StandardizeAcrossFeatures_Ok (X design : ndarray F) info sm w w'
    (s stm vp B : ndarray F) (g : list F) :
  StandardizeAcrossFeatures X design info sm w = (Ok (s, stm, vp, B, g), w') ->
  exists D,
    design_in_use design sm = Some D /\
    shape1 B = shape0 X /\
    standardize_with X D B info = Ok (s, stm, vp, B, g) /\
    (perform_smoothing sm = false -> B_hat_linear X design = Ok B /\ w' = w).
Proof.
  unfold StandardizeAcrossFeatures, design_in_use. intros H.
  apply bind_Ok in H as ([D B0] & w1 & Hdb & H).
  apply lift_Ok in H as [H ->]. simpl in H.
  assert (HB0 : B0 = B).
  { unfold standardize_with in H.
    repeat (apply rbind_Ok in H as (? & ? & H)). now inversion H. }
  subst B0. exists D.
  destruct (perform_smoothing sm).
  - apply B_hat_smoothing_Ok in Hdb as [HD HB].
    unfold shape in HB. injection HB as HB0 HB1.
    split; [exact HD|]. split; [assumption|].
    split; [exact H|]. discriminate.
  - apply bind_Ok in Hdb as (B1 & w2 & HB1 & Hret).
    apply lift_Ok in HB1 as [HB1 ->].
    unfold ret in Hret. inversion Hret; subst.
    pose proof (B_hat_linear_Ok _ _ _ HB1) as (? & ? & _ & _ & _ & _ & _ & Hsh).
    unfold shape in Hsh. injection Hsh as Hsh0 Hsh1.
    split; [reflexivity|]. split; [assumption|].
    split; [exact H|]. intros _. split; [exact HB1 | reflexivity].
Qed.

End StandardizeAcrossFeaturesFacts.

(** ** [harmonizationLearn]: the shape of the harmonized data *)

Section Shape.
Context {Sc : Scalar} {SM : Statsmodels} {NC : NeuroCombat}.

Lemma broadcast2_shape (op : F -> F -> F) (a b m : ndarray F) :
  broadcast2 op a b = Ok m ->
  bdim (shape0 a) (shape0 b) = Some (shape0 m) /\
  bdim (shape1 a) (shape1 b) = Some (shape1 m).
Proof.
  unfold broadcast2.
  destruct (bdim (shape0 a) (shape0 b)) as [r|]; [|discriminate].
  destruct (bdim (shape1 a) (shape1 b)) as [c|]; [|discriminate].
  intros H. inversion H. auto.
Qed.

(** The standardized data have the shape of [X] whatever the design. *)
Lemma standardize_with_shape (X D B : ndarray F) (info : info_dict_t)
    (s stm vp B' : ndarray F) (g : list F) :
  standardize_with X D B info = Ok (s, stm, vp, B', g) ->
  shape1 B = shape0 X -> n_sample info = shape1 X ->
  shape s = shape X.
Proof.
  unfold standardize_with. intros H HB Hn.
  apply rbind_Ok in H as (g0 & Hg & H).
  apply rbind_Ok in H as (fitted & Hfit & H).
  apply rbind_Ok in H as (resid & Hres & H).
  apply rbind_Ok in H as (vp0 & Hvp & H).
  apply rbind_Ok in H as (sm0 & Hsm0 & H).
  apply rbind_Ok in H as (cp & Hcp & H).
  apply rbind_Ok in H as (sm1 & Hsm1 & H).
  apply rbind_Ok in H as (centred & Hcen & H).
  apply rbind_Ok in H as (scale & Hscale & H).
  apply rbind_Ok in H as (s0 & Hs & H).
  inversion H; subst s0 sm1 vp0 B' g0; clear H.
  apply np_dot_1d_Ok in Hg as [_ Hg].
  assert (Hglen : List.length g = shape0 X).
  { rewrite Hg, length_map, length_seq. exact HB. }
  apply np_dot_Ok in Hfit as [_ Hfit].
  apply broadcast2_shape in Hres as [Hres0 _].
  rewrite Hfit in Hres0. simpl in Hres0. rewrite HB, bdim_same in Hres0.
  apply np_dot_Ok in Hvp as [_ Hvp].
  apply np_dot_Ok in Hsm0 as [_ Hsm0].
  apply np_iadd_Ok in Hsm1. unfold shape in Hsm1. injection Hsm1 as Hstm0 Hstm1.
  rewrite Hsm0 in Hstm0, Hstm1. simpl in Hstm0, Hstm1.
  apply broadcast2_shape in Hcen as [Hcen0 Hcen1].
  rewrite Hstm0, Hglen, bdim_same in Hcen0.
  rewrite Hstm1, Hn, bdim_same in Hcen1.
  apply np_dot_Ok in Hscale as [_ Hscale].
  apply broadcast2_shape in Hs as [Hs0 Hs1].
  rewrite Hscale in Hs0, Hs1. simpl in Hs0, Hs1.
  rewrite Hvp in Hs0. simpl in Hs0.
  injection Hres0 as Hres0. injection Hcen0 as Hcen0. injection Hcen1 as Hcen1.
  rewrite <- Hres0, <- Hcen0, bdim_same in Hs0.
  rewrite <- Hcen1, Hn, bdim_same in Hs1.
  unfold shape. congruence.
Qed.

(** What a successful [prepare] went through. *)
Lemma prepare_Ok (covars : DataFrame) (st : list string) (p : prepared_t) :
  prepare covars st = Ok p ->
  exists batch_col num_cols smooth_cols site codes covars' design,
    columns_get_loc (columns covars) "SITE" = Ok batch_col /\
    rmap (columns_get_loc (columns covars))
      (List.filter (fun c => negb (String.eqb c "SITE")) (columns covars)) = Ok num_cols /\
    rmap (columns_get_loc (columns covars))
      (List.filter (fun c => str_in c st) (columns covars)) = Ok smooth_cols /\
    column (PyInt 0) (values covars) batch_col = Ok site /\
    np_unique_inverse site = Ok codes /\
    set_column (PyInt 0) (values covars) batch_col
      (map (fun c => PyInt (Z.of_nat c)) codes) = Ok covars' /\
    make_design_matrix covars' batch_col [] num_cols = Ok design /\
    p_design p = design /\
    p_info_dict p =
      mk_info_dict (np_unique Nat.leb codes)
        (List.length (np_unique Nat.leb codes)) (shape0 covars')
        (unique_counts Nat.leb codes)
        (map (fun idx => List.filter (fun i => nth i codes 0 =? idx)
                           (seq 0 (List.length codes)))
           (np_unique Nat.leb codes)) /\
    (if 0 <? List.length st
     then smoothing_setup covars' design (np_unique Nat.leb codes) num_cols
            (mk_smooth_model true st smooth_cols None None None None)
          = Ok (p_smooth_model p)
     else p_smooth_model p
          = mk_smooth_model false st smooth_cols None None None None).
Proof.
  unfold prepare. intros H.
  apply rbind_Ok in H as (batch_col & H1 & H).
  apply rbind_Ok in H as (num_cols & H2 & H).
  apply rbind_Ok in H as (smooth_cols & H3 & H).
  apply rbind_Ok in H as (site & H4 & H).
  apply rbind_Ok in H as (codes & H5 & H).
  apply rbind_Ok in H as (covars' & H6 & H).
  apply rbind_Ok in H as (design & H7 & H).
  apply rbind_Ok in H as (sm & H8 & H).
  inversion H; subst p; clear H. simpl in *.
  exists batch_col, num_cols, smooth_cols, site, codes, covars', design.
  repeat (split; [assumption || reflexivity|]).
  destruct (0 <? List.length st); [exact H8 | now inversion H8].
Qed.

(** C1. For a data matrix with one row per row of the covariate table,
    the harmonized matrix that [harmonizationLearn] returns has the shape
    of the data, samples x features: the data are transposed to features x
    samples, which is the shape of the standardized data kept in the
    model, every step keeps that shape, and the result is transposed
    back. *)
Theorem harmonizationLearn_shape (data : ndarray F) (covars : DataFrame)
    (st : list string) (w w' : world) (model : list (string * pyobj))
    (bayes_data : ndarray F) :
  shape0 data = shape0 (values covars) ->
  harmonizationLearn data covars st w = (Ok (model, bayes_data), w') ->
  shape bayes_data = shape data /\
  exists s_data,
    dict_get "s_data" model = Ok (Array2 s_data) /\
    shape s_data = (shape1 data, shape0 data).
Proof.
  intros Hrows H. unfold harmonizationLearn in H.
  apply bind_Ok in H as (p & w1 & Hp & H).
  apply lift_Ok in Hp as [Hp ->].
  apply bind_Ok in H as ([[[[s stm] vp] B] g] & w2 & Hstd & H).
  apply bind_Ok in H as (LS & w3 & _ & H).
  apply bind_Ok in H as ([gamma delta] & w4 & _ & H).
  unfold ret in H. inversion H; subst; clear H.
  apply StandardizeAcrossFeatures_Ok in Hstd as (D & _ & HB & Hstd & _).
  apply standardize_with_shape in Hstd.
  - unfold shape in *. simpl in *. injection Hstd as Hs0 Hs1.
    split; [congruence|]. exists s. split; [reflexivity | congruence].
  - exact HB.
  - apply prepare_Ok in Hp
      as (bc & nc & sc & site & codes & covars' & design & _ & _ & _ & _ & _
          & Hset & _ & _ & Hinfo & _).
    rewrite Hinfo. simpl. apply set_column_shape in Hset.
    unfold shape in Hset. injection Hset as Hset0 _. congruence.
Qed.

End Shape.

(** ** The estimates of [StandardizeAcrossFeatures] *)

Section Estimates.
Context {Sc : Scalar} {SM : Statsmodels} {NC : NeuroCombat}.

(** C2. When smoothing is inactive, [B_hat] is the least-squares closed
    form [(design^T design)^(-1) design^T X^T]: the Gram matrix is inverted
    once and every feature is multiplied with that same inverse, so that
    [B_hat] solves the normal equations [(design^T design) B_hat =
    design^T X^T] of all features at once; it has one row per design
    column and one column per feature. *)
Theorem StandardizeAcrossFeatures_B_hat_closed_form (X design : ndarray F)
    (info : info_dict_t) (sm : smooth_model_t) (w w' : world)
    (s stm vp B : ndarray F) (g : list F) :
  perform_smoothing sm = false ->
  StandardizeAcrossFeatures X design info sm w = (Ok (s, stm, vp, B, g), w') ->
  exists gram gram_inv,
    np_dot (transpose zero design) design = Ok gram /\
    np_linalg_inv gram = Ok gram_inv /\
    B = ols_closed_form gram_inv design X /\
    normal_equations gram design X B /\
    shape B = (shape1 design, shape0 X).
Proof.
  intros Hsm H.
  apply StandardizeAcrossFeatures_Ok in H as (D & _ & _ & _ & Hlin).
  destruct (Hlin Hsm) as [HB _].
  apply B_hat_linear_Ok in HB as (gram & gram_inv & H1 & H2 & H3 & H4 & _ & H5).
  exists gram, gram_inv. auto.
Qed.

(** The linear estimate exists as soon as the samples of [X] and of the
    design agree in number and the Gram matrix has an inverse. *)
Lemma B_hat_linear_defined (X design gram gram_inv : ndarray F) :
  shape0 design = shape1 X ->
  np_dot (transpose zero design) design = Ok gram ->
  np_linalg_inv gram = Ok gram_inv ->
  exists B, B_hat_linear X design = Ok B.
Proof.
  intros HX Hgram Hgi. unfold B_hat_linear. rewrite Hgram. simpl.
  apply np_dot_Ok in Hgram as [_ Hgram].
  rewrite Hgi. simpl.
  apply np_linalg_inv_Ok in Hgi as (_ & Hsh & _ & _).
  unfold shape in Hsh. injection Hsh as Hs0 Hs1.
  destruct (np_dot_defined gram_inv (transpose zero design)) as [pinv Hpinv].
  { rewrite Hs1, Hgram. reflexivity. }
  rewrite Hpinv. simpl. apply np_dot_defined.
  apply np_dot_Ok in Hpinv as [_ ->]. simpl. exact HX.
Qed.

Lemma np_dot_eq (a b : ndarray F) :
  shape1 a = shape0 b ->
  np_dot a b
  = Ok (tabulate (shape0 a) (shape1 b)
          (fun i j => sum_n (shape1 a) (fun k => (at_ a i k * at_ b k j)%F))).
Proof. intros E. unfold np_dot. apply Nat.eqb_eq in E. now rewrite E. Qed.

Lemma broadcast2_defined (op : F -> F -> F) (a b : ndarray F) :
  shape0 b = shape0 a -> shape1 b = shape1 a ->
  exists m, broadcast2 op a b = Ok m /\ shape m = shape a.
Proof.
  intros E0 E1. unfold broadcast2. rewrite E0, E1, !bdim_same. eauto.
Qed.

Lemma np_iadd_defined (a b : ndarray F) :
  shape0 b = shape0 a -> shape1 b = shape1 a ->
  exists m, np_iadd a b = Ok m /\ shape m = shape a.
Proof.
  intros E0 E1. unfold np_iadd. rewrite E0, E1, !bdim_same, !Nat.eqb_refl.
  simpl. eauto.
Qed.

(** Lines 148-158 raise nothing on arrays whose shapes agree. *)
Lemma standardize_with_defined (X D B : ndarray F) (info : info_dict_t) :
  shape1 B = shape0 X -> shape0 B = shape1 D -> shape0 D = shape1 X ->
  n_sample info = shape1 X ->
  List.length (sample_per_batch info) = n_batch info ->
  n_batch info <= shape1 D ->
  exists r, standardize_with X D B info = Ok r.
Proof.
  intros HB1 HB0 HD Hn Hlen Hnb. unfold standardize_with.
  unfold np_dot_1d. rewrite length_map. simpl shape0.
  replace (List.length (sample_per_batch info)
           =? Nat.min (n_batch info) (shape0 B)) with true
    by (symmetry; apply Nat.eqb_eq; lia).
  simpl rbind.
  rewrite (np_dot_eq D B) by congruence. simpl rbind.
  destruct (broadcast2_defined sub X
              (transpose zero
                 (tabulate (shape0 D) (shape1 B)
                    (fun i j => sum_n (shape1 D)
                                  (fun k => (at_ D i k * at_ B k j)%F)))))
    as (resid & Hres & Hres_shape); [simpl; congruence | simpl; congruence |].
  unfold np_sub at 1. rewrite Hres. simpl rbind.
  unfold shape in Hres_shape. injection Hres_shape as Hr0 Hr1.
  repeat (rewrite np_dot_eq by (simpl; congruence); simpl rbind).
  match goal with
  | |- context [np_iadd ?a ?b] =>
      destruct (np_iadd_defined a b) as (stm & Hstm & Hstm_shape);
        [simpl; rewrite length_map, length_seq; simpl; congruence
        | simpl; congruence |];
      rewrite Hstm; simpl rbind
  end.
  unfold shape in Hstm_shape. simpl in Hstm_shape.
  rewrite length_map, length_seq in Hstm_shape. simpl in Hstm_shape.
  injection Hstm_shape as Hs0 Hs1.
  destruct (broadcast2_defined sub X stm) as (centred & Hcen & Hcen_shape);
    [congruence | congruence |].
  unfold np_sub. rewrite Hcen. simpl rbind.
  unfold shape in Hcen_shape. injection Hcen_shape as Hc0 Hc1.
  repeat (rewrite np_dot_eq by (simpl; congruence); simpl rbind).
  match goal with
  | |- context [np_div ?a ?b] =>
      destruct (broadcast2_defined div a b) as (s & Hs & _);
        [simpl; congruence | simpl; congruence |];
      unfold np_div; rewrite Hs; simpl rbind
  end.
  eauto.
Qed.

(** The linear path returns as soon as the shapes agree and the Gram matrix
    has an inverse. *)
Lemma StandardizeAcrossFeatures_linear_defined (X design gram gram_inv : ndarray F)
    (info : info_dict_t) (sm : smooth_model_t) (w : world) :
  perform_smoothing sm = false ->
  shape0 design = shape1 X ->
  n_sample info = shape1 X ->
  List.length (sample_per_batch info) = n_batch info ->
  n_batch info <= shape1 design ->
  np_dot (transpose zero design) design = Ok gram ->
  np_linalg_inv gram = Ok gram_inv ->
  exists r, StandardizeAcrossFeatures X design info sm w = (Ok r, w).
Proof.
  intros Hsm HD Hn Hlen Hnb Hgram Hgi.
  destruct (B_hat_linear_defined X design gram gram_inv HD Hgram Hgi) as [B HB].
  pose proof (B_hat_linear_Ok _ _ _ HB) as (? & ? & _ & _ & _ & _ & _ & Hsh).
  unfold shape in Hsh. injection Hsh as Hsh0 Hsh1.
  destruct (standardize_with_defined X design B info) as [r Hr]; try assumption.
  exists r. unfold StandardizeAcrossFeatures, bind, lift, ret.
  rewrite Hsm, HB. simpl. now rewrite Hr.
Qed.

(** C3. The standardization mean of feature [f] at sample [j] is the grand
    mean of [f] plus the part of [design . B_hat] that comes from the
    columns after the site indicators, and the standardized data are
    [(X - stand_mean) / sqrt(var_pooled)], feature by feature. *)
Theorem StandardizeAcrossFeatures_stand_mean_s_data (X design D : ndarray F)
    (info : info_dict_t) (sm : smooth_model_t) (w w' : world)
    (s stm vp B : ndarray F) (g : list F) :
  design_in_use design sm = Some D ->
  shape0 D = shape1 X ->
  n_sample info = shape1 X ->
  StandardizeAcrossFeatures X design info sm w = (Ok (s, stm, vp, B, g), w') ->
  stm = stand_mean_spec (n_batch info) X D B g /\
  s = s_data_spec X stm vp.
Proof.
  intros HD HDX Hn H.
  apply StandardizeAcrossFeatures_Ok in H as (D' & HD' & HB & H & _).
  rewrite HD in HD'. injection HD' as <-.
  apply standardize_with_Ok in H; try assumption.
  destruct H as (_ & _ & _ & _ & _ & Hstm & Hs). auto.
Qed.

(** C4. The pooled variance of a feature is the mean of its squared
    residuals [X - design . B_hat] over the samples: the sum is divided by
    the number of samples [N], not by [N - 1]. *)
Theorem StandardizeAcrossFeatures_var_pooled (X design D : ndarray F)
    (info : info_dict_t) (sm : smooth_model_t) (w w' : world)
    (s stm vp B : ndarray F) (g : list F) :
  design_in_use design sm = Some D ->
  shape0 D = shape1 X ->
  n_sample info = shape1 X ->
  StandardizeAcrossFeatures X design info sm w = (Ok (s, stm, vp, B, g), w') ->
  vp = tabulate (shape0 X) 1 (fun f _ => mean_squared_residual X D B f).
Proof.
  intros HD HDX Hn H.
  apply StandardizeAcrossFeatures_Ok in H as (D' & HD' & HB & H & _).
  rewrite HD in HD'. injection HD' as <-.
  apply standardize_with_Ok in H; try assumption.
  destruct H as (_ & _ & _ & _ & Hvp & _). exact Hvp.
Qed.

Lemma standardize_with_grand_mean (X D B : ndarray F) (info : info_dict_t)
    (s stm vp B' : ndarray F) (g : list F) :
  standardize_with X D B info = Ok (s, stm, vp, B', g) ->
  List.length (sample_per_batch info) = Nat.min (n_batch info) (shape0 B) /\
  g = weighted_average_of_rows (sample_per_batch info) (n_sample info)
        (List.length (sample_per_batch info)) B.
Proof.
  unfold standardize_with. intros H.
  apply rbind_Ok in H as (g0 & Hg & H).
  repeat (apply rbind_Ok in H as (? & ? & H)).
  inversion H; subst; clear H.
  apply np_dot_1d_Ok in Hg as [Hlen Hg].
  rewrite length_map in Hlen, Hg. simpl in Hlen, Hg. split; [exact Hlen|].
  rewrite Hg. unfold weighted_average_of_rows. apply map_ext_in.
  intros f Hf. apply in_seq in Hf. apply sum_n_ext. intros b Hb.
  rewrite nth_weights by exact Hb.
  unfold rows_upto. rewrite at_tabulate by lia. reflexivity.
Qed.

(** C5, as amended. The grand mean of a feature is the weighted average of
    the first [n_batch] rows of [B_hat], the coefficients of the site
    indicators, each site weighted by its share of the samples. *)
Theorem StandardizeAcrossFeatures_grand_mean (X design : ndarray F)
    (info : info_dict_t) (sm : smooth_model_t) (w w' : world)
    (s stm vp B : ndarray F) (g : list F) :
  List.length (sample_per_batch info) = n_batch info ->
  StandardizeAcrossFeatures X design info sm w = (Ok (s, stm, vp, B, g), w') ->
  n_batch info <= shape0 B /\
  g = weighted_average_of_rows (sample_per_batch info) (n_sample info)
        (n_batch info) B.
Proof.
  intros Hlen H.
  apply StandardizeAcrossFeatures_Ok in H as (D & _ & _ & H & _).
  apply standardize_with_grand_mean in H as [Hmin Hg].
  rewrite Hlen in Hmin, Hg. split; [lia | exact Hg].
Qed.

End Estimates.

(** ** A missing SITE column *)

Section MissingSite.
Context {Sc : Scalar} {SM : Statsmodels} {NC : NeuroCombat}.

Lemma get_loc_None (cols : list string) (c : string) :
  ~ In c cols -> get_loc cols c = None.
Proof.
  induction cols as [|c' cols IH]; simpl; intros Hc; [reflexivity|].
  destruct (String.eqb_spec c' c) as [->|Hne]; [tauto|].
  rewrite IH by tauto. reflexivity.
Qed.

(** C8. Without a column named SITE, [harmonizationLearn] stops with the
    lookup error of that label: whatever the data, the smooth terms and the
    estimation routines are, nothing is estimated and nothing is printed or
    written. *)
Theorem harmonizationLearn_missing_SITE (data : ndarray F) (covars : DataFrame)
    (st : list string) (w : world) :
  ~ In "SITE" (columns covars) ->
  harmonizationLearn data covars st w = (Err (KeyError "SITE"), w).
Proof.
  intros Hc. unfold harmonizationLearn, bind, lift, prepare, columns_get_loc.
  rewrite (get_loc_None _ _ Hc). reflexivity.
Qed.

End MissingSite.

(** ** [saveHarmonizationModel] *)

Section Save.
Context {Sc : Scalar}.

Lemma os_makedirs_present (p : string) (w w' : world) :
  os_makedirs p w = (Ok tt, w') -> folder_present p w'.
Proof.
  unfold os_makedirs, folder_present.
  destruct (fs w !! p); [discriminate|].
  destruct (String.eqb p ""); [discriminate|].
  destruct (existsb _ _); [discriminate|].
  intros H. inversion H; subst; clear H. simpl.
  rewrite lookup_insert_eq. eauto.
Qed.

Lemma np_save_present (p path : string) (obj : pyobj) (w w' : world) r :
  np_save path obj w = (r, w') -> folder_present p w -> folder_present p w'.
Proof.
  unfold np_save, folder_present. intros H Hp.
  assert (Hins : is_Some (<[path := File obj]> (fs w) !! p)).
  { destruct (decide (path = p)) as [->|Hne].
    - rewrite lookup_insert_eq. eauto.
    - now rewrite lookup_insert_ne. }
  destruct (fs w !! path) as [[|c]|].
  - inversion H; subst. exact Hp.
  - destruct (if String.eqb (dirname path) "" then Some Dir
              else fs w !! dirname path) as [[|c']|];
      inversion H; subst; simpl; assumption.
  - destruct (if String.eqb (dirname path) "" then Some Dir
              else fs w !! dirname path) as [[|c']|];
      inversion H; subst; simpl; assumption.
Qed.

Lemma save_object_present (p : string) model fldr_name u key (w w' : world) r :
  save_object model fldr_name u key w = (r, w') ->
  folder_present p w -> folder_present p w'.
Proof.
  unfold save_object. destruct (negb (str_in key do_not_save)).
  - unfold bind, lift, print.
    destruct (dict_get key model) as [obj|e];
      [|intros H Hp; inversion H; subst; exact Hp].
    destruct (nbytes obj) as [n|e];
      [|intros H Hp; inversion H; subst; exact Hp].
    simpl. intros H Hp. eapply np_save_present; [exact H|]. exact Hp.
  - unfold ret. intros H Hp. inversion H; subst. exact Hp.
Qed.

Lemma mfold_present (p : string) model fldr_name (keys : list string) :
  forall u (w w' : world) r,
    mfold (save_object model fldr_name) u keys w = (r, w') ->
    folder_present p w -> folder_present p w'.
Proof.
  induction keys as [|key keys IH]; simpl; intros u w w' r H Hp.
  - unfold ret in H. inversion H; subst. exact Hp.
  - unfold bind in H.
    destruct (save_object model fldr_name u key w) as [[u'|e] w1] eqn:E.
    + eapply IH; [exact H|]. eapply save_object_present; eassumption.
    + inversion H; subst. eapply save_object_present; eassumption.
Qed.

Lemma saveHarmonizationModel_present model fldr_name (w w' : world) :
  saveHarmonizationModel model fldr_name w = (Ok tt, w') ->
  folder_present fldr_name w'.
Proof.
  unfold saveHarmonizationModel. intros H.
  apply bind_Ok in H as (found & w1 & Hfound & H).
  apply bind_Ok in H as (u & w2 & Hmk & H).
  apply bind_Ok in H as (u' & w3 & Hfold & H).
  unfold ret in H. inversion H; subst; clear H.
  eapply mfold_present; [exact Hfold|].
  unfold os_path_exists in Hfound. inversion Hfound; subst; clear Hfound.
  destruct (fs w1 !! fldr_name) eqn:E.
  - unfold raise in Hmk. discriminate.
  - destruct u. eapply os_makedirs_present. exact Hmk.
Qed.

(** C7. When the target folder exists, be it from before or from an earlier
    successful save under the same name, [saveHarmonizationModel] fails
    with the error that names the folder, and the files and the console
    are as they were: nothing is written before the failure and the first
    call's files are untouched. *)
Theorem saveHarmonizationModel_existing_folder (model : list (string * pyobj))
    (fldr_name : string) (w : world) :
  folder_present fldr_name w \/
  (exists w0, saveHarmonizationModel model fldr_name w0 = (Ok tt, w)) ->
  saveHarmonizationModel model fldr_name w
  = (Err (ValueError ("Model folder already exists: " +:+ fldr_name
                      +:+ " Change name or delete to save.")), w).
Proof.
  intros H.
  assert (Hp : folder_present fldr_name w).
  { destruct H as [H | [w0 H]]; [exact H|].
    eapply saveHarmonizationModel_present. exact H. }
  destruct Hp as [n Hn].
  unfold saveHarmonizationModel, bind, os_path_exists. rewrite Hn. reflexivity.
Qed.

End Save.

(** ** Strings *)

Lemma append_cons (x : ascii) (a b : string) :
  String x a +:+ b = String x (a +:+ b).
Proof. reflexivity. Qed.

Lemma append_empty_l (b : string) : EmptyString +:+ b = b.
Proof. reflexivity. Qed.

Lemma append_assoc (a b c : string) : (a +:+ b) +:+ c = a +:+ (b +:+ c).
Proof.
  induction a as [|x a IH]; [reflexivity|].
  now rewrite !append_cons, IH.
Qed.

Lemma append_empty_r (a : string) : a +:+ EmptyString = a.
Proof.
  induction a as [|x a IH]; [reflexivity|]. now rewrite append_cons, IH.
Qed.

Lemma length_append (a b : string) :
  String.length (a +:+ b) = String.length a + String.length b.
Proof.
  induction a as [|x a IH]; [reflexivity|].
  rewrite append_cons. simpl. now rewrite IH.
Qed.

Lemma substring_prefix (a b : string) :
  substring 0 (String.length a) (a +:+ b) = a.
Proof.
  induction a as [|x a IH].
  - rewrite append_empty_l. destruct b; reflexivity.
  - rewrite append_cons. simpl. now rewrite IH.
Qed.

(** [formula[:-2]] cuts the ["+ "] that the last term left. *)
Lemma strip_plus (a : string) :
  substring 0 (String.length (a +:+ " + ") - 2) (a +:+ " + ") = a +:+ " ".
Proof.
  assert (E : a +:+ " + " = (a +:+ " ") +:+ "+ ")
    by (rewrite append_assoc; reflexivity).
  rewrite E, length_append.
  change (String.length "+ ") with 2.
  replace (String.length (a +:+ " ") + 2 - 2) with (String.length (a +:+ " ")) by lia.
  apply substring_prefix.
Qed.

Lemma str_inj (n m : nat) : str n = str m -> n = m.
Proof.
  unfold str. intros H. apply DecimalNat.Unsigned.to_uint_inj.
  apply (f_equal NilEmpty.uint_of_string) in H.
  rewrite !NilEmpty.usu in H. now inversion H.
Qed.

Lemma terms_with_plus_app (l1 l2 : list string) :
  terms_with_plus (l1 ++ l2) = terms_with_plus l1 +:+ terms_with_plus l2.
Proof.
  induction l1 as [|t l1 IH]; [reflexivity|].
  change (terms_with_plus ((t :: l1) ++ l2))
    with (t +:+ " + " +:+ terms_with_plus (l1 ++ l2)).
  change (terms_with_plus (t :: l1)) with (t +:+ " + " +:+ terms_with_plus l1).
  now rewrite IH, !append_assoc.
Qed.

Lemma terms_with_plus_concat (t : string) (l : list string) :
  terms_with_plus (t :: l) = String.concat " + " (t :: l) +:+ " + ".
Proof.
  revert t. induction l as [|t' l IH]; intros t.
  - reflexivity.
  - change (terms_with_plus (t :: t' :: l))
      with (t +:+ " + " +:+ terms_with_plus (t' :: l)).
    rewrite IH.
    change (String.concat " + " (t :: t' :: l))
      with (t +:+ " + " +:+ String.concat " + " (t' :: l)).
    now rewrite !append_assoc.
Qed.

(** The formula that lines 77-86 build from a non-empty list of terms. *)
Lemma formula_of_terms (t : string) (l : list string) :
  let acc := "y ~ " +:+ terms_with_plus (t :: l) in
  substring 0 (String.length acc - 2) acc +:+ "- 1" = formula_spec (t :: l).
Proof.
  cbv zeta. rewrite terms_with_plus_concat, <- append_assoc, strip_plus.
  unfold formula_spec. now rewrite !append_assoc.
Qed.

(** ** Column positions *)

Lemma filter_map_S (f : nat -> bool) (l : list nat) :
  List.filter f (map S l) = map S (List.filter (fun i => f (S i)) l).
Proof.
  induction l as [|x l IH]; simpl; [reflexivity|].
  destruct (f (S x)); simpl; now rewrite IH.
Qed.

Lemma filter_twice {A} (f g : A -> bool) (l : list A) :
  List.filter f (List.filter g l) = List.filter (fun x => g x && f x) l.
Proof.
  induction l as [|x l IH]; simpl; [reflexivity|].
  destruct (g x); simpl; [destruct (f x); now rewrite IH | exact IH].
Qed.

Lemma NoDup_map_inj {A B} (f : A -> B) (l : list A) :
  (forall x y, f x = f y -> x = y) -> List.NoDup l -> List.NoDup (map f l).
Proof.
  intros Hinj. induction 1 as [|x l Hx Hnd IH]; simpl; constructor.
  - intros Hin. apply in_map_iff in Hin as (y & Hy & Hyl).
    apply Hinj in Hy. subst. contradiction.
  - exact IH.
Qed.

Lemma nat_in_In (c : nat) (l : list nat) : nat_in c l = true <-> In c l.
Proof.
  unfold nat_in. rewrite existsb_exists. split.
  - intros (x & Hx & E). apply Nat.eqb_eq in E. now subst.
  - intros H. exists c. split; [exact H | apply Nat.eqb_refl].
Qed.

Section GetLoc.
Context {Sc : Scalar}.

Lemma columns_get_loc_cons (c0 c : string) (cols : list string) (i : nat) :
  c <> c0 -> columns_get_loc cols c = Ok i ->
  columns_get_loc (c0 :: cols) c = Ok (S i).
Proof.
  unfold columns_get_loc. simpl. intros Hne H.
  destruct (String.eqb_spec c0 c) as [E|_]; [congruence|].
  destruct (get_loc cols c) as [k|]; [|discriminate].
  inversion H; subst. reflexivity.
Qed.

Lemma rmap_get_loc_cons (c0 : string) (cols l : list string) (r : list nat) :
  (forall c, In c l -> c <> c0) ->
  rmap (columns_get_loc cols) l = Ok r ->
  rmap (columns_get_loc (c0 :: cols)) l = Ok (map S r).
Proof.
  revert r. induction l as [|c l IH]; simpl; intros r Hne H.
  - now inversion H.
  - apply rbind_Ok in H as (i & Hi & H). apply rbind_Ok in H as (r' & Hr' & H).
    inversion H; subst; clear H.
    rewrite (columns_get_loc_cons c0 c cols i) by (auto; apply Hne; now left).
    simpl. rewrite (IH r') by (auto; intros; apply Hne; now right). reflexivity.
Qed.

(** For distinct labels, the positions that the list comprehensions of
    lines 44-45 collect are the positions of the labels kept. *)
Lemma rmap_get_loc_positions (P : string -> bool) (cols : list string) :
  List.NoDup cols ->
  rmap (columns_get_loc cols) (List.filter P cols) = Ok (column_positions P cols).
Proof.
  induction 1 as [|c0 cols Hc0 Hnd IH]; [reflexivity|].
  unfold column_positions. simpl List.length. simpl seq.
  rewrite <- seq_shift. simpl List.filter at 2.
  rewrite filter_map_S. simpl.
  assert (Hrest : rmap (columns_get_loc (c0 :: cols)) (List.filter P cols)
                  = Ok (map S (column_positions P cols))).
  { apply rmap_get_loc_cons; [|exact IH].
    intros c Hc ->. apply filter_In in Hc as [Hc _]. contradiction. }
  destruct (P c0); simpl.
  - unfold columns_get_loc at 1. simpl. rewrite String.eqb_refl. simpl.
    rewrite Hrest. reflexivity.
  - exact Hrest.
Qed.

(** The columns that get a linear term in the formula. *)
Lemma linear_columns (cols st : list string) :
  List.filter (fun c => negb (nat_in c (column_positions (fun c => str_in c st) cols)))
    (column_positions (fun c => negb (String.eqb c "SITE")) cols)
  = linear_covariate_positions cols st.
Proof.
  unfold linear_covariate_positions, column_positions.
  rewrite filter_twice. apply filter_ext_in. intros i Hi.
  f_equal. f_equal.
  destruct (str_in (nth i cols EmptyString) st) eqn:E.
  - apply nat_in_In. apply filter_In. split; assumption.
  - destruct (nat_in i _) eqn:E'; [|reflexivity].
    apply nat_in_In in E'. apply filter_In in E' as [_ E']. congruence.
Qed.

End GetLoc.

(** ** The smoothing setup *)

Section Smoothing.
Context {Sc : Scalar} {SM : Statsmodels} {NC : NeuroCombat}.

Lemma all_str_length (l : list cell) (r : list string) :
  all_str l = Some r -> List.length r = List.length l.
Proof.
  revert r. induction l as [|x l IH]; simpl; intros r H.
  - now inversion H.
  - destruct x; try discriminate. destruct (all_str l) as [r'|]; [|discriminate].
    inversion H; subst. simpl. f_equal. now apply IH.
Qed.

Lemma all_int_length (l : list cell) (r : list Z) :
  all_int l = Some r -> List.length r = List.length l.
Proof.
  revert r. induction l as [|x l IH]; simpl; intros r H.
  - now inversion H.
  - destruct x; try discriminate. destruct (all_int l) as [r'|]; [|discriminate].
    inversion H; subst. simpl. f_equal. now apply IH.
Qed.

Lemma all_num_length (l : list cell) (r : list F) :
  all_num l = Some r -> List.length r = List.length l.
Proof.
  revert r. induction l as [|x l IH]; simpl; intros r H.
  - now inversion H.
  - destruct x; try discriminate;
      (destruct (all_num l) as [r'|]; [|discriminate]);
      inversion H; subst; simpl; f_equal; now apply IH.
Qed.

(** Line 59: one code per sample, and the codes in use are [0 .. n-1]. *)
Lemma np_unique_inverse_levels (col : list cell) (codes : list nat) :
  np_unique_inverse col = Ok codes ->
  List.length codes = List.length col /\
  np_unique Nat.leb codes = seq 0 (List.length (np_unique Nat.leb codes)).
Proof.
  unfold np_unique_inverse. intros H.
  assert (G : forall (A : Type) (EA : EqDecision A) (le : A -> A -> bool) (l : list A),
             List.length l = List.length col ->
             List.length (unique_inverse le l) = List.length col /\
             np_unique Nat.leb (unique_inverse le l)
             = seq 0 (List.length (np_unique Nat.leb (unique_inverse le l)))).
  { intros A EA le l Hl. split.
    - now rewrite unique_inverse_length.
    - rewrite np_unique_codes at 1. rewrite np_unique_codes, length_seq. reflexivity. }
  destruct (all_str col) as [l|] eqn:E1.
  { inversion H; subst. apply G. now apply all_str_length. }
  destruct (all_int col) as [l|] eqn:E2.
  { inversion H; subst. apply G. now apply all_int_length. }
  destruct (all_num col) as [l|] eqn:E3; [|discriminate].
  inversion H; subst. apply G. now apply all_num_length.
Qed.

Lemma x_term_inj (a b : nat) : x_term a = x_term b -> a = b.
Proof. unfold x_term. intros H. inversion H. now apply str_inj. Qed.

Lemma c_term_inj (a b : nat) : c_term a = c_term b -> a = b.
Proof. unfold c_term. intros H. inversion H. now apply str_inj. Qed.

Lemma x_term_c_term (a b : nat) : x_term a <> c_term b.
Proof. unfold x_term, c_term. intros H. inversion H. Qed.

(** Lines 79-81, the formula. *)
Lemma site_loop_formula (design : ndarray F) (levels : list nat) :
  forall f0 d0 f d,
    rfold (fun '(formula, df_gam) b =>
             let? col := column zero design b in
             Ok (formula +:+ "x" +:+ str b +:+ " + ",
                 dict_set ("x" +:+ str b) col df_gam))
      (f0, d0) levels = Ok (f, d) ->
    f = f0 +:+ terms_with_plus (map x_term levels).
Proof.
  induction levels as [|b levels IH]; simpl; intros f0 d0 f d H.
  - inversion H. now rewrite append_empty_r.
  - apply rbind_Ok in H as ([f1 d1] & H1 & H).
    apply rbind_Ok in H1 as (col & _ & H1). inversion H1; subst; clear H1.
    apply IH in H. rewrite H. unfold x_term at 2.
    now rewrite !append_assoc.
Qed.

(** Lines 82-85, the formula. *)
Lemma covariate_loop_formula (covars : ndarray cell) (smooth_cols num_cols : list nat) :
  forall f0 d0 f d,
    rfold (fun '(formula, df_gam) c =>
             if nat_in c smooth_cols then Ok (formula, df_gam)
             else
               let? col := column (PyInt 0) covars c in
               let? v := rmap to_float col in
               Ok (formula +:+ "c" +:+ str c +:+ " + ",
                   dict_set ("c" +:+ str c) v df_gam))
      (f0, d0) num_cols = Ok (f, d) ->
    f = f0 +:+ terms_with_plus
                 (map c_term (List.filter (fun c => negb (nat_in c smooth_cols)) num_cols)).
Proof.
  induction num_cols as [|c num_cols IH]; simpl; intros f0 d0 f d H.
  - inversion H. now rewrite append_empty_r.
  - apply rbind_Ok in H as ([f1 d1] & H1 & H).
    destruct (nat_in c smooth_cols); simpl.
    + inversion H1; subst. now apply IH in H.
    + apply rbind_Ok in H1 as (col & _ & H1).
      apply rbind_Ok in H1 as (v & _ & H1). inversion H1; subst; clear H1.
      apply IH in H. rewrite H. unfold c_term at 2.
      now rewrite !append_assoc.
Qed.

Lemma gam_formula (covars : ndarray cell) (design : ndarray F)
    (levels num_cols smooth_cols : list nat) (fd : string * frame) :
  gam_formula_and_frame covars design levels num_cols smooth_cols = Ok fd ->
  let acc := "y ~ " +:+ terms_with_plus
               (map x_term levels
                ++ map c_term
                     (List.filter (fun c => negb (nat_in c smooth_cols)) num_cols)) in
  fst fd = substring 0 (String.length acc - 2) acc +:+ "- 1".
Proof.
  unfold gam_formula_and_frame. intros H.
  apply rbind_Ok in H as ([f1 d1] & H1 & H).
  apply rbind_Ok in H as ([f2 d2] & H2 & H).
  inversion H; subst; clear H. cbv zeta. cbn [fst].
  apply site_loop_formula in H1. apply covariate_loop_formula in H2.
  rewrite H1 in H2. rewrite append_assoc, <- terms_with_plus_app in H2.
  now rewrite H2.
Qed.

End Smoothing.

Section Formula.
Context {Sc : Scalar} {SM : Statsmodels} {NC : NeuroCombat}.

Lemma formula_terms_NoDup (n : nat) (cols st : list string) :
  List.NoDup (formula_terms n cols st).
Proof.
  unfold formula_terms. apply List.NoDup_app.
  - apply NoDup_map_inj; [apply x_term_inj | apply List.seq_NoDup].
  - apply NoDup_map_inj; [apply c_term_inj|].
    unfold linear_covariate_positions, column_positions.
    apply List.NoDup_filter, List.seq_NoDup.
  - intros t Hx Hc. apply in_map_iff in Hx as (b & <- & _).
    apply in_map_iff in Hc as (k & Hk & _). symmetry in Hk.
    now apply x_term_c_term in Hk.
Qed.

Lemma formula_terms_In (n : nat) (cols st : list string) (t : string) :
  In t (formula_terms n cols st) <->
  (exists b, b < n /\ t = x_term b) \/
  (exists k, k < List.length cols /\
             nth k cols EmptyString <> "SITE" /\
             ~ In (nth k cols EmptyString) st /\
             t = c_term k).
Proof.
  unfold formula_terms, linear_covariate_positions, column_positions.
  rewrite in_app_iff, !in_map_iff.
  assert (Hst : forall c, str_in c st = true <-> In c st).
  { intros c. unfold str_in. rewrite existsb_exists. split.
    - intros (x & Hx & E). apply String.eqb_eq in E. now subst.
    - intros H. exists c. split; [exact H | apply String.eqb_refl]. }
  split; (intros [H|H]; [left | right]).
  - destruct H as (b & <- & Hb). apply in_seq in Hb. exists b. split; [lia | reflexivity].
  - destruct H as (k & <- & Hk). apply filter_In in Hk as [Hk HP].
    apply in_seq in Hk. apply andb_true_iff in HP as [H1 H2].
    exists k. repeat split.
    + lia.
    + intros E. rewrite E in H1. discriminate.
    + intros E. apply Hst in E. rewrite E in H2. discriminate.
  - destruct H as (b & Hb & ->). exists b. split; [reflexivity | apply in_seq; lia].
  - destruct H as (k & Hk & H1 & H2 & ->). exists k. split; [reflexivity|].
    apply filter_In. split; [apply in_seq; lia|].
    apply andb_true_iff. split.
    + destruct (String.eqb_spec (nth k cols EmptyString) "SITE"); [contradiction | reflexivity].
    + destruct (str_in (nth k cols EmptyString) st) eqn:E; [|reflexivity].
      apply Hst in E. contradiction.
Qed.

(** C6. With smooth terms, a table of at least one sample and distinct
    column labels, the formula is ["y ~ " t1 " + " ... " + " tn " - 1"]:
    its terms are, once each, [x<b>] for every site code [b] and [c<k>]
    for every column position [k] whose column is neither SITE nor a
    smooth term; there is no other term, so none for a smooth covariate,
    and the formula ends in ["- 1"], so there is no intercept. *)
Theorem harmonizationLearn_formula (covars : DataFrame) (st : list string)
    (p : prepared_t) :
  List.NoDup (columns covars) ->
  0 < shape0 (values covars) ->
  st <> [] ->
  prepare covars st = Ok p ->
  let terms := formula_terms (n_batch (p_info_dict p)) (columns covars) st in
  formula (p_smooth_model p)
  = Some ("y ~ " +:+ String.concat " + " terms +:+ " - 1") /\
  List.NoDup terms /\
  (forall t, In t terms <->
     (exists b, b < n_batch (p_info_dict p) /\ t = "x" +:+ str b) \/
     (exists k, k < List.length (columns covars) /\
                nth k (columns covars) EmptyString <> "SITE" /\
                ~ In (nth k (columns covars) EmptyString) st /\
                t = "c" +:+ str k)).
Proof.
  intros Hnd Hrows Hst Hp. cbv zeta.
  split; [|split; [apply formula_terms_NoDup | apply formula_terms_In]].
  apply prepare_Ok in Hp
    as (bc & nc & sc & site & codes & covars' & design & _ & Hnc & Hsc & Hsite
        & Hcodes & _ & _ & _ & Hinfo & Hsm).
  rewrite rmap_get_loc_positions in Hnc, Hsc by exact Hnd.
  injection Hnc as <-. injection Hsc as <-.
  assert (Hpos : (0 <? List.length st) = true)
    by (destruct st; [congruence | reflexivity]).
  rewrite Hpos in Hsm.
  unfold smoothing_setup in Hsm. cbv zeta in Hsm.
  cbn [smooth_cols perform_smoothing smooth_terms] in Hsm.
  apply rbind_Ok in Hsm as (Xs & _ & Hsm).
  apply rbind_Ok in Hsm as (bs & _ & Hsm).
  apply rbind_Ok in Hsm as (fd & Hfd & Hsm).
  apply rbind_Ok in Hsm as (df & _ & Hsm).
  apply rbind_Ok in Hsm as (dg & _ & Hsm).
  inversion Hsm as [Hsm']. cbn [formula]. f_equal.
  apply gam_formula in Hfd. cbv zeta in Hfd. rewrite Hfd. clear Hfd Hsm Hsm'.
  rewrite linear_columns.
  apply np_unique_inverse_levels in Hcodes as [Hlen Hlev].
  rewrite Hinfo. cbn [n_batch].
  apply column_length in Hsite.
  remember (List.length (np_unique Nat.leb codes)) as n0 eqn:En.
  rewrite Hlev.
  destruct n0 as [|n].
  - exfalso. destruct codes as [|c codes]; [simpl in Hlen; lia|].
    assert (In c (np_unique Nat.leb (c :: codes))) as Hc
        by (apply np_unique_In; now left).
    destruct (np_unique Nat.leb (c :: codes)); [inversion Hc | discriminate].
  - unfold formula_terms.
    exact (formula_of_terms (x_term 0)
             (map x_term (seq 1 n)
              ++ map c_term (linear_covariate_positions (columns covars) st))).
Qed.

End Formula.

(** ** The site indicators in the design that is used *)

Lemma map_nth_seq {A} (d : A) (v : list A) :
  map (fun i => nth i v d) (seq 0 (List.length v)) = v.
Proof.
  apply nth_ext with (d := d) (d' := d).
  - now rewrite length_map, length_seq.
  - intros i Hi. rewrite length_map, length_seq in Hi.
    rewrite (nth_indep _ d ((fun i => nth i v d) 0))
      by (rewrite length_map, length_seq; exact Hi).
    rewrite (map_nth (fun i => nth i v d)). now rewrite seq_nth.
Qed.

Lemma column_set_column {A} (d : A) (a a' : ndarray A) (j : nat) (v : list A) :
  set_column d a j v = Ok a' -> List.length v = shape0 a ->
  column d a' j = Ok v.
Proof.
  unfold set_column, column. intros H Hv.
  destruct (j <? shape1 a) eqn:Hj; simpl in H; [|discriminate].
  apply Nat.eqb_eq in Hv. rewrite Hv in H. apply Nat.eqb_eq in Hv.
  inversion H; subst; clear H. simpl. rewrite Hj. f_equal.
  transitivity (map (fun i => nth i v d) (seq 0 (List.length v)));
    [|apply map_nth_seq].
  rewrite Hv. apply map_ext_in. intros i Hi. apply in_seq in Hi.
  apply Nat.ltb_lt in Hj.
  rewrite get_tabulate by lia. now rewrite Nat.eqb_refl.
Qed.

Lemma dict_set_fresh {V} (k : string) (v : V) (d : list (string * V)) :
  ~ In k (map fst d) -> dict_set k v d = d ++ [(k, v)].
Proof.
  induction d as [|[k' v'] d IH]; simpl; intros Hk; [reflexivity|].
  destruct (String.eqb_spec k' k) as [->|_]; [tauto|].
  rewrite IH by tauto. reflexivity.
Qed.

Lemma dict_set_prefix {V} (k : string) (v : V) (d1 d2 : list (string * V)) :
  ~ In k (map fst d1) -> dict_set k v (d1 ++ d2) = d1 ++ dict_set k v d2.
Proof.
  induction d1 as [|[k' v'] d1 IH]; simpl; intros Hk; [reflexivity|].
  destruct (String.eqb_spec k' k) as [->|_]; [tauto|].
  rewrite IH by tauto. reflexivity.
Qed.

Section SiteIndicators.
Context {Sc : Scalar} {SM : Statsmodels} {NC : NeuroCombat}.

Lemma site_columns_keys (design : ndarray F) (levels : list nat) (k : string) :
  In k (map fst (site_columns design levels)) -> exists b, In b levels /\ k = x_term b.
Proof.
  unfold site_columns. rewrite map_map. simpl. intros H.
  apply in_map_iff in H as (b & <- & Hb). eauto.
Qed.

(** Lines 79-81, the frame: one column per site, in the order of the
    levels, each the column of the design at that level. *)
Lemma site_loop_frame (design : ndarray F) (levels : list nat) :
  forall f0 d0 f d,
    List.NoDup levels ->
    (forall b, In b levels -> ~ In (x_term b) (map fst d0)) ->
    rfold (fun '(formula, df_gam) b =>
             let? col := column zero design b in
             Ok (formula +:+ "x" +:+ str b +:+ " + ",
                 dict_set ("x" +:+ str b) col df_gam))
      (f0, d0) levels = Ok (f, d) ->
    d = d0 ++ site_columns design levels /\
    (forall b, In b levels -> b < shape1 design).
Proof.
  induction levels as [|b levels IH]; simpl; intros f0 d0 f d Hnd Hfresh H.
  - inversion H. split; [now rewrite app_nil_r | tauto].
  - apply rbind_Ok in H as ([f1 d1] & H1 & H).
    apply rbind_Ok in H1 as (col & Hcol & H1). inversion H1; subst; clear H1.
    inversion Hnd as [|? ? Hb Hnd']; subst.
    unfold column in Hcol. destruct (b <? shape1 design) eqn:Hlt; [|discriminate].
    apply Nat.ltb_lt in Hlt. inversion Hcol; subst; clear Hcol.
    fold (x_term b) in H. rewrite dict_set_fresh in H by (apply Hfresh; now left).
    apply IH in H; [|exact Hnd'|].
    + destruct H as [-> Hlev]. split.
      * rewrite <- app_assoc. reflexivity.
      * intros b' [<-|Hb']; [exact Hlt | now apply Hlev].
    + intros b' Hb' Hin. rewrite map_app, in_app_iff in Hin.
      destruct Hin as [Hin|Hin].
      * apply (Hfresh b'); [now right | exact Hin].
      * simpl in Hin. destruct Hin as [E|[]]. apply x_term_inj in E.
        subst. contradiction.
Qed.

(** Lines 82-85, the frame: what the site loop left stays in front. *)
Lemma covariate_loop_frame (covars : ndarray cell) (smooth_cols num_cols : list nat)
    (d1 : frame) :
  (forall c, ~ In (c_term c) (map fst d1)) ->
  forall f0 d2 f d,
    rfold (fun '(formula, df_gam) c =>
             if nat_in c smooth_cols then Ok (formula, df_gam)
             else
               let? col := column (PyInt 0) covars c in
               let? v := rmap to_float col in
               Ok (formula +:+ "c" +:+ str c +:+ " + ",
                   dict_set ("c" +:+ str c) v df_gam))
      (f0, d1 ++ d2) num_cols = Ok (f, d) ->
    exists d2', d = d1 ++ d2'.
Proof.
  intros Hfresh. induction num_cols as [|c num_cols IH]; simpl; intros f0 d2 f d H.
  - inversion H. eauto.
  - apply rbind_Ok in H as ([f1 d'] & H1 & H).
    destruct (nat_in c smooth_cols).
    + inversion H1; subst. eapply IH. exact H.
    + apply rbind_Ok in H1 as (col & _ & H1).
      apply rbind_Ok in H1 as (v & _ & H1). inversion H1; subst; clear H1.
      fold (c_term c) in H. rewrite dict_set_prefix in H by apply Hfresh.
      eapply IH. exact H.
Qed.

Lemma gam_frame (covars : ndarray cell) (design : ndarray F)
    (n : nat) (num_cols smooth_cols : list nat) (fd : string * frame) :
  gam_formula_and_frame covars design (seq 0 n) num_cols smooth_cols = Ok fd ->
  n <= shape1 design /\
  exists rest, snd fd = site_columns design (seq 0 n) ++ rest.
Proof.
  unfold gam_formula_and_frame. intros H.
  apply rbind_Ok in H as ([f1 d1] & H1 & H).
  apply rbind_Ok in H as ([f2 d2] & H2 & H).
  inversion H; subst; clear H. cbn [snd].
  apply site_loop_frame in H1; [|apply List.seq_NoDup | intros b _ []].
  destruct H1 as [Hd1 Hlt]. simpl in Hd1. subst d1. split.
  - destruct n as [|n]; [lia|].
    assert (n < shape1 design) by (apply Hlt, in_seq; lia). lia.
  - rewrite <- (app_nil_r (site_columns design (seq 0 n))) in H2.
    eapply covariate_loop_frame; [|exact H2].
    intros c Hin. apply site_columns_keys in Hin as (b & _ & E).
    symmetry in E. now apply x_term_c_term in E.
Qed.

Lemma frame_to_array_site_columns (design : ndarray F) (n : nat) (rest : frame) :
  0 < n ->
  let fr := site_columns design (seq 0 n) ++ rest in
  shape0 (frame_to_array fr) = shape0 design /\
  n <= shape1 (frame_to_array fr) /\
  forall i b, i < shape0 design -> b < n ->
    at_ (frame_to_array fr) i b = at_ design i b.
Proof.
  intros Hn fr.
  assert (Hrows : frame_nrows fr = shape0 design).
  { unfold fr. destruct n as [|n]; [lia|]. simpl.
    unfold design_column. now rewrite length_map, length_seq. }
  assert (Hcols : n <= List.length fr).
  { unfold fr, site_columns. rewrite length_app, length_map, length_seq. lia. }
  unfold frame_to_array. simpl. rewrite Hrows.
  split; [reflexivity|]. split; [exact Hcols|].
  intros i b Hi Hb. rewrite at_tabulate by lia.
  unfold fr. rewrite app_nth1
    by (unfold site_columns; rewrite length_map, length_seq; exact Hb).
  unfold site_columns.
  rewrite (nth_indep _ _ ((fun b => (x_term b, design_column design b)) 0))
    by (rewrite length_map, length_seq; exact Hb).
  rewrite (map_nth (fun b => (x_term b, design_column design b))).
  rewrite seq_nth by exact Hb. simpl. unfold design_column.
  rewrite (nth_indep _ zero ((fun i => at_ design i b) 0))
    by (rewrite length_map, length_seq; exact Hi).
  rewrite (map_nth (fun i => at_ design i b)). now rewrite seq_nth.
Qed.

Lemma concatenate_axis1_Ok (a b m : ndarray F) :
  concatenate_axis1 zero a b = Ok m ->
  shape0 m = shape0 a /\ shape1 m = shape1 a + shape1 b /\
  forall i j, i < shape0 a -> j < shape1 a -> at_ m i j = at_ a i j.
Proof.
  unfold concatenate_axis1. destruct (shape0 a =? shape0 b); [|discriminate].
  intros H. inversion H; subst; clear H. simpl.
  split; [reflexivity|]. split; [reflexivity|].
  intros i j Hi Hj. rewrite at_tabulate by lia.
  apply Nat.ltb_lt in Hj. now rewrite Hj.
Qed.

End SiteIndicators.

Section DesignInUse.
Context {Sc : Scalar} {SM : Statsmodels} {NC : NeuroCombat}.

Lemma all_int_codes (codes : list nat) :
  all_int (map (fun c => PyInt (Z.of_nat c)) codes) = Some (map Z.of_nat codes).
Proof.
  induction codes as [|c codes IH]; [reflexivity|].
  change (all_int (map (fun c => PyInt (Z.of_nat c)) (c :: codes)))
    with (match all_int (map (fun c => PyInt (Z.of_nat c)) codes) with
          | Some r => Some (Z.of_nat c :: r)
          | None => None
          end).
  now rewrite IH.
Qed.

Lemma all_str_codes (c : nat) (codes : list nat) :
  all_str (map (fun c => PyInt (Z.of_nat c)) (c :: codes)) = None.
Proof. reflexivity. Qed.

(** The column written at line 59 re-encodes to itself. *)
Lemma np_unique_inverse_codes (codes : list nat) (n : nat) :
  np_unique Nat.leb codes = seq 0 n ->
  np_unique_inverse (map (fun c => PyInt (Z.of_nat c)) codes) = Ok codes.
Proof.
  intros Hu. unfold np_unique_inverse. destruct codes as [|c codes]; [reflexivity|].
  rewrite all_str_codes, all_int_codes.
  f_equal. eapply unique_inverse_codes. exact Hu.
Qed.

(** The first columns of the linear design are the site indicators, in
    the order of the codes. *)
Lemma make_design_matrix_indicators (Y : ndarray cell) (bc : nat)
    (num_cols codes : list nat) (n : nat) (design : ndarray F) :
  column (PyInt 0) Y bc = Ok (map (fun c => PyInt (Z.of_nat c)) codes) ->
  np_unique Nat.leb codes = seq 0 n ->
  make_design_matrix Y bc [] num_cols = Ok design ->
  shape0 design = shape0 Y /\
  shape1 design = n + List.length num_cols /\
  forall i b, i < shape0 Y -> b < n ->
    at_ design i b = if nth i codes 0 =? b then one else zero.
Proof.
  intros Hcol Hu H. unfold make_design_matrix in H.
  rewrite Hcol in H. simpl in H.
  rewrite (np_unique_inverse_codes codes n Hu) in H. simpl in H.
  apply rbind_Ok in H as (nums & _ & H). inversion H; subst; clear H.
  rewrite Hu, length_seq. simpl.
  split; [reflexivity|]. split; [reflexivity|].
  intros i b Hi Hb. rewrite at_tabulate by lia.
  apply Nat.ltb_lt in Hb. now rewrite Hb.
Qed.

(** The columns of the design in both paths: the design that
    [StandardizeAcrossFeatures] works with starts with the one-hot site
    indicators; its column [b], for each site code [b] below [n_batch], is
    the column [b] of the linear design, which is 1 on the samples of site
    [b] and 0 elsewhere. *)
Lemma design_in_use_site_indicators (covars : DataFrame) (st : list string)
    (p : prepared_t) :
  prepare covars st = Ok p ->
  exists (D : ndarray F) (bc : nat) (site : list cell) (codes : list nat),
    columns_get_loc (columns covars) "SITE" = Ok bc /\
    column (PyInt 0) (values covars) bc = Ok site /\
    np_unique_inverse site = Ok codes /\
    batch_levels (p_info_dict p) = seq 0 (n_batch (p_info_dict p)) /\
    design_in_use (p_design p) (p_smooth_model p) = Some D /\
    (st <> [] -> smooth_design (p_smooth_model p) = Some D) /\
    n_batch (p_info_dict p) <= shape1 D /\
    (0 < n_batch (p_info_dict p) -> shape0 D = shape0 (values covars)) /\
    (forall i b, i < shape0 (values covars) -> b < n_batch (p_info_dict p) ->
       at_ D i b = at_ (p_design p) i b /\
       at_ D i b = if nth i codes 0 =? b then one else zero) /\
    (forall i j, i < shape0 D -> j < shape1 D ->
       at_ (zero_columns_upto (n_batch (p_info_dict p)) D) i j
       = if j <? n_batch (p_info_dict p) then zero else at_ D i j).
Proof.
  intros Hp.
  apply prepare_Ok in Hp
    as (bc & nc & sc & site & codes & covars' & design & Hbc & _ & _ & Hsite
        & Hcodes & Hset & Hdesign & Hpd & Hinfo & Hsm).
  pose proof (np_unique_inverse_levels _ _ Hcodes) as [Hlen Hlev].
  pose proof (column_length _ _ _ _ Hsite) as Hsite_len.
  pose proof (set_column_shape _ _ _ _ _ Hset) as Hshape.
  unfold shape in Hshape. injection Hshape as Hs0 Hs1.
  assert (Hcol' : column (PyInt 0) covars' bc
                  = Ok (map (fun c => PyInt (Z.of_nat c)) codes)).
  { eapply column_set_column; [exact Hset|]. rewrite length_map. congruence. }
  remember (List.length (np_unique Nat.leb codes)) as n eqn:En.
  pose proof (make_design_matrix_indicators _ _ _ _ _ _ Hcol' Hlev Hdesign)
    as (Hd0 & Hd1 & Hind).
  assert (Hnb : n_batch (p_info_dict p) = n) by (rewrite Hinfo; reflexivity).
  assert (Hbl : batch_levels (p_info_dict p) = seq 0 n)
    by (rewrite Hinfo; exact Hlev).
  rewrite Hnb, Hpd. clear Hinfo.
  assert (Hzero : forall D : ndarray F, forall i j, i < shape0 D -> j < shape1 D ->
            at_ (zero_columns_upto n D) i j = if j <? n then zero else at_ D i j).
  { intros D i j Hi Hj. unfold zero_columns_upto. now rewrite at_tabulate. }
  destruct (0 <? List.length st) eqn:Hst.
  - (* smoothing *)
    rewrite Hlev in Hsm. unfold smoothing_setup in Hsm. cbv zeta in Hsm.
    cbn [smooth_cols perform_smoothing smooth_terms] in Hsm.
    apply rbind_Ok in Hsm as (Xs & _ & Hsm).
    apply rbind_Ok in Hsm as (bs & _ & Hsm).
    apply rbind_Ok in Hsm as (fd & Hfd & Hsm).
    apply rbind_Ok in Hsm as (df & Hdf & Hsm).
    apply rbind_Ok in Hsm as (dg & Hdg & Hsm).
    inversion Hsm as [Hsm']. clear Hsm.
    exists dg, bc, site, codes.
    unfold design_in_use. cbn [perform_smoothing smooth_design].
    apply gam_frame in Hfd as (Hn & rest & Hfr).
    unfold pd_DataFrame in Hdf. destruct (forallb _ _); [|discriminate].
    injection Hdf as <-.
    apply concatenate_axis1_Ok in Hdg as (Hdg0 & Hdg1 & Hdg).
    split; [exact Hbc|]. split; [exact Hsite|]. split; [exact Hcodes|].
    split; [exact Hbl|]. split; [reflexivity|]. split; [reflexivity|].
    destruct n as [|n'].
    + split; [lia|]. split; [intros; lia|]. split; [intros; lia | apply Hzero].
    + pose proof (frame_to_array_site_columns design (S n') rest) as Hfa.
      cbv zeta in Hfa. rewrite <- Hfr in Hfa.
      destruct Hfa as (Hfa0 & Hfa1 & Hfa); [lia|].
      split; [lia|]. split; [intros _; congruence|].
      split; [|apply Hzero].
      intros i b Hi Hb.
      assert (E : at_ dg i b = at_ design i b).
      { rewrite Hdg by lia. apply Hfa; lia. }
      split; [exact E|]. rewrite E. apply Hind; lia.
  - (* linear *)
    exists design, bc, site, codes.
    unfold design_in_use. rewrite Hsm. cbn [perform_smoothing].
    apply Nat.ltb_ge in Hst.
    split; [exact Hbc|]. split; [exact Hsite|]. split; [exact Hcodes|].
    split; [exact Hbl|]. split; [reflexivity|].
    split; [intros Hne; destruct st; [congruence | simpl in Hst; lia]|].
    split; [lia|]. split; [intros _; congruence|].
    split; [|apply Hzero].
    intros i b Hi Hb. split; [reflexivity | apply Hind; lia].
Qed.

End DesignInUse.

(** ** When the linear path returns *)

Section Returns.
Context {Sc : Scalar} {SM : Statsmodels} {NC : NeuroCombat}.

Lemma is_Ok_true {A} (r : result A) : is_Ok r = true -> exists a, r = Ok a.
Proof. destruct r; [eauto | discriminate]. Qed.

Lemma get_loc_Some (cols : list string) (c : string) :
  In c cols ->
  exists i, get_loc cols c = Some i /\ i < List.length cols /\
            nth i cols EmptyString = c.
Proof.
  induction cols as [|c' cols IH]; simpl; intros Hc; [tauto|].
  destruct (String.eqb_spec c' c) as [->|Hne].
  - exists 0. repeat split. lia.
  - destruct Hc as [E|Hc]; [congruence|].
    destruct (IH Hc) as (i & Hi & Hlt & Hnth). exists (S i).
    rewrite Hi. repeat split; [lia | exact Hnth].
Qed.

Lemma rmap_defined {A B} (f : A -> result B) (P : B -> Prop) (l : list A) :
  (forall x, In x l -> exists y, f x = Ok y /\ P y) ->
  exists r, rmap f l = Ok r /\ List.Forall P r.
Proof.
  induction l as [|x l IH]; simpl; intros H; [eauto|].
  destruct (H x) as (y & Hy & HP); [now left|].
  destruct IH as (r & Hr & HF); [intros; apply H; now right|].
  exists (y :: r). rewrite Hy, Hr. simpl. split; [reflexivity | now constructor].
Qed.

Lemma filter_false {A} (l : list A) : List.filter (fun _ => false) l = [].
Proof. induction l; simpl; auto. Qed.

(** Lines 42-70 raise nothing on a well-formed table. *)
Lemma prepare_linear_defined (covars : DataFrame) :
  well_formed_covars covars ->
  exists p,
    prepare covars [] = Ok p /\
    perform_smoothing (p_smooth_model p) = false /\
    shape0 (p_design p) = shape0 (values covars) /\
    n_sample (p_info_dict p) = shape0 (values covars) /\
    List.length (sample_per_batch (p_info_dict p)) = n_batch (p_info_dict p) /\
    n_batch (p_info_dict p) <= shape1 (p_design p).
Proof.
  intros [Hlabels Hsite Hsort Hnum]. unfold prepare.
  change (fun c : string => str_in c []) with (fun _ : string => false).
  rewrite filter_false.
  destruct (get_loc_Some _ _ Hsite) as (bc & Hbc & Hbc_lt & Hbc_nth).
  unfold columns_get_loc at 1. rewrite Hbc. simpl rbind.
  destruct (rmap_defined (columns_get_loc (columns covars))
              (fun i => i < List.length (columns covars) /\
                        nth i (columns covars) EmptyString <> "SITE")
              (List.filter (fun c => negb (String.eqb c "SITE")) (columns covars)))
    as (num_cols & Hnc & Hnc_all).
  { intros c Hc. apply filter_In in Hc as [Hc Hne].
    destruct (get_loc_Some _ _ Hc) as (i & Hi & Hlt & Hnth).
    exists i. unfold columns_get_loc. rewrite Hi. repeat split; [exact Hlt|].
    rewrite Hnth. intros ->. discriminate. }
  rewrite Hnc. simpl rbind.
  set (site := map (fun i => get (PyInt 0) (values covars) i bc)
                 (seq 0 (shape0 (values covars)))).
  assert (Hcol : column (PyInt 0) (values covars) bc = Ok site).
  { unfold column. replace (bc <? shape1 (values covars)) with true
      by (symmetry; apply Nat.ltb_lt; lia). reflexivity. }
  rewrite Hcol. simpl rbind.
  destruct (is_Ok_true _ (Hsort bc site
                            ltac:(unfold columns_get_loc; now rewrite Hbc) Hcol))
    as [codes Hcodes].
  rewrite Hcodes. simpl rbind.
  pose proof (np_unique_inverse_levels _ _ Hcodes) as [Hlen Hlev].
  assert (Hsite_len : List.length site = shape0 (values covars))
    by (unfold site; now rewrite length_map, length_seq).
  set (coded := map (fun c => PyInt (Z.of_nat c)) codes).
  assert (Hcoded_len : List.length coded = shape0 (values covars))
    by (unfold coded; rewrite length_map; congruence).
  destruct (set_column (PyInt 0) (values covars) bc coded) as [covars'|] eqn:Hset.
  2:{ exfalso. unfold set_column in Hset.
      replace (bc <? shape1 (values covars)) with true in Hset
        by (symmetry; apply Nat.ltb_lt; lia).
      apply Nat.eqb_eq in Hcoded_len. simpl in Hset. rewrite Hcoded_len in Hset.
      discriminate. }
  simpl rbind.
  pose proof (set_column_shape _ _ _ _ _ Hset) as Hshape.
  unfold shape in Hshape. injection Hshape as Hs0 Hs1.
  pose proof (column_set_column _ _ _ _ _ Hset Hcoded_len) as Hcol'.
  (* the design *)
  unfold make_design_matrix. rewrite Hcol'. simpl rbind.
  unfold coded. rewrite (np_unique_inverse_codes codes _ Hlev). simpl rbind.
  destruct (rmap_defined
              (fun c => let? v := column (PyInt 0) covars' c in rmap to_float v)
              (fun _ => True) num_cols) as (nums & Hnums & _).
  { intros c Hc. rewrite List.Forall_forall in Hnc_all.
    destruct (Hnc_all c Hc) as [Hc_lt Hc_ne].
    unfold column. replace (c <? shape1 covars') with true
      by (symmetry; apply Nat.ltb_lt; lia). simpl rbind.
    destruct (rmap_defined to_float (fun _ => True)
                (map (fun i => get (PyInt 0) covars' i c) (seq 0 (shape0 covars'))))
      as (v & Hv & _).
    - intros x Hx. apply in_map_iff in Hx as (i & <- & Hi). apply in_seq in Hi.
      assert (Hget : get (PyInt 0) covars' i c = cell_at (values covars) i c).
      { unfold set_column in Hset.
        destruct (negb (bc <? shape1 (values covars))); [discriminate|].
        destruct (List.length coded =? shape0 (values covars));
          [|destruct (List.length coded =? 1); [|discriminate]];
          injection Hset as <-; rewrite get_tabulate by lia;
          (replace (c =? bc) with false; [reflexivity|]);
          symmetry; apply Nat.eqb_neq; intros ->; contradiction. }
      rewrite Hget.
      destruct (is_Ok_true _ (Hnum i c ltac:(lia) ltac:(lia) Hc_ne)) as [y Hy].
      exists y. split; [exact Hy | exact I].
    - exists v. split; [exact Hv | exact I]. }
  rewrite Hnums. simpl rbind.
  eexists. split; [reflexivity|]. simpl.
  split; [reflexivity|]. split; [exact Hs0|]. split; [exact Hs0|].
  split; [apply unique_counts_length | lia].
Qed.

(** On a well-formed table with one row per sample, without smooth terms,
    [harmonizationLearn] returns as soon as the Gram matrix of the design
    has an inverse and the two ComBat steps succeed. *)
Lemma harmonizationLearn_linear_returns (data : ndarray F) (covars : DataFrame)
    (w : world) :
  well_formed_covars covars ->
  shape0 data = shape0 (values covars) ->
  (forall p gram, prepare covars [] = Ok p ->
     np_dot (transpose zero (p_design p)) (p_design p) = Ok gram ->
     is_Ok (np_linalg_inv gram) = true) ->
  (forall s design info, is_Ok (fit_LS_model_and_find_priors s design info) = true) ->
  (forall s ls info, is_Ok (find_parametric_adjustments s ls info) = true) ->
  exists model bayes_data,
    harmonizationLearn data covars [] w = (Ok (model, bayes_data), w).
Proof.
  intros Hwf Hrows Hgram HLS Hadj.
  destruct (prepare_linear_defined covars Hwf)
    as (p & Hp & Hlin & Hd0 & Hn & Hlen & Hnb).
  destruct (np_dot_defined (transpose zero (p_design p)) (p_design p))
    as [gram Hg]; [reflexivity|].
  destruct (is_Ok_true _ (Hgram p gram Hp Hg)) as [gram_inv Hgi].
  destruct (StandardizeAcrossFeatures_linear_defined (transpose zero data)
              (p_design p) gram gram_inv (p_info_dict p) (p_smooth_model p) w)
    as [[[[[s stm] vp] B] g] Hstd]; try assumption.
  { simpl. congruence. }
  { simpl. congruence. }
  destruct (is_Ok_true _ (HLS s (p_design p) (p_info_dict p))) as [ls Hls].
  destruct (is_Ok_true _ (Hadj s ls (p_info_dict p))) as [[gamma delta] Hgd].
  unfold harmonizationLearn, bind, lift, ret.
  rewrite Hp, Hstd, Hls, Hgd. eauto.
Qed.

End Returns.

(* ================================================================= *)
(** * Further properties *)

Lemma append_inj_l (a b c : string) : a +:+ b = a +:+ c -> b = c.
Proof.
  induction a as [|x a IH]; intros H; [exact H|].
  rewrite !append_cons in H. injection H as H. now apply IH.
Qed.

Lemma append_inj_r (s b c : string) : b +:+ s = c +:+ s -> b = c.
Proof.
  revert c. induction b as [|x b IH]; intros [|y c] H.
  - reflexivity.
  - exfalso. apply (f_equal String.length) in H.
    rewrite !length_append in H. simpl in H. lia.
  - exfalso. apply (f_equal String.length) in H.
    rewrite !length_append in H. simpl in H. lia.
  - rewrite !append_cons in H. injection H as -> H. f_equal. now apply IH.
Qed.

Lemma npy_path_inj (fldr_name k k' : string) :
  npy_path fldr_name k = npy_path fldr_name k' -> k = k'.
Proof.
  unfold npy_path. intros H.
  apply append_inj_l in H. apply append_inj_l in H.
  now apply append_inj_r in H.
Qed.

Lemma ancestors_from_app (a b : string) :
  forall pre, ancestors_from pre (a +:+ b)
              = ancestors_from pre a ++ ancestors_from (pre +:+ a) b.
Proof.
  induction a as [|x a IH]; intros pre.
  - rewrite append_empty_l, append_empty_r. reflexivity.
  - rewrite append_cons. simpl ancestors_from. rewrite IH, <- app_assoc.
    rewrite append_assoc, append_cons, append_empty_l. reflexivity.
Qed.

Lemma ancestors_from_no_slash (s : string) :
  forall pre, has_slash s = false -> ancestors_from pre s = [].
Proof.
  induction s as [|x s IH]; intros pre H; [reflexivity|].
  simpl in H. apply orb_false_iff in H as [Hx Hs].
  simpl. rewrite Hx. simpl. now apply IH.
Qed.

Lemma has_slash_app (a b : string) :
  has_slash (a +:+ b) = has_slash a || has_slash b.
Proof.
  induction a as [|x a IH]; [reflexivity|].
  rewrite append_cons. simpl. rewrite IH. now rewrite orb_assoc.
Qed.

Lemma ancestors_npy_path (fldr_name key : string) :
  fldr_name <> "" -> has_slash key = false ->
  ancestors (npy_path fldr_name key) = ancestors fldr_name ++ [fldr_name].
Proof.
  intros Hne Hk. unfold ancestors, npy_path.
  rewrite ancestors_from_app, append_empty_l.
  f_equal. rewrite append_cons, append_empty_l. simpl ancestors_from.
  destruct (String.eqb_spec fldr_name "") as [E|_]; [contradiction|].
  rewrite ancestors_from_no_slash; [reflexivity|].
  rewrite has_slash_app, Hk. reflexivity.
Qed.

Lemma dirname_npy_path (fldr_name key : string) :
  fldr_name <> "" -> has_slash key = false ->
  dirname (npy_path fldr_name key) = fldr_name.
Proof.
  intros Hne Hk. unfold dirname. rewrite ancestors_npy_path by assumption.
  apply last_last.
Qed.

Lemma ancestors_from_In (a : string) (p : string) :
  forall pre, In a (ancestors_from pre p) ->
    String.length pre <= String.length a < String.length pre + String.length p.
Proof.
  induction p as [|x p IH]; intros pre H; [destruct H|].
  simpl in H. apply in_app_or in H as [H|H].
  - destruct (Ascii.eqb x "/"); [|destruct H].
    destruct (String.eqb pre ""); [destruct H|].
    destruct H as [<-|[]]. simpl. lia.
  - apply IH in H. rewrite length_append in H. simpl in *. lia.
Qed.

Lemma ancestors_shorter (a p : string) :
  In a (ancestors p) -> String.length a < String.length p.
Proof. intros H. apply ancestors_from_In in H. simpl in H. lia. Qed.

Lemma In_ancestors_from_slash (fldr_name rest : string) :
  fldr_name <> "" ->
  In fldr_name (ancestors (fldr_name +:+ "/" +:+ rest)).
Proof.
  intros Hne. unfold ancestors.
  rewrite ancestors_from_app, append_empty_l. apply in_or_app. right.
  rewrite append_cons, append_empty_l. simpl ancestors_from.
  destruct (String.eqb_spec fldr_name "") as [E|_]; [contradiction|].
  now left.
Qed.

Lemma npy_path_length (fldr_name key : string) :
  String.length fldr_name < String.length (npy_path fldr_name key).
Proof.
  unfold npy_path. rewrite !length_append. simpl. lia.
Qed.

Lemma npy_path_not_folder (fldr_name key : string) :
  ~ In (npy_path fldr_name key) (fldr_name :: ancestors fldr_name).
Proof.
  pose proof (npy_path_length fldr_name key) as Hlen.
  intros [E|H].
  - rewrite <- E in Hlen. lia.
  - apply ancestors_shorter in H. lia.
Qed.

Section SaveRuns.
Context {Sc : Scalar}.

Lemma lookup_made_dirs (m : gmap string node) (l : list string) (q : string) :
  fold_right (fun a m => <[a := Dir]> m) m l !! q
  = if in_dec string_dec q l then Some Dir else m !! q.
Proof.
  induction l as [|a l IH]; [reflexivity|].
  cbn [fold_right].
  destruct (decide (a = q)) as [->|Hne].
  - rewrite lookup_insert_eq.
    destruct (in_dec string_dec q (q :: l)) as [_|H]; [reflexivity|].
    exfalso. apply H. now left.
  - rewrite lookup_insert_ne by exact Hne. rewrite IH.
    destruct (in_dec string_dec q l) as [H|H];
      destruct (in_dec string_dec q (a :: l)) as [H'|H'];
      try reflexivity; exfalso; [apply H'; now right | destruct H' as [E|E]; tauto].
Qed.

(** What [os.makedirs] leaves when it succeeds. *)
Lemma os_makedirs_Ok (p : string) (w w' : world) :
  os_makedirs p w = (Ok tt, w') ->
  stdout w' = stdout w /\
  forall q, fs w' !! q
            = if in_dec string_dec q (p :: ancestors p) then Some Dir else fs w !! q.
Proof.
  unfold os_makedirs.
  destruct (fs w !! p); [discriminate|].
  destruct (String.eqb p ""); [discriminate|].
  destruct (existsb _ _); [discriminate|].
  intros H. inversion H; subst; clear H. cbn [fs stdout].
  split; [reflexivity|]. intros q.
  exact (lookup_made_dirs (fs w) (p :: ancestors p) q).
Qed.

Lemma os_makedirs_Err (p : string) (w w' : world) (e : exn) :
  os_makedirs p w = (Err e, w') -> w' = w.
Proof.
  unfold os_makedirs.
  destruct (fs w !! p); [intros H; now inversion H|].
  destruct (String.eqb p ""); [intros H; now inversion H|].
  destruct (existsb _ _); [intros H; now inversion H | discriminate].
Qed.

Lemma os_makedirs_defined (p : string) (w : world) :
  fs w !! p = None -> p <> "" ->
  (forall a c, In a (ancestors p) -> fs w !! a <> Some (File c)) ->
  exists w', os_makedirs p w = (Ok tt, w').
Proof.
  intros Hp Hne Hanc. unfold os_makedirs. rewrite Hp.
  destruct (String.eqb_spec p "") as [E|_]; [contradiction|].
  destruct (existsb _ (ancestors p)) eqn:E; [|eauto].
  exfalso. apply existsb_exists in E as (a & Ha & Hf).
  destruct (fs w !! a) as [[|c]|] eqn:Ea; try discriminate.
  exact (Hanc a c Ha Ea).
Qed.

(** [np.save] writes one file and nothing else, or fails and writes
    nothing. *)
Lemma np_save_result (path : string) (obj : pyobj) (w w' : world) r :
  np_save path obj w = (r, w') ->
  (r = Ok tt /\ w' = mk_world (<[path := File obj]> (fs w)) (stdout w)) \/
  ((exists e, r = Err e) /\ w' = w).
Proof.
  unfold np_save. intros H.
  destruct (fs w !! path) as [[|c]|];
    [inversion H; subst; right; eauto | |];
    (destruct (if String.eqb (dirname path) "" then Some Dir
               else fs w !! dirname path) as [[|c']|];
     inversion H; subst; [left; auto | right; eauto | right; eauto]).
Qed.

Lemma np_save_defined (path : string) (obj : pyobj) (w : world) :
  fs w !! path <> Some Dir -> fs w !! dirname path = Some Dir ->
  np_save path obj w = (Ok tt, mk_world (<[path := File obj]> (fs w)) (stdout w)).
Proof.
  intros Hp Hd. unfold np_save.
  assert (Hdir : (if String.eqb (dirname path) "" then Some Dir
                  else fs w !! dirname path) = Some Dir)
    by (destruct (String.eqb (dirname path) ""); [reflexivity | exact Hd]).
  rewrite Hdir.
  destruct (fs w !! path) as [[|c]|]; [congruence | reflexivity | reflexivity].
Qed.

(** One round of the loop of lines 177-181. *)
Lemma save_object_result (model : list (string * pyobj)) (fldr_name : string)
    (u : unit) (key : string) (w w' : world) r :
  save_object model fldr_name u key w = (r, w') ->
  (str_in key do_not_save = true /\ r = Ok tt /\ w' = w) \/
  (str_in key do_not_save = false /\
   ((exists obj size,
       dict_get key model = Ok obj /\ nbytes obj = Ok size /\ r = Ok tt /\
       w' = mk_world (<[npy_path fldr_name key := File obj]> (fs w))
              (stdout w ++ [SavingModelObject key size])) \/
    ((exists e, r = Err e) /\ fs w' = fs w))).
Proof.
  unfold save_object. destruct (str_in key do_not_save) eqn:Hskip; simpl.
  - unfold ret. intros H. inversion H; subst. left. auto.
  - intros H. right. split; [reflexivity|].
    unfold bind, lift, print in H.
    destruct (dict_get key model) as [obj|e] eqn:Hget;
      [|inversion H; subst; right; eauto].
    destruct (nbytes obj) as [size|e] eqn:Hsize;
      [|inversion H; subst; right; eauto].
    apply np_save_result in H as [[-> ->]|[[e ->] ->]].
    + left. exists obj, size. auto.
    + right. split; [eauto | reflexivity].
Qed.

Lemma mfold_save_Ok (model : list (string * pyobj)) (fldr_name : string)
    (keys : list string) :
  forall u u' (w w' : world),
    mfold (save_object model fldr_name) u keys w = (Ok u', w') ->
    exists lines,
      stdout w' = stdout w ++ lines /\
      Forall2 (saving_line model)
        (List.filter (fun key => negb (str_in key do_not_save)) keys) lines /\
      (forall key, In key keys -> str_in key do_not_save = false ->
         exists obj, dict_get key model = Ok obj /\
                     fs w' !! npy_path fldr_name key = Some (File obj)) /\
      (forall p, (forall key, In key keys -> str_in key do_not_save = false ->
                    p <> npy_path fldr_name key) ->
         fs w' !! p = fs w !! p).
Proof.
  induction keys as [|key keys IH]; intros u u' w w' H.
  - simpl in H. unfold ret in H. inversion H; subst.
    exists []. rewrite app_nil_r. split; [reflexivity|].
    split; [constructor|]. split; [intros ? []|reflexivity].
  - simpl in H. unfold bind in H.
    destruct (save_object model fldr_name u key w) as [[u1|e] w1] eqn:E;
      [|discriminate].
    destruct (IH _ _ _ _ H) as (lines & Hout & Hlines & Hfiles & Hframe).
    apply save_object_result in E as [(Hskip & _ & ->)|(Hskip & [E|[[e He] _]])];
      [| |discriminate].
    + exists lines. cbn [List.filter]. rewrite Hskip. cbn [negb].
      split; [exact Hout|]. split; [exact Hlines|]. split.
      * intros k [<-|Hk] Hk'; [congruence | now apply Hfiles].
      * intros p Hp. apply Hframe. intros k Hk. apply Hp. now right.
    + destruct E as (obj & size & Hget & Hsize & _ & ->).
      cbn [fs stdout] in *.
      exists (SavingModelObject key size :: lines).
      cbn [List.filter]. rewrite Hskip. cbn [negb].
      split; [rewrite Hout, <- app_assoc; reflexivity|].
      split; [constructor; [exists obj, size; auto | exact Hlines]|].
      split.
      * intros k [<-|Hk] Hk'; [|now apply Hfiles].
        exists obj. split; [exact Hget|].
        destruct (in_dec string_dec key keys) as [Hin|Hnin].
        -- destruct (Hfiles key Hin Hskip) as (obj' & Hget' & Hf). congruence.
        -- rewrite Hframe.
           ++ apply lookup_insert_eq.
           ++ intros k Hk _ Heq. apply npy_path_inj in Heq. congruence.
      * intros p Hp. rewrite Hframe by (intros k Hk; apply Hp; now right).
        apply lookup_insert_ne. intros Heq. symmetry in Heq.
        revert Heq. apply Hp; [now left | exact Hskip].
Qed.

(** Whatever the outcome, the loop changes only the files of the keys it
    saves. *)
Lemma mfold_save_frame (model : list (string * pyobj)) (fldr_name : string)
    (keys : list string) :
  forall u r (w w' : world),
    mfold (save_object model fldr_name) u keys w = (r, w') ->
    forall p, (forall key, In key keys -> str_in key do_not_save = false ->
                 p <> npy_path fldr_name key) ->
      fs w' !! p = fs w !! p.
Proof.
  induction keys as [|key keys IH]; intros u r w w' H p Hp.
  - simpl in H. unfold ret in H. now inversion H; subst.
  - simpl in H. unfold bind in H.
    destruct (save_object model fldr_name u key w) as [[u1|e] w1] eqn:E.
    + rewrite (IH _ _ _ _ H) by (intros k Hk; apply Hp; now right).
      apply save_object_result in E as [(_ & _ & ->)|(Hskip & [E|[_ E]])];
        [reflexivity | | now rewrite E].
      destruct E as (obj & size & _ & _ & _ & ->). cbn [fs].
      apply lookup_insert_ne. intros Heq. symmetry in Heq.
      revert Heq. apply Hp; [now left | exact Hskip].
    + inversion H; subst.
      apply save_object_result in E as [(_ & _ & ->)|(Hskip & [E|[_ E]])];
        [reflexivity | | now rewrite E].
      destruct E as (obj & size & _ & _ & Hr & _). discriminate.
Qed.

(** The loop runs through when every saved key holds an array and the
    folder is a directory in which no saved file's path is a directory. *)
Lemma mfold_save_defined (model : list (string * pyobj)) (fldr_name : string)
    (keys : list string) :
  fldr_name <> "" ->
  (forall key, In key keys -> str_in key do_not_save = false ->
     has_slash key = false /\
     exists obj size, dict_get key model = Ok obj /\ nbytes obj = Ok size) ->
  forall u (w : world),
    fs w !! fldr_name = Some Dir ->
    (forall key, fs w !! npy_path fldr_name key <> Some Dir) ->
    exists w', mfold (save_object model fldr_name) u keys w = (Ok tt, w').
Proof.
  intros Hne. induction keys as [|key keys IH]; intros Hkeys u w Hdir Hfiles.
  - destruct u. exists w. reflexivity.
  - simpl. unfold bind.
    assert (Hstep : exists w1,
               save_object model fldr_name u key w = (Ok tt, w1) /\
               fs w1 !! fldr_name = Some Dir /\
               (forall k, fs w1 !! npy_path fldr_name k <> Some Dir)).
    { unfold save_object. destruct (str_in key do_not_save) eqn:Hskip; simpl.
      - exists w. unfold ret. destruct u. auto.
      - destruct (Hkeys key (or_introl eq_refl) Hskip)
          as (Hslash & obj & size & Hget & Hsize).
        unfold bind, lift, print. rewrite Hget, Hsize.
        eexists. split.
        + change (fldr_name +:+ "/" +:+ key +:+ ".npy") with (npy_path fldr_name key).
          apply np_save_defined; cbn [fs].
          * apply Hfiles.
          * rewrite dirname_npy_path by assumption. exact Hdir.
        + cbn [fs]. split.
          * rewrite lookup_insert_ne; [exact Hdir|].
            intros E. apply (npy_path_not_folder fldr_name key). left. now symmetry.
          * intros k. destruct (decide (npy_path fldr_name key = npy_path fldr_name k)) as [E|E].
            -- rewrite E, lookup_insert_eq. discriminate.
            -- rewrite lookup_insert_ne by exact E. apply Hfiles. }
    destruct Hstep as (w1 & -> & Hdir1 & Hfiles1).
    apply IH; [|assumption|assumption].
    intros k Hk. apply Hkeys. now right.
Qed.

End SaveRuns.

Section SaveTheorems.
Context {Sc : Scalar}.

Lemma dict_get_In {V} (key : string) (d : list (string * V)) :
  In key (map fst d) -> exists v, dict_get key d = Ok v /\ In (key, v) d.
Proof.
  induction d as [|[k v] d IH]; simpl; intros H; [destruct H|].
  destruct (String.eqb_spec k key) as [->|Hne].
  - exists v. auto.
  - destruct H as [E|H]; [contradiction|].
    destruct (IH H) as (v' & Hget & Hin). exists v'. auto.
Qed.

Lemma saved_keys_In (model : list (string * pyobj)) (key : string) :
  In key (saved_keys model)
  <-> In key (map fst model) /\ str_in key do_not_save = false.
Proof.
  unfold saved_keys. rewrite filter_In, negb_true_iff. reflexivity.
Qed.

Lemma str_in_In (c : string) (l : list string) : str_in c l = true <-> In c l.
Proof.
  unfold str_in. rewrite existsb_exists. split.
  - intros (x & Hx & E). apply String.eqb_eq in E. now subst.
  - intros H. exists c. split; [exact H | apply String.eqb_refl].
Qed.

(** What a successful call went through. *)
Lemma saveHarmonizationModel_Ok (model : list (string * pyobj))
    (fldr_name : string) (w w' : world) :
  saveHarmonizationModel model fldr_name w = (Ok tt, w') ->
  exists w1,
    fs w !! fldr_name = None /\
    os_makedirs fldr_name w = (Ok tt, w1) /\
    mfold (save_object model fldr_name) tt (map fst model) w1 = (Ok tt, w').
Proof.
  unfold saveHarmonizationModel. intros H.
  apply bind_Ok in H as (found & w0 & Hfound & H).
  apply bind_Ok in H as ([] & w1 & Hmk & H).
  apply bind_Ok in H as ([] & w2 & Hfold & H).
  unfold ret in H. inversion H; subst; clear H.
  unfold os_path_exists in Hfound. inversion Hfound; subst; clear Hfound.
  destruct (fs w0 !! fldr_name) eqn:E; [unfold raise in Hmk; discriminate|].
  exists w1. auto.
Qed.

Lemma saveHarmonizationModel_defined
    (model : list (string * pyobj)) (fldr_name : string) (w : world) :
  fresh_folder fldr_name w ->
  fldr_name <> "" ->
  (forall a c, In a (ancestors fldr_name) -> fs w !! a <> Some (File c)) ->
  savable model = true ->
  exists w', saveHarmonizationModel model fldr_name w = (Ok tt, w').
Proof.
  intros [Hnone Hbelow] Hne Hanc Hsav.
  destruct (os_makedirs_defined fldr_name w Hnone Hne Hanc) as [w1 Hmk].
  pose proof (os_makedirs_Ok _ _ _ Hmk) as [_ Hfs1].
  destruct (mfold_save_defined model fldr_name (map fst model) Hne) with (u := tt) (w := w1)
    as [w' Hfold].
  - intros key Hkey Hskip.
    destruct (dict_get_In key model Hkey) as (obj & Hget & Hin).
    unfold savable in Hsav. rewrite forallb_forall in Hsav.
    specialize (Hsav _ Hin). cbn [fst snd] in Hsav.
    rewrite Hskip in Hsav. cbn [orb] in Hsav.
    apply andb_true_iff in Hsav as [Hslash Hsize].
    apply negb_true_iff in Hslash. split; [exact Hslash|].
    destruct (nbytes obj) as [size|] eqn:E; [|discriminate]. eauto.
  - rewrite Hfs1. destruct (in_dec _ _ _) as [_|H]; [reflexivity|].
    exfalso. apply H. now left.
  - intros key. rewrite Hfs1.
    destruct (in_dec _ _ _) as [H|_];
      [exfalso; exact (npy_path_not_folder _ _ H)|].
    rewrite Hbelow; [discriminate|]. now apply In_ancestors_from_slash.
  - exists w'. unfold saveHarmonizationModel, bind, os_path_exists, ret.
    rewrite Hnone, Hmk, Hfold. reflexivity.
Qed.

Lemma saveHarmonizationModel_files
    (model : list (string * pyobj)) (fldr_name : string) (w w' : world) :
  saveHarmonizationModel model fldr_name w = (Ok tt, w') ->
  fs w' !! fldr_name = Some Dir /\
  forall key, In key (saved_keys model) ->
    exists obj, dict_get key model = Ok obj /\
                fs w' !! npy_path fldr_name key = Some (File obj).
Proof.
  intros H. apply saveHarmonizationModel_Ok in H as (w1 & _ & Hmk & Hfold).
  apply os_makedirs_Ok in Hmk as [_ Hfs1].
  apply mfold_save_Ok in Hfold as (lines & _ & _ & Hfiles & Hframe).
  split.
  - rewrite Hframe.
    + rewrite Hfs1. destruct (in_dec _ _ _) as [_|H]; [reflexivity|].
      exfalso. apply H. now left.
    + intros key _ _ E. apply (npy_path_not_folder fldr_name key).
      left. exact E.
  - intros key Hkey. apply saved_keys_In in Hkey as [Hkey Hskip].
    now apply Hfiles.
Qed.


(** After a successful save the folder is a directory that holds, for
    every saved key, the file [key.npy] with the object of that key. *)
Theorem saveHarmonizationModel_writes_files
    (model : list (string * pyobj)) (fldr_name : string) (w w' : world) :
  saveHarmonizationModel model fldr_name w = (Ok tt, w') ->
  fs w' !! fldr_name = Some Dir /\
  forall key, In key (saved_keys model) ->
    exists obj, dict_get key model = Ok obj /\
                fs w' !! npy_path fldr_name key = Some (File obj).
Proof. apply saveHarmonizationModel_files. Qed.

(** A successful save prints one line per saved key, in the order of
    the model, and nothing else. *)
Theorem saveHarmonizationModel_console
    (model : list (string * pyobj)) (fldr_name : string) (w w' : world) :
  saveHarmonizationModel model fldr_name w = (Ok tt, w') ->
  exists lines,
    stdout w' = stdout w ++ lines /\
    Forall2 (saving_line model) (saved_keys model) lines.
Proof.
  intros H. apply saveHarmonizationModel_Ok in H as (w1 & _ & Hmk & Hfold).
  apply os_makedirs_Ok in Hmk as [Hout1 _].
  apply mfold_save_Ok in Hfold as (lines & Hout & Hlines & _ & _).
  exists lines. split; [congruence | exact Hlines].
Qed.

(** Whatever the outcome, only the folder, the directories above it and
    the files of the saved keys can change; no file is written for a key
    of [do_not_save]. *)
Theorem saveHarmonizationModel_frame
    (model : list (string * pyobj)) (fldr_name : string) (w : world) :
  let w' := snd (saveHarmonizationModel model fldr_name w) in
  (forall p, ~ In p (fldr_name :: ancestors fldr_name) ->
     (forall key, In key (saved_keys model) -> p <> npy_path fldr_name key) ->
     fs w' !! p = fs w !! p) /\
  (forall key, In key do_not_save ->
     fs w' !! npy_path fldr_name key = fs w !! npy_path fldr_name key).
Proof.
  cbv zeta.
  assert (Hframe : forall p, ~ In p (fldr_name :: ancestors fldr_name) ->
            (forall key, In key (map fst model) -> str_in key do_not_save = false ->
               p <> npy_path fldr_name key) ->
            fs (snd (saveHarmonizationModel model fldr_name w)) !! p = fs w !! p).
  { intros p Hp Hkeys. unfold saveHarmonizationModel, bind, os_path_exists.
    destruct (fs w !! fldr_name) eqn:E; [reflexivity|].
    destruct (os_makedirs fldr_name w) as [[[]|e] w1] eqn:Hmk.
    - apply os_makedirs_Ok in Hmk as [_ Hfs1].
      destruct (mfold (save_object model fldr_name) tt (map fst model) w1)
        as [[u|e] w2] eqn:Hfold; cbn [snd ret];
        rewrite (mfold_save_frame _ _ _ _ _ _ _ Hfold p Hkeys), Hfs1;
        destruct (in_dec _ _ _) as [H|_]; tauto.
    - apply os_makedirs_Err in Hmk. now subst. }
  split.
  - intros p Hp Hkeys. apply Hframe; [exact Hp|].
    intros key Hkey Hskip. apply Hkeys. now apply saved_keys_In.
  - intros key Hkey. apply Hframe; [apply npy_path_not_folder|].
    intros k _ Hskip E. apply npy_path_inj in E. subst k.
    apply str_in_In in Hkey. congruence.
Qed.


End SaveTheorems.

Section Counting.
Context {A : Type} `{EqDecision A}.

Lemma sum_indicator (a : A) (u : list A) :
  List.NoDup u -> In a u ->
  list_sum (map (fun x => if decide (a = x) then 1 else 0) u) = 1.
Proof.
  induction 1 as [|y u Hy Hnd IH]; simpl; intros Ha; [destruct Ha|].
  destruct (decide (a = y)) as [->|Hne].
  - assert (E : map (fun x => if decide (y = x) then 1 else 0) u = map (fun _ => 0) u).
    { apply map_ext_in. intros x Hx. destruct (decide (y = x)); [subst; tauto | reflexivity]. }
    rewrite E. clear. induction u; simpl; auto.
  - destruct Ha as [E|Ha]; [congruence|]. now rewrite IH.
Qed.

Lemma list_sum_map_add {B} (f g : B -> nat) (u : list B) :
  list_sum (map (fun x => f x + g x) u) = list_sum (map f u) + list_sum (map g u).
Proof. induction u as [|x u IH]; simpl; [reflexivity | rewrite IH; lia]. Qed.

(** The counts of the distinct values add up to the length. *)
Lemma list_sum_counts (l u : list A) :
  List.NoDup u -> (forall x, In x l -> In x u) ->
  list_sum (map (fun x => count_occ (fun x y => decide (x = y)) l x) u)
  = List.length l.
Proof.
  intros Hnd. induction l as [|a l IH]; intros Hin.
  - simpl. clear. induction u; simpl; auto.
  - assert (E : map (fun x => count_occ (fun x y => decide (x = y)) (a :: l) x) u
                = map (fun x => (if decide (a = x) then 1 else 0)
                                + count_occ (fun x y => decide (x = y)) l x) u).
    { apply map_ext. intros x. simpl. destruct (decide (a = x)); reflexivity. }
    rewrite E.
    rewrite (list_sum_map_add (fun x => if decide (a = x) then 1 else 0)
               (fun x => count_occ (fun x y => decide (x = y)) l x)).
    rewrite sum_indicator; [|exact Hnd|apply Hin; now left].
    rewrite IH; [reflexivity|]. intros x Hx. apply Hin. now right.
Qed.

Lemma unique_counts_sum (le : A -> A -> bool) (l : list A) :
  list_sum (unique_counts le l) = List.length l.
Proof.
  unfold unique_counts. apply list_sum_counts.
  - apply np_unique_NoDup.
  - intros x Hx. now apply np_unique_In.
Qed.

Lemma unique_counts_nth (le : A -> A -> bool) (l : list A) (d : A) (b : nat) :
  b < List.length (np_unique le l) ->
  nth b (unique_counts le l) 0
  = count_occ (fun x y => decide (x = y)) l (nth b (np_unique le l) d).
Proof.
  intros Hb. unfold unique_counts.
  rewrite (nth_indep _ 0 (count_occ (fun x y => decide (x = y)) l d))
    by (now rewrite length_map).
  apply (map_nth (fun u => count_occ (fun x y => decide (x = y)) l u)).
Qed.

Lemma unique_counts_positive (le : A -> A -> bool) (l : list A) (b : nat) :
  b < List.length (np_unique le l) -> 1 <= nth b (unique_counts le l) 0.
Proof.
  intros Hb. destruct (np_unique le l) as [|d us] eqn:E; [simpl in Hb; lia|].
  rewrite <- E in *. rewrite (unique_counts_nth le l d b Hb).
  apply count_occ_In. apply (np_unique_In le). now apply nth_In.
Qed.

Lemma nth_index_of (d : A) (x : A) (l : list A) :
  In x l -> nth (index_of x l) l d = x.
Proof.
  induction l as [|y l IH]; simpl; intros H; [destruct H|].
  destruct (decide (x = y)) as [->|Hne]; [reflexivity|].
  destruct H as [E|H]; [congruence | now apply IH].
Qed.

(** Two elements get the same code exactly when they are equal. *)
Lemma unique_inverse_same (le : A -> A -> bool) (l : list A) (d : A) (i j : nat) :
  i < List.length l -> j < List.length l ->
  (nth i (unique_inverse le l) 0 = nth j (unique_inverse le l) 0
   <-> nth i l d = nth j l d).
Proof.
  intros Hi Hj. unfold unique_inverse.
  rewrite (nth_indep _ 0 (index_of d (np_unique le l))) by (now rewrite length_map).
  rewrite (nth_indep (map _ l) 0 (index_of d (np_unique le l)))
    by (now rewrite length_map).
  rewrite !(map_nth (fun x => index_of x (np_unique le l))).
  split; [|now intros ->].
  intros E.
  pose proof (nth_index_of d (nth i l d) (np_unique le l)) as Ei.
  pose proof (nth_index_of d (nth j l d) (np_unique le l)) as Ej.
  rewrite <- Ei, E; [apply Ej|]; apply np_unique_In; now apply nth_In.
Qed.

End Counting.

Lemma filter_seq_count (l : list nat) (b : nat) :
  List.length (List.filter (fun i => nth i l 0 =? b) (seq 0 (List.length l)))
  = count_occ (fun x y => decide (x = y)) l b.
Proof.
  induction l as [|a l IH]; [reflexivity|].
  cbn [List.length seq]. rewrite <- seq_shift. cbn [List.filter nth].
  rewrite filter_map_S. cbn [nth]. rewrite count_occ_cons_eq_or_neq || idtac.
  simpl count_occ.
  destruct (a =? b) eqn:E.
  - apply Nat.eqb_eq in E. subst. destruct (decide (b = b)); [|congruence].
    simpl. now rewrite length_map, IH.
  - apply Nat.eqb_neq in E. destruct (decide (a = b)); [congruence|].
    now rewrite length_map, IH.
Qed.

Lemma filter_seq_sorted (f : nat -> bool) (a n : nat) :
  StronglySorted lt (List.filter f (seq a n)).
Proof.
  revert a. induction n as [|n IH]; intros a; simpl; [constructor|].
  destruct (f a); [|apply IH].
  constructor; [apply IH|].
  apply List.Forall_forall. intros x Hx. apply filter_In in Hx as [Hx _].
  apply in_seq in Hx. lia.
Qed.

Section SiteLabels.
Context {Sc : Scalar} {SM : Statsmodels} {NC : NeuroCombat}.

Lemma all_str_map (l : list cell) (r : list string) :
  all_str l = Some r -> l = map PyStr r.
Proof.
  revert r. induction l as [|x l IH]; simpl; intros r H.
  - now inversion H.
  - destruct x; try discriminate. destruct (all_str l) as [r'|]; [|discriminate].
    inversion H; subst. simpl. f_equal. now apply IH.
Qed.

Lemma all_int_map (l : list cell) (r : list Z) :
  all_int l = Some r -> l = map PyInt r.
Proof.
  revert r. induction l as [|x l IH]; simpl; intros r H.
  - now inversion H.
  - destruct x; try discriminate. destruct (all_int l) as [r'|]; [|discriminate].
    inversion H; subst. simpl. f_equal. now apply IH.
Qed.

Lemma all_float_map (l : list cell) (r : list F) :
  forallb is_float l = true -> all_num l = Some r -> l = map PyFloat r.
Proof.
  revert r. induction l as [|x l IH]; simpl; intros r Hk H.
  - now inversion H.
  - apply andb_true_iff in Hk as [Hx Hk].
    destruct x; try discriminate. destruct (all_num l) as [r'|]; [|discriminate].
    inversion H; subst. simpl. f_equal. now apply IH.
Qed.

Lemma all_str_defined (l : list cell) :
  forallb is_str l = true -> exists r, all_str l = Some r.
Proof.
  induction l as [|x l IH]; simpl; intros H; [eauto|].
  apply andb_true_iff in H as [Hx H]. destruct x; try discriminate.
  destruct (IH H) as [r ->]. eauto.
Qed.

Lemma all_int_defined (l : list cell) :
  forallb is_int l = true -> exists r, all_int l = Some r.
Proof.
  induction l as [|x l IH]; simpl; intros H; [eauto|].
  apply andb_true_iff in H as [Hx H]. destruct x; try discriminate.
  destruct (IH H) as [r ->]. eauto.
Qed.

Lemma nth_map_inj {A} (f : A -> cell) (d : A) (l : list A) (i j : nat) :
  (forall x y, f x = f y -> x = y) ->
  i < List.length l -> j < List.length l ->
  (nth i l d = nth j l d <-> nth i (map f l) (PyInt 0) = nth j (map f l) (PyInt 0)).
Proof.
  intros Hinj Hi Hj.
  rewrite (nth_indep (map f l) (PyInt 0) (f d)) by (now rewrite length_map).
  rewrite (nth_indep (map f l) (PyInt 0) (f d)) by (now rewrite length_map).
  rewrite !map_nth. split; [now intros -> | apply Hinj].
Qed.

(** Line 59 on labels of one kind: two samples get the same site code
    exactly when their labels are equal. *)
Lemma np_unique_inverse_same (site : list cell) (codes : list nat) (i j : nat) :
  np_unique_inverse site = Ok codes -> one_kind site = true ->
  i < List.length site -> j < List.length site ->
  (nth i codes 0 = nth j codes 0
   <-> nth i site (PyInt 0) = nth j site (PyInt 0)).
Proof.
  unfold np_unique_inverse, one_kind. intros H Hkind Hi Hj.
  destruct (all_str site) as [l|] eqn:E1.
  { injection H as <-. pose proof (all_str_map _ _ E1) as ->.
    rewrite length_map in Hi, Hj.
    rewrite (unique_inverse_same String.leb l EmptyString i j Hi Hj).
    apply nth_map_inj; [intros x y E; now inversion E | assumption | assumption]. }
  destruct (all_int site) as [l|] eqn:E2.
  { injection H as <-. pose proof (all_int_map _ _ E2) as ->.
    rewrite length_map in Hi, Hj.
    rewrite (unique_inverse_same Z.leb l 0%Z i j Hi Hj).
    apply nth_map_inj; [intros x y E; now inversion E | assumption | assumption]. }
  destruct (all_num site) as [l|] eqn:E3; [|discriminate].
  injection H as <-.
  assert (Hf : forallb is_float site = true).
  { apply orb_true_iff in Hkind as [Hkind|Hkind]; [|exact Hkind].
    apply orb_true_iff in Hkind as [Hkind|Hkind].
    - apply all_str_defined in Hkind as [r Hr]. congruence.
    - apply all_int_defined in Hkind as [r Hr]. congruence. }
  pose proof (all_float_map _ _ Hf E3) as ->.
  rewrite length_map in Hi, Hj.
  rewrite (unique_inverse_same leb l zero i j Hi Hj).
  apply nth_map_inj; [intros x y E; now inversion E | assumption | assumption].
Qed.

Lemma nth_column (a : ndarray cell) (bc : nat) (site : list cell) (i : nat) :
  column (PyInt 0) a bc = Ok site -> i < shape0 a ->
  nth i site (PyInt 0) = cell_at a i bc.
Proof.
  unfold column. destruct (bc <? shape1 a); [|discriminate].
  intros H Hi. injection H as <-.
  rewrite (nth_indep _ (PyInt 0) (get (PyInt 0) a 0 bc))
    by (now rewrite length_map, length_seq).
  rewrite (map_nth (fun i => get (PyInt 0) a i bc)).
  now rewrite seq_nth.
Qed.

(** The mixed case: a string beside a number cannot be sorted. *)
Lemma np_unique_inverse_mixed (site : list cell) (i j : nat) (s : string) :
  i < List.length site -> j < List.length site ->
  nth i site (PyInt 0) = PyStr s -> is_str (nth j site (PyInt 0)) = false ->
  exists msg, np_unique_inverse site = Err (TypeError msg).
Proof.
  intros Hi Hj Hs Hn. unfold np_unique_inverse.
  destruct (all_str site) as [l|] eqn:E1.
  { exfalso. pose proof (all_str_map _ _ E1) as E. subst site.
    rewrite length_map in Hj.
    rewrite (nth_indep _ (PyInt 0) (PyStr EmptyString)) in Hn
      by (now rewrite length_map).
    rewrite map_nth in Hn. discriminate. }
  destruct (all_int site) as [l|] eqn:E2.
  { exfalso. pose proof (all_int_map _ _ E2) as E. subst site.
    change (PyInt 0) with (PyInt 0%Z) in Hs.
    rewrite (map_nth PyInt) in Hs. discriminate. }
  destruct (all_num site) as [l|] eqn:E3; [|eauto].
  exfalso. clear E1 E2 Hj Hn j. revert i l Hi Hs E3.
  induction site as [|x site IH]; intros i l Hi Hs E3; [simpl in Hi; lia|].
  simpl in E3. destruct i as [|i].
  - simpl in Hs. subst x. discriminate.
  - destruct x; try discriminate;
      (destruct (all_num site) as [l'|] eqn:E; [|discriminate]);
      (eapply IH; [|exact Hs|reflexivity]; simpl in Hi; lia).
Qed.

End SiteLabels.

Section InfoDict.
Context {Sc : Scalar} {SM : Statsmodels} {NC : NeuroCombat}.

(** The batch information of lines 61-68, in terms of the site codes. *)
Lemma prepare_info (covars : DataFrame) (st : list string) (p : prepared_t) :
  prepare covars st = Ok p ->
  exists bc site codes n,
    columns_get_loc (columns covars) "SITE" = Ok bc /\
    column (PyInt 0) (values covars) bc = Ok site /\
    np_unique_inverse site = Ok codes /\
    List.length site = shape0 (values covars) /\
    List.length codes = shape0 (values covars) /\
    np_unique Nat.leb codes = seq 0 n /\
    p_info_dict p =
      mk_info_dict (seq 0 n) n (shape0 (values covars)) (unique_counts Nat.leb codes)
        (map (fun idx => List.filter (fun i => nth i codes 0 =? idx)
                           (seq 0 (List.length codes))) (seq 0 n)).
Proof.
  intros Hp.
  apply prepare_Ok in Hp
    as (bc & nc & sc & site & codes & covars' & design & Hbc & _ & _ & Hsite
        & Hcodes & Hset & _ & _ & Hinfo & _).
  pose proof (np_unique_inverse_levels _ _ Hcodes) as [Hlen Hlev].
  pose proof (column_length _ _ _ _ Hsite) as Hsite_len.
  pose proof (set_column_shape _ _ _ _ _ Hset) as Hshape.
  unfold shape in Hshape. injection Hshape as Hs0 Hs1.
  exists bc, site, codes, (List.length (np_unique Nat.leb codes)).
  repeat (split; [assumption || congruence|]).
  rewrite Hinfo, Hs0. rewrite <- Hlev. reflexivity.
Qed.

Lemma nth_batch_info (codes : list nat) (n b : nat) :
  b < n ->
  nth b (map (fun idx => List.filter (fun i => nth i codes 0 =? idx)
                           (seq 0 (List.length codes))) (seq 0 n)) []
  = List.filter (fun i => nth i codes 0 =? b) (seq 0 (List.length codes)).
Proof.
  intros Hb.
  rewrite (nth_indep _ [] ((fun idx => List.filter (fun i => nth i codes 0 =? idx)
                                         (seq 0 (List.length codes))) 0))
    by (now rewrite length_map, length_seq).
  rewrite (map_nth (fun idx => List.filter (fun i => nth i codes 0 =? idx)
                                 (seq 0 (List.length codes)))).
  now rewrite seq_nth.
Qed.

Lemma In_batch (codes : list nat) (b i : nat) :
  In i (List.filter (fun i => nth i codes 0 =? b) (seq 0 (List.length codes)))
  <-> i < List.length codes /\ nth i codes 0 = b.
Proof.
  rewrite filter_In, in_seq, Nat.eqb_eq. lia.
Qed.

Lemma code_lt (codes : list nat) (n i : nat) :
  np_unique Nat.leb codes = seq 0 n -> i < List.length codes ->
  nth i codes 0 < n.
Proof.
  intros Hlev Hi.
  assert (H : In (nth i codes 0) (np_unique Nat.leb codes))
    by (apply np_unique_In; now apply nth_In).
  rewrite Hlev in H. apply in_seq in H. lia.
Qed.

(** The counts of [info_dict]: [n_sample] is the number of rows of the
    table, the batch levels are the codes [0 .. n_batch-1],
    [sample_per_batch] and [batch_info] have one entry per site, and the
    counts are at least 1 and add up to [n_sample]. *)
Theorem prepare_info_dict_counts (covars : DataFrame) (st : list string)
    (p : prepared_t) :
  prepare covars st = Ok p ->
  let info := p_info_dict p in
  n_sample info = shape0 (values covars) /\
  batch_levels info = seq 0 (n_batch info) /\
  List.length (sample_per_batch info) = n_batch info /\
  List.length (batch_info info) = n_batch info /\
  list_sum (sample_per_batch info) = n_sample info /\
  (forall b, b < n_batch info -> 1 <= nth b (sample_per_batch info) 0) /\
  n_batch info <= n_sample info /\
  (0 < n_sample info -> 0 < n_batch info).
Proof.
  intros Hp. cbv zeta.
  destruct (prepare_info _ _ _ Hp)
    as (bc & site & codes & n & _ & _ & _ & _ & Hlen & Hlev & ->).
  cbn [n_sample batch_levels sample_per_batch batch_info n_batch].
  assert (Hn : List.length (np_unique Nat.leb codes) = n)
    by (now rewrite Hlev, length_seq).
  split; [reflexivity|]. split; [reflexivity|].
  split; [now rewrite unique_counts_length|].
  split; [now rewrite length_map, length_seq|].
  split; [now rewrite unique_counts_sum|].
  split; [intros b Hb; apply unique_counts_positive; lia|].
  split.
  - rewrite <- Hn, <- Hlen. apply NoDup_incl_length; [apply np_unique_NoDup|].
    intros x Hx. now apply np_unique_In in Hx.
  - intros Hpos. destruct codes as [|c codes]; [simpl in Hlen; lia|].
    assert (H : In c (np_unique Nat.leb (c :: codes)))
      by (apply np_unique_In; now left).
    rewrite Hlev in H. apply in_seq in H. lia.
Qed.

(** [batch_info] is a partition of the samples by site, and its parts
    have the sizes of [sample_per_batch]. *)
Theorem prepare_batch_info_partition (covars : DataFrame) (st : list string)
    (p : prepared_t) :
  prepare covars st = Ok p ->
  let info := p_info_dict p in
  (forall b, b < n_batch info ->
     List.length (nth b (batch_info info) []) = nth b (sample_per_batch info) 0 /\
     StronglySorted lt (nth b (batch_info info) []) /\
     forall i, In i (nth b (batch_info info) []) -> i < n_sample info) /\
  (forall i, i < n_sample info ->
     exists b, b < n_batch info /\
       forall b', b' < n_batch info ->
         (In i (nth b' (batch_info info) []) <-> b' = b)).
Proof.
  intros Hp. cbv zeta.
  destruct (prepare_info _ _ _ Hp)
    as (bc & site & codes & n & _ & _ & _ & _ & Hlen & Hlev & ->).
  cbn [n_sample batch_levels sample_per_batch batch_info n_batch].
  assert (Hn : List.length (np_unique Nat.leb codes) = n)
    by (now rewrite Hlev, length_seq).
  split.
  - intros b Hb. rewrite nth_batch_info by exact Hb.
    split; [|split].
    + rewrite filter_seq_count, (unique_counts_nth Nat.leb codes 0 b) by lia.
      rewrite Hlev, seq_nth by exact Hb. reflexivity.
    + apply filter_seq_sorted.
    + intros i Hi. apply In_batch in Hi. lia.
  - intros i Hi. exists (nth i codes 0).
    split; [apply code_lt; [exact Hlev | lia]|].
    intros b' Hb'. rewrite nth_batch_info by exact Hb'.
    rewrite In_batch. split; [intros [_ E]; now symmetry | intros ->; split; [lia | reflexivity]].
Qed.

(** When the site labels are of one kind, two samples are listed under
    the same site exactly when their SITE labels are equal. *)
Theorem prepare_batch_info_by_label (covars : DataFrame) (st : list string)
    (p : prepared_t) (bc : nat) (site : list cell) :
  prepare covars st = Ok p ->
  columns_get_loc (columns covars) "SITE" = Ok bc ->
  column (PyInt 0) (values covars) bc = Ok site ->
  one_kind site = true ->
  forall i j, i < shape0 (values covars) -> j < shape0 (values covars) ->
    (same_batch (p_info_dict p) i j
     <-> cell_at (values covars) i bc = cell_at (values covars) j bc).
Proof.
  intros Hp Hbc Hsite Hkind i j Hi Hj.
  destruct (prepare_info _ _ _ Hp)
    as (bc' & site' & codes & n & Hbc' & Hsite' & Hcodes & Hslen & Hlen & Hlev & Hinfo).
  rewrite Hbc in Hbc'. injection Hbc' as <-.
  rewrite Hsite in Hsite'. injection Hsite' as <-.
  rewrite <- (nth_column _ _ _ i Hsite Hi), <- (nth_column _ _ _ j Hsite Hj).
  rewrite <- (np_unique_inverse_same site codes i j Hcodes Hkind) by lia.
  unfold same_batch. rewrite Hinfo.
  cbn [n_sample batch_levels sample_per_batch batch_info n_batch].
  split.
  - intros (b & Hb & Hib & Hjb). rewrite nth_batch_info in Hib, Hjb by exact Hb.
    apply In_batch in Hib, Hjb. lia.
  - intros E. exists (nth i codes 0).
    assert (Hb : nth i codes 0 < n) by (apply code_lt; [exact Hlev | lia]).
    split; [exact Hb|]. rewrite nth_batch_info by exact Hb.
    rewrite !In_batch. repeat split; try lia.
Qed.

End InfoDict.

Section Learn.
Context {Sc : Scalar} {SM : Statsmodels} {NC : NeuroCombat}.

Lemma rmap_get_loc_defined (P : string -> bool) (cols : list string) :
  exists r, rmap (columns_get_loc cols) (List.filter P cols) = Ok r.
Proof.
  destruct (rmap_defined (columns_get_loc cols) (fun _ => True) (List.filter P cols))
    as (r & Hr & _); [|eauto].
  intros c Hc. apply filter_In in Hc as [Hc _].
  destruct (get_loc_Some _ _ Hc) as (i & Hi & _).
  exists i. unfold columns_get_loc. rewrite Hi. auto.
Qed.

(** A SITE column that holds a string beside a number stops the call
    with a [TypeError] before anything is estimated. *)
Theorem harmonizationLearn_mixed_site_labels (data : ndarray F)
    (covars : DataFrame) (st : list string) (w : world) (bc i j : nat) (s : string) :
  columns_get_loc (columns covars) "SITE" = Ok bc ->
  bc < shape1 (values covars) ->
  i < shape0 (values covars) -> j < shape0 (values covars) ->
  cell_at (values covars) i bc = PyStr s ->
  is_str (cell_at (values covars) j bc) = false ->
  exists msg, harmonizationLearn data covars st w = (Err (TypeError msg), w).
Proof.
  intros Hbc Hlt Hi Hj Hs Hn.
  destruct (rmap_get_loc_defined (fun c => negb (String.eqb c "SITE")) (columns covars))
    as [nc Hnc].
  destruct (rmap_get_loc_defined (fun c => str_in c st) (columns covars))
    as [sc Hsc].
  assert (Hcol : exists site, column (PyInt 0) (values covars) bc = Ok site).
  { unfold column. apply Nat.ltb_lt in Hlt. rewrite Hlt. eauto. }
  destruct Hcol as [site Hsite].
  pose proof (column_length _ _ _ _ Hsite) as Hlen.
  destruct (np_unique_inverse_mixed site i j s) as [msg Hmsg]; try lia.
  { now rewrite (nth_column _ _ _ i Hsite Hi). }
  { now rewrite (nth_column _ _ _ j Hsite Hj). }
  exists msg. unfold harmonizationLearn, bind, lift, prepare.
  rewrite Hbc. cbn [rbind]. rewrite Hnc. cbn [rbind]. rewrite Hsc. cbn [rbind].
  rewrite Hsite. cbn [rbind]. rewrite Hmsg. reflexivity.
Qed.

Lemma smoothing_setup_fields (covars : ndarray cell) (design : ndarray F)
    (levels num_cols : list nat) (sm sm' : smooth_model_t) :
  smoothing_setup covars design levels num_cols sm = Ok sm' ->
  perform_smoothing sm' = perform_smoothing sm /\
  smooth_terms sm' = smooth_terms sm /\
  smooth_cols sm' = smooth_cols sm.
Proof.
  unfold smoothing_setup. intros H.
  repeat (apply rbind_Ok in H as (? & ? & H)).
  inversion H; subst. auto.
Qed.

Lemma prepare_smooth_model (covars : DataFrame) (st : list string) (p : prepared_t) :
  prepare covars st = Ok p ->
  perform_smoothing (p_smooth_model p) = (0 <? List.length st) /\
  smooth_terms (p_smooth_model p) = st /\
  rmap (columns_get_loc (columns covars))
    (List.filter (fun c => str_in c st) (columns covars))
  = Ok (smooth_cols (p_smooth_model p)).
Proof.
  intros Hp.
  apply prepare_Ok in Hp
    as (bc & nc & sc & site & codes & covars' & design & _ & _ & Hsc & _
        & _ & _ & _ & _ & _ & Hsm).
  destruct (0 <? List.length st).
  - apply smoothing_setup_fields in Hsm as (H1 & H2 & H3).
    rewrite H1, H2, H3. auto.
  - rewrite Hsm. auto.
Qed.


Lemma B_hat_smoothing_world (X : ndarray F) (sm : smooth_model_t) (w : world) :
  fs (snd (B_hat_smoothing X sm w)) = fs w /\
  stdout (snd (B_hat_smoothing X sm w))
  = stdout w ++ (if 10 <? shape0 X then smoothing_warning else []).
Proof.
  unfold B_hat_smoothing, bind, lift, print, ret.
  destruct (10 <? shape0 X); cbn [snd fs stdout].
  - split; [reflexivity|]. now rewrite <- app_assoc.
  - split; [reflexivity|]. now rewrite app_nil_r.
Qed.

Lemma StandardizeAcrossFeatures_world (X design : ndarray F) (info : info_dict_t)
    (sm : smooth_model_t) (w : world) :
  fs (snd (StandardizeAcrossFeatures X design info sm w)) = fs w /\
  stdout (snd (StandardizeAcrossFeatures X design info sm w))
  = stdout w ++ (if perform_smoothing sm && (10 <? shape0 X)
                 then smoothing_warning else []).
Proof.
  unfold StandardizeAcrossFeatures, bind, lift, ret.
  destruct (perform_smoothing sm); cbn [andb].
  - pose proof (B_hat_smoothing_world X sm w) as H.
    destruct (B_hat_smoothing X sm w) as [[db|e] w1]; exact H.
  - destruct (B_hat_linear X design); cbn [snd]; now rewrite app_nil_r.
Qed.

(** [StandardizeAcrossFeatures] writes no file, and prints the two
    lines of the warning exactly when smoothing is on and [X] has more than
    10 rows, whether the estimation then succeeds or not. *)
Theorem StandardizeAcrossFeatures_console (X design : ndarray F)
    (info : info_dict_t) (sm : smooth_model_t) (w : world) :
  let w' := snd (StandardizeAcrossFeatures X design info sm w) in
  fs w' = fs w /\
  stdout w' = stdout w ++ (if perform_smoothing sm && (10 <? shape0 X)
                           then smoothing_warning else []).
Proof. apply StandardizeAcrossFeatures_world. Qed.

Lemma harmonizationLearn_world (data : ndarray F) (covars : DataFrame)
    (st : list string) (w : world) :
  fs (snd (harmonizationLearn data covars st w)) = fs w /\
  stdout (snd (harmonizationLearn data covars st w))
  = stdout w ++ (if is_Ok (prepare covars st) && (0 <? List.length st)
                    && (10 <? shape1 data)
                 then smoothing_warning else []).
Proof.
  unfold harmonizationLearn, bind, lift, ret.
  destruct (prepare covars st) as [p|e] eqn:Hp; cbn [is_Ok andb snd].
  2:{ now rewrite app_nil_r. }
  destruct (prepare_smooth_model _ _ _ Hp) as (Hflag & _ & _).
  pose proof (StandardizeAcrossFeatures_world (transpose zero data) (p_design p)
                (p_info_dict p) (p_smooth_model p) w) as Hw.
  rewrite Hflag in Hw. cbn [transpose tabulate shape0] in Hw.
  destruct (StandardizeAcrossFeatures (transpose zero data) (p_design p)
              (p_info_dict p) (p_smooth_model p) w)
    as [[[[[[s stm] vp] B] g]|e] w1]; cbn [snd] in *; [|exact Hw].
  destruct (fit_LS_model_and_find_priors s (p_design p) (p_info_dict p))
    as [LS|e]; cbn [snd]; [|exact Hw].
  destruct (find_parametric_adjustments s LS (p_info_dict p)) as [[gs ds]|];
    cbn [snd]; exact Hw.
Qed.

(** [harmonizationLearn] writes no file; it prints nothing without smooth
    terms, and with smooth terms the warning, once, when the preparation
    succeeded and the data have more than 10 columns. What the routines of
    statsmodels and neuroCombat print themselves is not part of the model. *)
Theorem harmonizationLearn_console (data : ndarray F) (covars : DataFrame)
    (st : list string) (w : world) :
  let w' := snd (harmonizationLearn data covars st w) in
  fs w' = fs w /\
  stdout w' = stdout w ++ (if is_Ok (prepare covars st) && (0 <? List.length st)
                              && (10 <? shape1 data)
                           then smoothing_warning else []).
Proof. cbv zeta. apply harmonizationLearn_world. Qed.

(** What a successful call went through. *)
Lemma harmonizationLearn_Ok (data : ndarray F) (covars : DataFrame)
    (st : list string) (w w' : world) (model : list (string * pyobj))
    (bayes_data : ndarray F) :
  harmonizationLearn data covars st w = (Ok (model, bayes_data), w') ->
  exists p s stm vp B g gs ds,
    prepare covars st = Ok p /\
    StandardizeAcrossFeatures (transpose zero data) (p_design p) (p_info_dict p)
      (p_smooth_model p) w = (Ok (s, stm, vp, B, g), w') /\
    model =
      [("design", Array2 (p_design p)); ("s_data", Array2 s);
       ("stand_mean", Array2 stm); ("var_pooled", Array2 vp);
       ("B_hat", Array2 B); ("grand_mean", Array1 g);
       ("gamma_star", Array2 gs); ("delta_star", Array2 ds);
       ("n_batch", Int (n_batch (p_info_dict p)))].
Proof.
  intros H. unfold harmonizationLearn in H.
  apply bind_Ok in H as (p & w1 & Hp & H).
  apply lift_Ok in Hp as [Hp ->].
  apply bind_Ok in H as ([[[[s stm] vp] B] g] & w2 & Hstd & H).
  apply bind_Ok in H as (LS & w3 & HLS & H).
  apply lift_Ok in HLS as [_ ->].
  apply bind_Ok in H as ([gs ds] & w4 & Hgd & H).
  apply lift_Ok in Hgd as [_ ->].
  unfold ret in H. inversion H; subst; clear H.
  exists p, s, stm, vp, B, g, gs, ds. auto.
Qed.

(** The model of a successful call has the nine keys of lines 103-105, in
    that order, of which five pass the filter of [saveHarmonizationModel];
    [design] is the linear design, also with smoothing, [n_batch] is the
    number of batch levels, and without smooth terms [B_hat] has a row per
    column of [design]. *)
Theorem harmonizationLearn_model (data : ndarray F) (covars : DataFrame)
    (st : list string) (w w' : world) (model : list (string * pyobj))
    (bayes_data : ndarray F) :
  harmonizationLearn data covars st w = (Ok (model, bayes_data), w') ->
  map fst model = model_keys /\
  saved_keys model
  = ["var_pooled"; "B_hat"; "grand_mean"; "gamma_star"; "delta_star"] /\
  exists p B,
    prepare covars st = Ok p /\
    dict_get "design" model = Ok (Array2 (p_design p)) /\
    dict_get "n_batch" model = Ok (Int (n_batch (p_info_dict p))) /\
    n_batch (p_info_dict p) = List.length (batch_levels (p_info_dict p)) /\
    dict_get "B_hat" model = Ok (Array2 B) /\
    (st = [] -> shape0 B = shape1 (p_design p)).
Proof.
  intros H.
  apply harmonizationLearn_Ok in H
    as (p & s & stm & vp & B & g & gs & ds & Hp & Hstd & ->).
  split; [reflexivity|]. split; [reflexivity|].
  exists p, B. split; [exact Hp|]. split; [reflexivity|]. split; [reflexivity|].
  split.
  - destruct (prepare_info _ _ _ Hp) as (? & ? & ? & n & _ & _ & _ & _ & _ & _ & ->).
    cbn [n_batch batch_levels]. now rewrite length_seq.
  - split; [reflexivity|]. intros ->.
    destruct (prepare_smooth_model _ _ _ Hp) as (Hflag & _ & _).
    apply StandardizeAcrossFeatures_Ok in Hstd as (D & _ & _ & _ & Hlin).
    destruct (Hlin Hflag) as [HB _].
    apply B_hat_linear_Ok in HB as (? & ? & _ & _ & _ & _ & _ & Hsh).
    unfold shape in Hsh. now injection Hsh.
Qed.


End Learn.

Section Sums.
Context {Sc : Scalar}.

Add Field sums_field : scalar_field.

Lemma sum_n_sub n (f g : nat -> F) :
  sum_n n (fun k => (f k - g k)%F) = (sum_n n f - sum_n n g)%F.
Proof. induction n as [|n IH]; simpl; [ring | rewrite IH; ring]. Qed.

Lemma sum_n_const n (c : F) : sum_n n (fun _ => c) = (of_nat n * c)%F.
Proof. induction n as [|n IH]; simpl; [ring | rewrite IH; ring]. Qed.

Lemma sum_n_split (n K : nat) (h : nat -> F) :
  n <= K ->
  sum_n K h = (sum_n n h + sum_n (K - n) (fun k => h (n + k)%nat))%F.
Proof.
  induction K as [|K IH]; intros Hn.
  - replace n with 0 by lia. simpl. ring.
  - destruct (Nat.eq_dec n (S K)) as [->|Hne].
    + rewrite Nat.sub_diag. simpl. ring.
    + replace (S K - n) with (S (K - n)) by lia. simpl.
      rewrite IH by lia. replace (n + (K - n)) with K by lia. ring.
Qed.

End Sums.

Section LeastSquares.
Context {Sc : Scalar} {SM : Statsmodels} {NC : NeuroCombat}.

Add Field least_squares_field : scalar_field.

Lemma gram_entry (D gram : ndarray F) (k m : nat) :
  np_dot (transpose zero D) D = Ok gram ->
  k < shape1 D -> m < shape1 D ->
  at_ gram k m = sum_n (shape0 D) (fun j => (at_ D j k * at_ D j m)%F).
Proof.
  intros H Hk Hm. apply np_dot_Ok in H as [_ ->]. simpl.
  rewrite at_tabulate by assumption.
  apply sum_n_ext. intros j Hj. now rewrite at_transpose.
Qed.

(** The residuals of a least-squares fit are orthogonal to the columns of
    the design. *)
Lemma residual_orthogonal (X D gram B : ndarray F) (k f : nat) :
  np_dot (transpose zero D) D = Ok gram ->
  normal_equations gram D X B ->
  shape0 D = shape1 X ->
  k < shape1 D -> f < shape0 X ->
  sum_n (shape1 X)
    (fun j => (at_ D j k * (at_ X f j - fitted_value D B j f))%F) = zero.
Proof.
  intros Hgram Hne HD Hk Hf.
  specialize (Hne k f Hk Hf).
  rewrite (sum_n_ext _ _ (fun j => (at_ D j k * at_ X f j
                                    - at_ D j k * fitted_value D B j f)%F))
    by (intros; ring).
  rewrite sum_n_sub, <- Hne.
  assert (E : sum_n (shape1 D) (fun m => (at_ gram k m * at_ B m f)%F)
              = sum_n (shape1 X) (fun j => (at_ D j k * fitted_value D B j f)%F)).
  { rewrite (sum_n_ext _ _ (fun m => sum_n (shape1 X)
                                       (fun j => (at_ D j k * (at_ D j m * at_ B m f))%F))).
    - rewrite sum_n_swap. apply sum_n_ext. intros j Hj.
      unfold fitted_value. now rewrite sum_n_scale_l.
    - intros m Hm. rewrite (gram_entry D gram k m Hgram Hk Hm), HD.
      rewrite <- sum_n_scale. apply sum_n_ext. intros j Hj. ring. }
  rewrite E. ring.
Qed.

Lemma nth_weighted_average (counts : list nat) (total n f : nat) (B : ndarray F) :
  f < shape1 B ->
  nth f (weighted_average_of_rows counts total n B) zero
  = sum_n n (fun b => (of_nat (nth b counts 0) / of_nat total * at_ B b f)%F).
Proof.
  intros Hf. unfold weighted_average_of_rows.
  rewrite (nth_indep _ zero
             ((fun f => sum_n n (fun b => (of_nat (nth b counts 0) / of_nat total
                                           * at_ B b f)%F)) 0))
    by (now rewrite length_map, length_seq).
  rewrite (map_nth (fun f => sum_n n (fun b => (of_nat (nth b counts 0) / of_nat total
                                                * at_ B b f)%F))).
  now rewrite seq_nth.
Qed.

(** What the linear path returns, in one place. *)
Lemma StandardizeAcrossFeatures_linear_Ok (X design : ndarray F)
    (info : info_dict_t) (sm : smooth_model_t) (w w' : world)
    (s stm vp B : ndarray F) (g : list F) :
  perform_smoothing sm = false ->
  n_sample info = shape1 X ->
  StandardizeAcrossFeatures X design info sm w = (Ok (s, stm, vp, B, g), w') ->
  exists gram,
    np_dot (transpose zero design) design = Ok gram /\
    normal_equations gram design X B /\
    shape0 design = shape1 X /\
    shape B = (shape1 design, shape0 X) /\
    g = weighted_average_of_rows (sample_per_batch info) (n_sample info)
          (List.length (sample_per_batch info)) B /\
    stm = stand_mean_spec (n_batch info) X design B g /\
    s = s_data_spec X stm vp.
Proof.
  intros Hsm Hn H.
  apply StandardizeAcrossFeatures_Ok in H as (D & HD & HB1 & Hstd & Hlin).
  unfold design_in_use in HD. rewrite Hsm in HD. injection HD as <-.
  destruct (Hlin Hsm) as [HB _].
  apply B_hat_linear_Ok in HB as (gram & gi & Hgram & _ & _ & Hne & HDX & Hsh).
  apply standardize_with_Ok in Hstd; try assumption.
  destruct Hstd as (_ & _ & _ & Hg & _ & Hstm & Hs).
  exists gram. auto 10.
Qed.

(** The residuals of the linear fit are orthogonal to every column of
    the design. *)
Theorem StandardizeAcrossFeatures_residuals_orthogonal (X design : ndarray F)
    (info : info_dict_t) (sm : smooth_model_t) (w w' : world)
    (s stm vp B : ndarray F) (g : list F) :
  perform_smoothing sm = false ->
  n_sample info = shape1 X ->
  StandardizeAcrossFeatures X design info sm w = (Ok (s, stm, vp, B, g), w') ->
  forall k f, k < shape1 design -> f < shape0 X ->
    sum_n (shape1 X)
      (fun j => (at_ design j k * (at_ X f j - fitted_value design B j f))%F)
    = zero.
Proof.
  intros Hsm Hn H k f Hk Hf.
  apply StandardizeAcrossFeatures_linear_Ok in H; try assumption.
  destruct H as (gram & Hgram & Hne & HDX & _).
  now apply (residual_orthogonal X design gram B).
Qed.


(** The standardization can be undone: where the square root of the
    pooled variance is not zero, [X] is the standardized data times that
    root plus the standardization mean. *)
Theorem StandardizeAcrossFeatures_round_trip (X design D : ndarray F)
    (info : info_dict_t) (sm : smooth_model_t) (w w' : world)
    (s stm vp B : ndarray F) (g : list F) :
  design_in_use design sm = Some D ->
  shape0 D = shape1 X ->
  n_sample info = shape1 X ->
  StandardizeAcrossFeatures X design info sm w = (Ok (s, stm, vp, B, g), w') ->
  forall f j, f < shape0 X -> j < shape1 X ->
    sqrt (at_ vp f 0) <> zero ->
    at_ X f j = (at_ s f j * sqrt (at_ vp f 0) + at_ stm f j)%F.
Proof.
  intros HD HDX Hn H f j Hf Hj Hvp.
  apply StandardizeAcrossFeatures_Ok in H as (D' & HD' & HB & H & _).
  rewrite HD in HD'. injection HD' as <-.
  apply standardize_with_Ok in H; try assumption.
  destruct H as (_ & _ & _ & _ & _ & _ & Hs).
  rewrite Hs at 1. unfold s_data_spec. rewrite at_tabulate by assumption.
  field. exact Hvp.
Qed.

(** The shapes of the five results: [s_data] and [stand_mean] have the
    shape of [X], [var_pooled] is a column with an entry per feature,
    [B_hat] has a row per column of the design in use and a column per
    feature, and [grand_mean] has an entry per feature. *)
Theorem StandardizeAcrossFeatures_shapes (X design D : ndarray F)
    (info : info_dict_t) (sm : smooth_model_t) (w w' : world)
    (s stm vp B : ndarray F) (g : list F) :
  design_in_use design sm = Some D ->
  shape0 D = shape1 X ->
  n_sample info = shape1 X ->
  StandardizeAcrossFeatures X design info sm w = (Ok (s, stm, vp, B, g), w') ->
  shape s = shape X /\ shape stm = shape X /\
  shape vp = (shape0 X, 1) /\
  shape B = (shape1 D, shape0 X) /\
  List.length g = shape0 X.
Proof.
  intros HD HDX Hn H.
  apply StandardizeAcrossFeatures_Ok in H as (D' & HD' & HB & H & _).
  rewrite HD in HD'. injection HD' as <-.
  apply standardize_with_Ok in H; try assumption.
  destruct H as (_ & HDB & _ & Hg & Hvp & Hstm & Hs).
  rewrite Hs, Hstm, Hvp, Hg. unfold shape. cbn.
  repeat split; try congruence.
  unfold weighted_average_of_rows. now rewrite length_map, length_seq.
Qed.

(** In the linear path a design with another number of rows than [X]
    has samples is refused: the call raises and changes nothing. *)
Theorem StandardizeAcrossFeatures_sample_mismatch (X design : ndarray F)
    (info : info_dict_t) (sm : smooth_model_t) (w : world) :
  perform_smoothing sm = false ->
  shape0 design <> shape1 X ->
  exists msg,
    StandardizeAcrossFeatures X design info sm w = (Err (LinAlgError msg), w) \/
    StandardizeAcrossFeatures X design info sm w = (Err (ValueError msg), w).
Proof.
  intros Hsm Hne.
  unfold StandardizeAcrossFeatures, bind, lift, ret. rewrite Hsm.
  unfold B_hat_linear.
  rewrite (np_dot_eq (transpose zero design) design) by reflexivity. cbn [rbind].
  match goal with
  | |- context [np_linalg_inv ?a] => destruct (np_linalg_inv a) as [gi|e] eqn:Hgi
  end.
  - cbn [rbind]. apply np_linalg_inv_Ok in Hgi as (_ & Hsh & _ & _).
    unfold shape in Hsh. injection Hsh as Hs0 Hs1. cbn in Hs0, Hs1.
    rewrite np_dot_eq by (cbn; congruence). cbn [rbind].
    unfold np_dot. cbn [shape0 shape1 tabulate transpose].
    apply Nat.eqb_neq in Hne. rewrite Hne. cbn [rbind]. eauto.
  - cbn [rbind].
    unfold np_linalg_inv in Hgi.
    repeat match type of Hgi with
           | (if ?c then _ else _) = _ => destruct c
           | let b := _ in _ => cbv zeta in Hgi
           end; inversion Hgi; eauto.
Qed.

(** A matrix with a left inverse has no kernel. *)
Lemma collinear_no_inverse (D gram gi : ndarray F) :
  np_dot (transpose zero D) D = Ok gram ->
  np_linalg_inv gram = Ok gi ->
  ~ collinear D.
Proof.
  intros Hgram Hgi (v & k & Hk & Hv & Hker).
  pose proof (np_dot_Ok _ _ _ Hgram) as [_ Hg].
  assert (G0 : shape0 gram = shape1 D) by (now rewrite Hg).
  apply np_linalg_inv_Ok in Hgi as (_ & _ & _ & Hleft).
  rewrite G0 in Hleft.
  apply Hv.
  rewrite <- (sum_n_identity (shape1 D) k v Hk).
  rewrite (sum_n_ext _ _
             (fun m => sum_n (shape1 D)
                         (fun l => (at_ gi k l * (at_ gram l m * v m))%F))).
  - rewrite sum_n_swap.
    rewrite (sum_n_ext _ _ (fun _ => zero)); [apply sum_n_zero|].
    intros l Hl. rewrite sum_n_scale_l.
    assert (E : sum_n (shape1 D) (fun m => (at_ gram l m * v m)%F) = zero).
    { rewrite (sum_n_ext _ _
                 (fun m => sum_n (shape0 D)
                             (fun j => (at_ D j l * (at_ D j m * v m))%F))).
      - rewrite sum_n_swap.
        rewrite (sum_n_ext _ _ (fun _ => zero)); [apply sum_n_zero|].
        intros j Hj. rewrite sum_n_scale_l, Hker by exact Hj. ring.
      - intros m Hm. rewrite (gram_entry D gram l m Hgram Hl Hm).
        rewrite <- sum_n_scale. apply sum_n_ext. intros j Hj. ring. }
    rewrite E. ring.
  - intros m Hm. rewrite <- Hleft by assumption.
    rewrite <- sum_n_scale. apply sum_n_ext. intros l Hl. ring.
Qed.


End LeastSquares.

Section SiteMeans.
Context {Sc : Scalar} {SM : Statsmodels} {NC : NeuroCombat}.

Add Field site_means_field : scalar_field.

(** With SITE as the only column, the linear estimate of a site is the
    mean of the site's samples: the number of samples of site [b] times
    [B_hat[b, f]] is the sum of feature [f] over these samples. *)
Theorem StandardizeAcrossFeatures_site_means (X design : ndarray F)
    (info : info_dict_t) (sm : smooth_model_t) (w w' : world)
    (s stm vp B : ndarray F) (g : list F) (code : nat -> nat) :
  perform_smoothing sm = false ->
  n_sample info = shape1 X ->
  indicator_design design (n_batch info) code ->
  StandardizeAcrossFeatures X design info sm w = (Ok (s, stm, vp, B, g), w') ->
  forall b f, b < n_batch info -> f < shape0 X ->
    (sum_n (shape1 X) (fun j => at_ design j b) * at_ B b f)%F
    = sum_n (shape1 X) (fun j => (at_ design j b * at_ X f j)%F).
Proof.
  intros Hsm Hn [Hcols Hind] H b f Hb Hf.
  apply StandardizeAcrossFeatures_linear_Ok in H; try assumption.
  destruct H as (gram & Hgram & Hne & HDX & _).
  pose proof (residual_orthogonal X design gram B b f Hgram Hne HDX
                ltac:(lia) Hf) as Horth.
  rewrite (sum_n_ext _ _ (fun j => (at_ design j b * at_ X f j
                                    - at_ design j b * at_ B b f)%F)) in Horth.
  - rewrite sum_n_sub, sum_n_scale in Horth.
    transitivity (sum_n (shape1 X) (fun j => (at_ design j b * at_ X f j)%F)
                  - zero)%F; [rewrite <- Horth|]; ring.
  - intros j Hj.
    assert (E : (at_ design j b * fitted_value design B j f)%F
                = (at_ design j b * at_ B b f)%F).
    { rewrite (Hind j b) by lia. destruct (code j =? b) eqn:Hc; [|ring].
      apply Nat.eqb_eq in Hc. f_equal. unfold fitted_value. rewrite Hcols.
      rewrite (sum_n_ext _ _ (fun m => ((if b =? m then one else zero)
                                        * at_ B m f)%F)).
      - exact (sum_n_identity (n_batch info) b (fun m => at_ B m f) Hb).
      - intros m Hm. rewrite (Hind j m) by lia. now rewrite Hc. }
    rewrite <- E. ring.
Qed.

(** With SITE as the only column, the grand mean of a feature is its
    mean over all samples. *)
Theorem StandardizeAcrossFeatures_grand_mean_is_mean (X design : ndarray F)
    (info : info_dict_t) (sm : smooth_model_t) (w w' : world)
    (s stm vp B : ndarray F) (g : list F) :
  perform_smoothing sm = false ->
  n_sample info = shape1 X ->
  List.length (sample_per_batch info) = n_batch info ->
  shape1 design = n_batch info ->
  of_nat (n_sample info) <> zero ->
  site_indicator_columns design info ->
  StandardizeAcrossFeatures X design info sm w = (Ok (s, stm, vp, B, g), w') ->
  forall f, f < shape0 X ->
    nth f g zero
    = (sum_n (shape1 X) (fun j => at_ X f j) / of_nat (n_sample info))%F.
Proof.
  intros Hsm Hn Hlen Hcols HN [Hrow Hcol] H f Hf.
  apply StandardizeAcrossFeatures_linear_Ok in H; try assumption.
  destruct H as (gram & Hgram & Hne & HDX & Hsh & Hg & Hstm & Hs).
  unfold shape in Hsh. injection Hsh as HB0 HB1.
  rewrite HDX in Hrow, Hcol. rewrite Hlen in Hg.
  set (r := fun j => (at_ X f j - fitted_value design B j f)%F).
  assert (Hr : sum_n (shape1 X) r = zero).
  { rewrite (sum_n_ext _ _ (fun j => sum_n (n_batch info)
                                       (fun b => (at_ design j b * r j)%F))).
    - rewrite sum_n_swap.
      rewrite (sum_n_ext _ _ (fun _ => zero)); [apply sum_n_zero|].
      intros b Hb. apply (residual_orthogonal X design gram B); try assumption. lia.
    - intros j Hj. rewrite sum_n_scale, Hrow by exact Hj. ring. }
  assert (Hfit : sum_n (shape1 X) (fun j => fitted_value design B j f)
                 = (of_nat (n_sample info) * nth f g zero)%F).
  { unfold fitted_value. rewrite Hcols, sum_n_swap, Hg, nth_weighted_average by lia.
    rewrite <- sum_n_scale_l. apply sum_n_ext. intros b Hb.
    rewrite sum_n_scale, Hcol by exact Hb. field. exact HN. }
  unfold r in Hr. rewrite sum_n_sub, Hfit in Hr.
  assert (E : sum_n (shape1 X) (at_ X f)
              = (of_nat (n_sample info) * nth f g zero)%F).
  { transitivity (sum_n (shape1 X) (at_ X f)
                  - of_nat (n_sample info) * nth f g zero
                  + of_nat (n_sample info) * nth f g zero)%F; [ring|].
    rewrite Hr. ring. }
  change (sum_n (shape1 X) (fun j => at_ X f j)) with (sum_n (shape1 X) (at_ X f)).
  rewrite E. field. exact HN.
Qed.

End SiteMeans.

Section SmoothingLoop.
Context {Sc : Scalar} {SM : Statsmodels} {NC : NeuroCombat}.

Lemma dict_set_twice {V} (k : string) (v v' : V) (d : list (string * V)) :
  dict_set k v (dict_set k v' d) = dict_set k v d.
Proof.
  induction d as [|[k0 v0] d IH]; simpl.
  - now rewrite String.eqb_refl.
  - destruct (String.eqb k0 k) eqn:E; simpl.
    + now rewrite String.eqb_refl.
    + now rewrite E, IH.
Qed.

Lemma set_column_Ok (B B' : ndarray F) (i : nat) (v : list F) :
  set_column zero B i v = Ok B' ->
  i < shape1 B /\ shape B' = shape B /\
  forall k j, k < shape0 B -> j < shape1 B ->
    at_ B' k j = if j =? i then assigned v (shape0 B) k else at_ B k j.
Proof.
  unfold set_column, assigned. destruct (i <? shape1 B) eqn:Hi; [|discriminate].
  apply Nat.ltb_lt in Hi. cbn [negb].
  destruct (List.length v =? shape0 B).
  - intros H. injection H as <-. repeat split; [exact Hi|].
    intros k j Hk Hj. now rewrite at_tabulate.
  - destruct (List.length v =? 1); [|discriminate].
    intros H. injection H as <-. repeat split; [exact Hi|].
    intros k j Hk Hj. now rewrite at_tabulate.
Qed.

(** One round of the loop of lines 138-145. *)
Lemma gam_fit_feature_Ok (X : ndarray F) (sm : smooth_model_t) (alpha : list F)
    (dfo dfo' : option frame) (B B' : ndarray F) (i : nat) :
  gam_fit_feature X sm alpha (dfo, B) i = Ok (dfo', B') ->
  exists df fml bs gam first alpha' params,
    dfo = Some df /\ dfo' = Some (dict_set "y" (row zero X i) df) /\
    formula sm = Some fml /\ bsplines_constructor sm = Some bs /\
    GLMGam_from_formula fml (dict_set "y" (row zero X i) df) bs alpha = Ok gam /\
    glmgam_fit gam = Ok first /\
    select_penweight gam = Ok alpha' /\
    glmgam_fit (set_alpha gam alpha') = Ok params /\
    set_column zero B i params = Ok B'.
Proof.
  unfold gam_fit_feature. intros H.
  apply rbind_Ok in H as (df & Hdf & H).
  apply rbind_Ok in H as (df1 & Hdf1 & H).
  apply rbind_Ok in H as (fml & Hfml & H).
  apply rbind_Ok in H as (bs & Hbs & H).
  apply rbind_Ok in H as (gam & Hgam & H).
  apply rbind_Ok in H as (first & Hfirst & H).
  apply rbind_Ok in H as (alpha' & Halpha & H).
  apply rbind_Ok in H as (params & Hparams & H).
  apply rbind_Ok in H as (B1 & HB1 & H).
  injection H as <- <-.
  destruct dfo as [df0|]; [|discriminate]. injection Hdf as <-.
  destruct (formula sm) as [fml0|]; [|discriminate]. injection Hfml as <-.
  destruct (bsplines_constructor sm) as [bs0|]; [|discriminate]. injection Hbs as <-.
  unfold loc_set_column in Hdf1.
  destruct (List.length (row zero X i) =? frame_nrows df0); [|discriminate].
  injection Hdf1 as <-.
  exists df0, fml0, bs0, gam, first, alpha', params. auto 10.
Qed.

(** The loop of lines 138-145 over the features of [l]: every column of
    [l] holds the parameters of its own refit, on the frame of
    [smooth_model] with the feature as column ["y"], and the other columns
    are as before. *)
Lemma gam_loop_columns (X : ndarray F) (sm : smooth_model_t)
    (df0 : frame) (fml : string) (bs : bsplines) (l : list nat) :
  formula sm = Some fml -> bsplines_constructor sm = Some bs ->
  List.NoDup l ->
  forall dfc dfo' B B',
    (forall v, dict_set "y" v dfc = dict_set "y" v df0) ->
    rfold (gam_fit_feature X sm (repeat one (List.length (smooth_cols sm))))
      (Some dfc, B) l = Ok (dfo', B') ->
    shape B' = shape B /\
    (forall i, In i l ->
       i < shape1 B /\
       exists params, refit_params X sm df0 fml bs i params /\
         forall k, k < shape0 B -> at_ B' k i = assigned params (shape0 B) k) /\
    (forall i k, ~ In i l -> k < shape0 B -> i < shape1 B ->
       at_ B' k i = at_ B k i).
Proof.
  intros Hfml Hbs. induction l as [|i l IH]; intros Hnd dfc dfo' B B' Hdf H.
  - simpl in H. injection H as _ <-.
    split; [reflexivity|]. split; [intros i []|reflexivity].
  - cbn [rfold] in H. apply rbind_Ok in H as ([dfo1 B1] & Hstep & H).
    inversion Hnd as [|? ? Hi Hnd']; subst.
    apply gam_fit_feature_Ok in Hstep
      as (df & fml' & bs' & gam & first & alpha' & params & Edf & -> & Hfml' & Hbs'
          & Hgam & Hfirst & Halpha & Hparams & Hset).
    injection Edf as <-.
    rewrite Hfml in Hfml'. injection Hfml' as <-.
    rewrite Hbs in Hbs'. injection Hbs' as <-.
    rewrite Hdf in Hgam.
    apply set_column_Ok in Hset as (Hlt & Hshape & Hentries).
    apply IH in H; [|exact Hnd'|intros v; now rewrite dict_set_twice].
    destruct H as (Hshape' & Hin & Hout).
    unfold shape in Hshape. injection Hshape as Hs0 Hs1.
    rewrite Hs0, Hs1 in Hin, Hout.
    split; [unfold shape in *; congruence|]. split.
    + intros i' [<-|Hi'].
      * split; [exact Hlt|]. exists params. split.
        -- exists gam, first, alpha'. auto.
        -- intros k Hk. rewrite Hout, Hentries by assumption.
           now rewrite Nat.eqb_refl.
      * destruct (Hin i' Hi') as (Hlt' & params' & Hp' & Hcol).
        split; [exact Hlt'|]. exists params'. split; [exact Hp'|].
        exact Hcol.
    + intros i' k Hni Hk Hi'.
      rewrite Hout by (try assumption; intros Hx; apply Hni; now right).
      rewrite Hentries by assumption.
      destruct (i' =? i) eqn:E; [|reflexivity].
      apply Nat.eqb_eq in E. subst. exfalso. apply Hni. now left.
Qed.

(** The columns of [B_hat] in the smoothing path. *)
Lemma B_hat_smoothing_columns (X : ndarray F) (sm : smooth_model_t)
    (w w' : world) (D B : ndarray F) :
  B_hat_smoothing X sm w = (Ok (D, B), w') ->
  forall i, i < shape0 X ->
    exists df fml bs params,
      df_gam sm = Some df /\ formula sm = Some fml /\
      bsplines_constructor sm = Some bs /\
      refit_params X sm df fml bs i params /\
      forall k, k < shape1 D -> at_ B k i = assigned params (shape1 D) k.
Proof.
  intros Hdb.
  pose proof (B_hat_smoothing_Ok _ _ _ _ _ _ Hdb) as [HD _].
  unfold B_hat_smoothing in Hdb.
  apply bind_Ok in Hdb as (u & w2 & _ & Hdb).
  apply lift_Ok in Hdb as [Hdb _]. cbv zeta in Hdb.
  rewrite HD in Hdb. cbn [not_none rbind] in Hdb.
  apply rbind_Ok in Hdb as ([dfo' B'] & Hfold & Hdb).
  injection Hdb as <-. cbn [snd] in *.
  intros i Hi.
  assert (Hfirst : exists df fml bs,
             df_gam sm = Some df /\ formula sm = Some fml /\
             bsplines_constructor sm = Some bs).
  { pose proof Hfold as Hfold'.
    destruct (shape0 X) as [|n]; [lia|].
    cbn [seq rfold] in Hfold'.
    apply rbind_Ok in Hfold' as ([dfo1 B1] & Hstep & _).
    apply gam_fit_feature_Ok in Hstep
      as (df & fml & bs & ? & ? & ? & ? & Edf & _ & Hfml & Hbs & _).
    exists df, fml, bs. auto. }
  destruct Hfirst as (df & fml & bs & Edf & Hfml & Hbs).
  rewrite Edf in Hfold.
  apply (gam_loop_columns X sm df fml bs (seq 0 (shape0 X)) Hfml Hbs
           (List.seq_NoDup _ _)) in Hfold; [|reflexivity].
  destruct Hfold as (_ & Hin & _).
  destruct (Hin i) as (_ & params & Hp & Hcol); [apply in_seq; lia|].
  exists df, fml, bs, params. auto.
Qed.

(** The smoothing path of [StandardizeAcrossFeatures], in one place. *)
Lemma StandardizeAcrossFeatures_smoothing_Ok (X design : ndarray F)
    (info : info_dict_t) (sm : smooth_model_t) (w w' : world)
    (s stm vp B : ndarray F) (g : list F) :
  perform_smoothing sm = true ->
  StandardizeAcrossFeatures X design info sm w = (Ok (s, stm, vp, B, g), w') ->
  exists D w1,
    B_hat_smoothing X sm w = (Ok (D, B), w1) /\
    smooth_design sm = Some D /\
    shape B = (shape1 D, shape0 X).
Proof.
  intros Hsm H. unfold StandardizeAcrossFeatures in H. rewrite Hsm in H.
  apply bind_Ok in H as ([D B0] & w1 & Hdb & H).
  apply lift_Ok in H as [H ->]. cbn [fst snd] in H.
  assert (HB0 : B0 = B).
  { unfold standardize_with in H.
    repeat (apply rbind_Ok in H as (? & ? & H)). now inversion H. }
  subst B0.
  pose proof (B_hat_smoothing_Ok _ _ _ _ _ _ Hdb) as [HD Hshape].
  exists D, w1. auto.
Qed.

(** With smoothing, column [i] of [B_hat] holds the parameters of the
    additive model of feature [i], fitted a second time with the selected
    penalty weights; every feature is fitted on the same frame, in which
    only the column ["y"] is replaced. *)
Theorem StandardizeAcrossFeatures_smoothing_columns (X design : ndarray F)
    (info : info_dict_t) (sm : smooth_model_t) (w w' : world)
    (s stm vp B : ndarray F) (g : list F) :
  perform_smoothing sm = true ->
  StandardizeAcrossFeatures X design info sm w = (Ok (s, stm, vp, B, g), w') ->
  exists D,
    smooth_design sm = Some D /\
    shape B = (shape1 D, shape0 X) /\
    forall i, i < shape0 X ->
      exists df fml bs params,
        df_gam sm = Some df /\ formula sm = Some fml /\
        bsplines_constructor sm = Some bs /\
        refit_params X sm df fml bs i params /\
        forall k, k < shape1 D -> at_ B k i = assigned params (shape1 D) k.
Proof.
  intros Hsm H.
  apply StandardizeAcrossFeatures_smoothing_Ok in H as (D & w1 & Hdb & HD & Hshape);
    [|exact Hsm].
  exists D. split; [exact HD|]. split; [exact Hshape|].
  exact (B_hat_smoothing_columns X sm w w1 D B Hdb).
Qed.

End SmoothingLoop.

Section SmoothDesign.
Context {Sc : Scalar} {SM : Statsmodels} {NC : NeuroCombat}.

(** Lines 82-85, the names of the columns of the frame. *)
Lemma covariate_loop_keys (covars : ndarray cell) (smooth_cols num_cols : list nat) :
  List.NoDup num_cols ->
  forall f0 d0 f d,
    (forall c, In c num_cols -> ~ In (c_term c) (map fst d0)) ->
    rfold (fun '(formula, df_gam) c =>
             if nat_in c smooth_cols then Ok (formula, df_gam)
             else
               let? col := column (PyInt 0) covars c in
               let? v := rmap to_float col in
               Ok (formula +:+ "c" +:+ str c +:+ " + ",
                   dict_set ("c" +:+ str c) v df_gam))
      (f0, d0) num_cols = Ok (f, d) ->
    map fst d
    = map fst d0
      ++ map c_term (List.filter (fun c => negb (nat_in c smooth_cols)) num_cols).
Proof.
  induction 1 as [|c num_cols Hc Hnd IH]; intros f0 d0 f d Hfresh H.
  - simpl in H. injection H as _ <-. simpl. now rewrite app_nil_r.
  - cbn [rfold] in H. apply rbind_Ok in H as ([f1 d1] & H1 & H).
    cbn [List.filter].
    destruct (nat_in c smooth_cols); cbn [negb].
    + injection H1 as <- <-. apply IH in H; [exact H|].
      intros c' Hc'. apply Hfresh. now right.
    + apply rbind_Ok in H1 as (col & _ & H1).
      apply rbind_Ok in H1 as (v & _ & H1). injection H1 as <- <-.
      fold (c_term c) in H.
      rewrite dict_set_fresh in H by (apply Hfresh; now left).
      apply IH in H.
      * rewrite H, map_app. cbn [map fst]. rewrite <- app_assoc. reflexivity.
      * intros c' Hc' Hin. rewrite map_app, in_app_iff in Hin.
        destruct Hin as [Hin|Hin].
        -- apply (Hfresh c'); [now right | exact Hin].
        -- cbn in Hin. destruct Hin as [E|[]]. apply c_term_inj in E.
           subst. contradiction.
Qed.

Lemma site_columns_names (design : ndarray F) (levels : list nat) :
  map fst (site_columns design levels) = map x_term levels.
Proof. unfold site_columns. rewrite map_map. reflexivity. Qed.

Lemma gam_frame_keys (covars : ndarray cell) (design : ndarray F)
    (n : nat) (num_cols smooth_cols : list nat) (fd : string * frame) :
  List.NoDup num_cols ->
  gam_formula_and_frame covars design (seq 0 n) num_cols smooth_cols = Ok fd ->
  map fst (snd fd)
  = map x_term (seq 0 n)
    ++ map c_term (List.filter (fun c => negb (nat_in c smooth_cols)) num_cols).
Proof.
  unfold gam_formula_and_frame. intros Hnd H.
  apply rbind_Ok in H as ([f1 d1] & H1 & H).
  apply rbind_Ok in H as ([f2 d2] & H2 & H).
  injection H as <-. cbn [snd].
  apply site_loop_frame in H1; [|apply List.seq_NoDup | intros b _ []].
  destruct H1 as [Hd1 _]. simpl in Hd1. subst d1.
  apply covariate_loop_keys in H2; [|exact Hnd|].
  - now rewrite H2, site_columns_names.
  - intros c _ Hin. apply site_columns_keys in Hin as (b & _ & E).
    symmetry in E. now apply x_term_c_term in E.
Qed.

Lemma column_positions_NoDup (P : string -> bool) (cols : list string) :
  List.NoDup (column_positions P cols).
Proof. unfold column_positions. apply List.NoDup_filter, List.seq_NoDup. Qed.

(** What the smoothing setup of lines 73-94 leaves in [smooth_model]. *)
Lemma prepare_smoothing_parts (covars : DataFrame) (st : list string)
    (p : prepared_t) :
  List.NoDup (columns covars) ->
  st <> [] ->
  prepare covars st = Ok p ->
  exists bs df D fml,
    bsplines_constructor (p_smooth_model p) = Some bs /\
    df_gam (p_smooth_model p) = Some df /\
    smooth_design (p_smooth_model p) = Some D /\
    formula (p_smooth_model p) = Some fml /\
    map fst df = formula_terms (n_batch (p_info_dict p)) (columns covars) st /\
    concatenate_axis1 zero (frame_to_array df) (basis bs) = Ok D /\
    (0 < n_batch (p_info_dict p) -> fml = formula_spec (map fst df)).
Proof.
  intros Hnd Hst Hp.
  apply prepare_Ok in Hp
    as (bc & nc & sc & site & codes & covars' & design & _ & Hnc & Hsc & Hsite
        & Hcodes & _ & _ & _ & Hinfo & Hsm).
  rewrite rmap_get_loc_positions in Hnc, Hsc by exact Hnd.
  injection Hnc as <-. injection Hsc as <-.
  assert (Hpos : (0 <? List.length st) = true)
    by (destruct st; [congruence | reflexivity]).
  rewrite Hpos in Hsm.
  pose proof (np_unique_inverse_levels _ _ Hcodes) as [_ Hlev].
  rewrite Hlev in Hsm.
  unfold smoothing_setup in Hsm. cbv zeta in Hsm.
  cbn [smooth_cols perform_smoothing smooth_terms] in Hsm.
  apply rbind_Ok in Hsm as (Xs & _ & Hsm).
  apply rbind_Ok in Hsm as (bs & _ & Hsm).
  apply rbind_Ok in Hsm as (fd & Hfd & Hsm).
  apply rbind_Ok in Hsm as (df & Hdf & Hsm).
  apply rbind_Ok in Hsm as (dg & Hdg & Hsm).
  injection Hsm as Hsm.
  exists bs, df, dg, (fst fd). rewrite <- Hsm.
  cbn [bsplines_constructor df_gam smooth_design formula].
  split; [reflexivity|]. split; [reflexivity|]. split; [reflexivity|].
  split; [reflexivity|].
  unfold pd_DataFrame in Hdf. destruct (forallb _ _); [|discriminate].
  injection Hdf as <-.
  pose proof (gam_frame_keys _ _ _ _ _ _ (column_positions_NoDup _ _) Hfd) as Hkeys.
  rewrite linear_columns in Hkeys.
  assert (Hn : n_batch (p_info_dict p) = List.length (np_unique Nat.leb codes))
    by (rewrite Hinfo; reflexivity).
  split; [rewrite Hn; exact Hkeys|]. split; [exact Hdg|].
  intros Hpos'. rewrite Hkeys.
  apply gam_formula in Hfd. cbv zeta in Hfd. rewrite Hfd, linear_columns.
  rewrite Hn in Hpos'.
  destruct (List.length (np_unique Nat.leb codes)) as [|n]; [lia|].
  exact (formula_of_terms (x_term 0)
           (map x_term (seq 1 n)
            ++ map c_term (linear_covariate_positions (columns covars) st))).
Qed.

(** The design of the smoothing path is the frame of the additive
    model followed by the spline basis, and the columns of the frame are
    named, in order, as the terms of the formula. *)
Theorem prepare_smooth_design_layout (covars : DataFrame) (st : list string)
    (p : prepared_t) :
  List.NoDup (columns covars) ->
  st <> [] ->
  prepare covars st = Ok p ->
  exists bs df D,
    bsplines_constructor (p_smooth_model p) = Some bs /\
    df_gam (p_smooth_model p) = Some df /\
    smooth_design (p_smooth_model p) = Some D /\
    map fst df = formula_terms (n_batch (p_info_dict p)) (columns covars) st /\
    shape0 (basis bs) = frame_nrows df /\
    shape D = (frame_nrows df, List.length df + shape1 (basis bs)) /\
    (forall i j, i < frame_nrows df -> j < List.length df ->
       at_ D i j = nth i (snd (nth j df (EmptyString, []))) zero) /\
    (forall i j, i < frame_nrows df -> j < shape1 (basis bs) ->
       at_ D i (List.length df + j) = at_ (basis bs) i j).
Proof.
  intros Hnd Hst Hp.
  destruct (prepare_smoothing_parts covars st p Hnd Hst Hp)
    as (bs & df & D & fml & Hbs & Hdf & HD & _ & Hkeys & Hdg & _).
  exists bs, df, D.
  split; [exact Hbs|]. split; [exact Hdf|]. split; [exact HD|].
  split; [exact Hkeys|].
  unfold concatenate_axis1 in Hdg. cbn [shape0 shape1 frame_to_array tabulate] in Hdg.
  destruct (frame_nrows df =? shape0 (basis bs)) eqn:E; [|discriminate].
  apply Nat.eqb_eq in E. injection Hdg as <-.
  split; [now symmetry|]. split; [reflexivity|]. split.
  - intros i j Hi Hj. rewrite at_tabulate by lia.
    apply Nat.ltb_lt in Hj as Hj'. rewrite Hj'.
    unfold frame_to_array. now rewrite get_tabulate.
  - intros i j Hi Hj. rewrite at_tabulate by lia.
    replace (List.length df + j <? List.length df) with false
      by (symmetry; apply Nat.ltb_ge; lia).
    replace (List.length df + j - List.length df) with j by lia.
    reflexivity.
Qed.

End SmoothDesign.

Section SiteEffects.
Context {Sc : Scalar} {SM : Statsmodels} {NC : NeuroCombat}.

Add Field site_effects_field : scalar_field.

Lemma sum_indicator_count (codes : list nat) (b : nat) :
  sum_n (List.length codes) (fun j => if nth j codes 0 =? b then one else zero)
  = of_nat (count_occ (fun x y => decide (x = y)) codes b).
Proof.
  induction codes as [|a l IH] using rev_ind; [reflexivity|].
  rewrite length_app, count_occ_app. cbn [List.length count_occ].
  replace (List.length l + 1) with (S (List.length l)) by lia.
  cbn [sum_n]. rewrite nth_middle.
  rewrite (sum_n_ext _ _ (fun j => if nth j l 0 =? b then one else zero))
    by (intros j Hj; now rewrite app_nth1).
  rewrite IH.
  destruct (a =? b) eqn:E.
  - apply Nat.eqb_eq in E. subst. destruct (decide (b = b)); [|congruence].
    replace (count_occ (fun x y => decide (x = y)) l b + 1)
      with (S (count_occ (fun x y => decide (x = y)) l b)) by lia.
    reflexivity.
  - apply Nat.eqb_neq in E. destruct (decide (a = b)); [congruence|].
    rewrite Nat.add_0_r. ring.
Qed.

Lemma formula_terms_not_y (n : nat) (cols st : list string) :
  ~ In "y" (formula_terms n cols st).
Proof.
  unfold formula_terms. rewrite in_app_iff. intros [H|H];
    apply in_map_iff in H as (k & E & _);
    unfold x_term, c_term in E; inversion E.
Qed.

Lemma formula_terms_length (n : nat) (cols st : list string) :
  n <= List.length (formula_terms n cols st).
Proof.
  unfold formula_terms. rewrite length_app, length_map, length_seq. lia.
Qed.

Lemma nth_row (X : ndarray F) (i j : nat) :
  j < shape1 X -> nth j (row zero X i) zero = at_ X i j.
Proof.
  intros Hj. unfold row.
  rewrite (nth_indep _ zero ((fun j => get zero X i j) 0))
    by (now rewrite length_map, length_seq).
  rewrite (map_nth (fun j => get zero X i j)). now rewrite seq_nth.
Qed.

(** The site part of a fitted value is the coefficient of the sample's
    site, when the first [n] columns of the design are the indicators of
    the site codes. *)
Lemma fitted_value_site_part (D B : ndarray F) (codes : list nat) (n j f : nat) :
  n <= shape1 D -> nth j codes 0 < n ->
  (forall b, b < n -> at_ D j b = if nth j codes 0 =? b then one else zero) ->
  fitted_value D B j f
  = (at_ B (nth j codes 0) f + covariate_part n D B j f)%F.
Proof.
  intros Hn Hc Hind. unfold fitted_value, covariate_part.
  rewrite (sum_n_split n (shape1 D)) by exact Hn. f_equal.
  rewrite (sum_n_ext _ _ (fun b => ((if nth j codes 0 =? b then one else zero)
                                    * at_ B b f)%F))
    by (intros b Hb; now rewrite Hind).
  exact (sum_n_identity n (nth j codes 0) (fun b => at_ B b f) Hc).
Qed.


End SiteEffects.

Section ExampleFit.
Context {Sc : Scalar}.

Lemma dict_get_app_fresh {V} (k : string) (v : V) (d : list (string * V)) :
  ~ In k (map fst d) -> dict_get k (d ++ [(k, v)]) = Ok v.
Proof.
  induction d as [|[k' v'] d IH]; simpl; intros Hk.
  - now rewrite String.eqb_refl.
  - destruct (String.eqb_spec k' k) as [->|_]; [tauto|]. apply IH. tauto.
Qed.

Lemma filter_not_key {V} (k : string) (v : V) (d : list (string * V)) :
  ~ In k (map fst d) ->
  List.filter (fun kv => negb (String.eqb (fst kv) k)) (d ++ [(k, v)]) = d.
Proof.
  induction d as [|[k' v'] d IH]; simpl; intros Hk.
  - now rewrite String.eqb_refl.
  - destruct (String.eqb_spec k' k) as [->|_]; [tauto|]. simpl.
    f_equal. apply IH. tauto.
Qed.

(** The least-squares fit of the example is a fit as
    [fit_follows_design_columns] asks for. *)
Lemma least_squares_gam_follows_design_columns :
  @fit_follows_design_columns Sc least_squares_gam.
Proof.
  intros df y bs alpha alpha' gam params D Hy Hgam Hfit Hcat.
  cbn in Hgam. injection Hgam as <-. cbn in Hfit, Hcat.
  unfold least_squares_fit in Hfit. cbn [fst snd] in Hfit.
  rewrite (dict_get_app_fresh "y" y df Hy) in Hfit. cbn [rbind] in Hfit.
  rewrite (filter_not_key "y" y df Hy), Hcat in Hfit. cbn [rbind] in Hfit.
  apply rbind_Ok in Hfit as (B & HB & Hcol).
  apply B_hat_linear_Ok in HB as (gram & gi & Hgram & _ & _ & Hne & HDX & Hsh).
  unfold shape in Hsh. injection Hsh as HB0 HB1. cbn in HDX, HB1.
  unfold column in Hcol. rewrite HB1 in Hcol. cbn in Hcol. injection Hcol as <-.
  rewrite length_map, length_seq. split; [exact HB0|].
  intros k Hk.
  assert (Hk' : k < shape1 D).
  { unfold concatenate_axis1 in Hcat.
    destruct (_ =? _); [|discriminate]. injection Hcat as <-. cbn. lia. }
  pose proof (residual_orthogonal (mk_ndarray 1 (List.length y) [y]) D gram B k 0
                Hgram Hne HDX Hk' ltac:(cbn; lia)) as Ho.
  cbn [shape1] in Ho. rewrite <- HDX in Ho.
  etransitivity; [|exact Ho].
  apply sum_n_ext. intros j Hj. f_equal. f_equal. unfold fitted_value.
  apply sum_n_ext. intros m Hm. f_equal.
  rewrite (nth_indep _ zero ((fun i => get zero B i 0) 0))
    by (rewrite length_map, length_seq; lia).
  rewrite (map_nth (fun i => get zero B i 0)). rewrite seq_nth by lia.
  reflexivity.
Qed.

End ExampleFit.

(* ================================================================= *)
(** * The theorems at work on the example *)

Module Witness.
Import Example.

Lemma harmonizationLearn_shape_witness :
  exists model bayes_data w',
    harmonizationLearn data covars_site_only [] empty_world
    = (Ok (model, bayes_data), w') /\
    shape bayes_data = (6, 2).
Proof.
  assert (Hok : is_Ok (fst (harmonizationLearn data covars_site_only []
                              empty_world)) = true)
    by (vm_compute; reflexivity).
  destruct (harmonizationLearn data covars_site_only [] empty_world)
    as [[[model bayes_data]|e] w'] eqn:E.
  - exists model, bayes_data, w'. split; [reflexivity|].
    exact (proj1 (harmonizationLearn_shape data covars_site_only [] empty_world
                    w' model bayes_data eq_refl E)).
  - discriminate Hok.
Defined.

Lemma B_hat_closed_form_witness :
  exists s stm vp B g w',
    StandardizeAcrossFeatures X design info_dict no_smoothing empty_world
    = (Ok (s, stm, vp, B, g), w') /\
    shape B = (2, 2).
Proof.
  assert (Hok : is_Ok (fst (StandardizeAcrossFeatures X design info_dict
                              no_smoothing empty_world)) = true)
    by (vm_compute; reflexivity).
  destruct (StandardizeAcrossFeatures X design info_dict no_smoothing empty_world)
    as [[[[[[s stm] vp] B] g]|e] w'] eqn:E.
  - exists s, stm, vp, B, g, w'. split; [reflexivity|].
    destruct (StandardizeAcrossFeatures_B_hat_closed_form X design info_dict
                no_smoothing empty_world w' s stm vp B g eq_refl E)
      as (gram & gram_inv & _ & _ & _ & _ & Hshape).
    exact Hshape.
  - discriminate Hok.
Defined.

Lemma stand_mean_s_data_witness :
  exists s stm vp B g w',
    StandardizeAcrossFeatures X design info_dict no_smoothing empty_world
    = (Ok (s, stm, vp, B, g), w') /\
    stm = stand_mean_spec 2 X design B g /\
    s = s_data_spec X stm vp.
Proof.
  assert (Hok : is_Ok (fst (StandardizeAcrossFeatures X design info_dict
                              no_smoothing empty_world)) = true)
    by (vm_compute; reflexivity).
  destruct (StandardizeAcrossFeatures X design info_dict no_smoothing empty_world)
    as [[[[[[s stm] vp] B] g]|e] w'] eqn:E.
  - exists s, stm, vp, B, g, w'. split; [reflexivity|].
    exact (StandardizeAcrossFeatures_stand_mean_s_data X design design info_dict
             no_smoothing empty_world w' s stm vp B g eq_refl eq_refl eq_refl E).
  - discriminate Hok.
Defined.

Lemma var_pooled_witness :
  exists s stm vp B g w',
    StandardizeAcrossFeatures X design info_dict no_smoothing empty_world
    = (Ok (s, stm, vp, B, g), w') /\
    vp = tabulate 2 1 (fun f _ => mean_squared_residual X design B f).
Proof.
  assert (Hok : is_Ok (fst (StandardizeAcrossFeatures X design info_dict
                              no_smoothing empty_world)) = true)
    by (vm_compute; reflexivity).
  destruct (StandardizeAcrossFeatures X design info_dict no_smoothing empty_world)
    as [[[[[[s stm] vp] B] g]|e] w'] eqn:E.
  - exists s, stm, vp, B, g, w'. split; [reflexivity|].
    exact (StandardizeAcrossFeatures_var_pooled X design design info_dict
             no_smoothing empty_world w' s stm vp B g eq_refl eq_refl eq_refl E).
  - discriminate Hok.
Defined.

Lemma grand_mean_witness :
  exists s stm vp B g w',
    StandardizeAcrossFeatures X design info_dict no_smoothing empty_world
    = (Ok (s, stm, vp, B, g), w') /\
    2 <= shape0 B /\
    g = weighted_average_of_rows [3; 3] 6 2 B.
Proof.
  assert (Hok : is_Ok (fst (StandardizeAcrossFeatures X design info_dict
                              no_smoothing empty_world)) = true)
    by (vm_compute; reflexivity).
  destruct (StandardizeAcrossFeatures X design info_dict no_smoothing empty_world)
    as [[[[[[s stm] vp] B] g]|e] w'] eqn:E.
  - exists s, stm, vp, B, g, w'. split; [reflexivity|].
    exact (StandardizeAcrossFeatures_grand_mean X design info_dict
             no_smoothing empty_world w' s stm vp B g eq_refl E).
  - discriminate Hok.
Defined.

Lemma example_columns_NoDup : List.NoDup (columns covars).
Proof.
  repeat (constructor; [simpl; intuition discriminate|]). constructor.
Defined.

Lemma formula_witness :
  exists p,
    prepare covars ["AGE"] = Ok p /\
    formula (p_smooth_model p)
    = Some ("y ~ " +:+ String.concat " + "
                         (formula_terms (n_batch (p_info_dict p))
                            ["AGE"; "SITE"; "SEX"] ["AGE"])
            +:+ " - 1").
Proof.
  assert (Hok : is_Ok (prepare covars ["AGE"]) = true)
    by (vm_compute; reflexivity).
  destruct (prepare covars ["AGE"])
    as [p|e] eqn:E.
  - exists p. split; [reflexivity|].
    destruct (harmonizationLearn_formula covars ["AGE"] p example_columns_NoDup)
      as (Hf & _ & _).
    + simpl. lia.
    + discriminate.
    + exact E.
    + exact Hf.
  - discriminate Hok.
Defined.

Lemma existing_folder_witness :
  exists w1,
    saveHarmonizationModel model "model_dir" empty_world = (Ok tt, w1) /\
    saveHarmonizationModel model "model_dir" w1
    = (Err (ValueError "Model folder already exists: model_dir Change name or delete to save."),
       w1).
Proof.
  assert (Hok : is_Ok (fst (saveHarmonizationModel model "model_dir"
                              empty_world)) = true)
    by (vm_compute; reflexivity).
  destruct (saveHarmonizationModel model "model_dir" empty_world)
    as [[[]|e] w1] eqn:E.
  - exists w1. split; [reflexivity|].
    apply (saveHarmonizationModel_existing_folder model "model_dir" w1).
    right. exists empty_world. exact E.
  - discriminate Hok.
Defined.

Lemma missing_SITE_witness :
  harmonizationLearn data covars_without_site [] empty_world
  = (Err (KeyError "SITE"), empty_world).
Proof.
  apply (harmonizationLearn_missing_SITE data covars_without_site [] empty_world).
  simpl. intros [H|[]]. discriminate H.
Defined.


End Witness.

(** ** Instances of the further properties *)

Module Checked.
Import Example Cases.

Ltac check_entry := try (apply Qc_is_canon); vm_compute; reflexivity.


Lemma writes_files_witness :
  exists w1,
    saveHarmonizationModel model "model_dir" empty_world = (Ok tt, w1) /\
    fs w1 !! "model_dir" = Some Dir.
Proof.
  assert (Hok : is_Ok (fst (saveHarmonizationModel model "model_dir"
                              empty_world)) = true)
    by (vm_compute; reflexivity).
  destruct (saveHarmonizationModel model "model_dir" empty_world)
    as [[[]|e] w1] eqn:E.
  - exists w1. split; [reflexivity|].
    exact (proj1 (saveHarmonizationModel_writes_files model "model_dir"
                    empty_world w1 E)).
  - discriminate Hok.
Defined.

Lemma console_witness :
  exists w1 lines,
    saveHarmonizationModel model "model_dir" empty_world = (Ok tt, w1) /\
    stdout w1 = stdout empty_world ++ lines /\
    Forall2 (saving_line model) (saved_keys model) lines.
Proof.
  assert (Hok : is_Ok (fst (saveHarmonizationModel model "model_dir"
                              empty_world)) = true)
    by (vm_compute; reflexivity).
  destruct (saveHarmonizationModel model "model_dir" empty_world)
    as [[[]|e] w1] eqn:E.
  - destruct (saveHarmonizationModel_console model "model_dir" empty_world w1 E)
      as (lines & H1 & H2).
    exists w1, lines. auto.
  - discriminate Hok.
Defined.



Lemma model_witness :
  exists model bayes_data w',
    harmonizationLearn data covars_site_only [] empty_world
    = (Ok (model, bayes_data), w') /\
    map fst model = model_keys.
Proof.
  assert (Hok : is_Ok (fst (harmonizationLearn data covars_site_only []
                              empty_world)) = true)
    by (vm_compute; reflexivity).
  destruct (harmonizationLearn data covars_site_only [] empty_world)
    as [[[model bayes_data]|e] w'] eqn:E.
  - exists model, bayes_data, w'. split; [reflexivity|].
    exact (proj1 (harmonizationLearn_model data covars_site_only [] empty_world
                    w' model bayes_data E)).
  - discriminate Hok.
Defined.

Lemma info_dict_counts_witness :
  exists p,
    prepare covars ["AGE"] = Ok p /\
    list_sum (sample_per_batch (p_info_dict p)) = 6.
Proof.
  assert (Hok : is_Ok (prepare covars ["AGE"]) = true) by (vm_compute; reflexivity).
  destruct (prepare covars ["AGE"]) as [p|e] eqn:E.
  - exists p. split; [reflexivity|].
    pose proof (prepare_info_dict_counts covars ["AGE"] p E) as H.
    cbv zeta in H. destruct H as (Hn & _ & _ & _ & Hsum & _).
    rewrite Hsum, Hn. reflexivity.
  - discriminate Hok.
Defined.

Lemma batch_info_partition_witness :
  exists p,
    prepare covars ["AGE"] = Ok p /\
    List.length (nth 0 (batch_info (p_info_dict p)) [])
    = nth 0 (sample_per_batch (p_info_dict p)) 0.
Proof.
  assert (Hnb : match prepare covars ["AGE"] with
                | Ok p => 0 <? n_batch (p_info_dict p)
                | Err _ => false
                end = true) by (vm_compute; reflexivity).
  destruct (prepare covars ["AGE"]) as [p|e] eqn:E.
  - exists p. split; [reflexivity|].
    pose proof (prepare_batch_info_partition covars ["AGE"] p E) as H.
    cbv zeta in H. destruct H as [H _].
    apply Nat.ltb_lt in Hnb. exact (proj1 (H 0 Hnb)).
  - discriminate Hnb.
Defined.

Lemma batch_info_by_label_witness :
  exists p,
    prepare covars ["AGE"] = Ok p /\ same_batch (p_info_dict p) 0 2.
Proof.
  assert (Hok : is_Ok (prepare covars ["AGE"]) = true) by (vm_compute; reflexivity).
  destruct (prepare covars ["AGE"]) as [p|e] eqn:E.
  - exists p. split; [reflexivity|].
    apply (prepare_batch_info_by_label covars ["AGE"] p 1
             [PyStr "B"; PyStr "A"; PyStr "B"; PyStr "A"; PyStr "B"; PyStr "A"]
             E eq_refl eq_refl eq_refl 0 2); [simpl; lia | simpl; lia | reflexivity].
  - discriminate Hok.
Defined.

Lemma mixed_site_labels_witness :
  exists msg,
    harmonizationLearn data covars_mixed [] empty_world
    = (Err (TypeError msg), empty_world).
Proof.
  apply (harmonizationLearn_mixed_site_labels data covars_mixed [] empty_world
           0 0 1 "A"); try reflexivity; simpl; lia.
Defined.


Lemma sample_mismatch_witness :
  exists msg,
    StandardizeAcrossFeatures X5 design info_dict no_smoothing empty_world
    = (Err (LinAlgError msg), empty_world) \/
    StandardizeAcrossFeatures X5 design info_dict no_smoothing empty_world
    = (Err (ValueError msg), empty_world).
Proof.
  apply (StandardizeAcrossFeatures_sample_mismatch X5 design info_dict
           no_smoothing empty_world); [reflexivity | simpl; lia].
Defined.

Lemma dependence_not_zero : dependence 0 <> zero.
Proof.
  intros H. apply (f_equal this) in H. vm_compute in H. discriminate H.
Defined.


Lemma six_not_zero : of_nat (n_sample info_dict) <> zero.
Proof.
  intros H. apply (f_equal this) in H. vm_compute in H. discriminate H.
Defined.

Lemma example_site_indicator_columns : site_indicator_columns design info_dict.
Proof.
  split.
  - intros j Hj. simpl in Hj.
    do 6 (destruct j as [|j]; [check_entry|]). lia.
  - intros b Hb. simpl in Hb.
    do 2 (destruct b as [|b]; [check_entry|]). lia.
Defined.

Lemma example_indicator_design : indicator_design design 2 site_code.
Proof.
  split; [reflexivity|].
  intros j b Hj Hb. simpl in Hj.
  do 6 (destruct j as [|j];
        [do 2 (destruct b as [|b]; [check_entry|]); lia|]).
  lia.
Defined.

Lemma residuals_orthogonal_witness :
  exists s stm vp B g w',
    StandardizeAcrossFeatures X design info_dict no_smoothing empty_world
    = (Ok (s, stm, vp, B, g), w') /\
    sum_n 6 (fun j => (at_ design j 0 * (at_ X 0 j - fitted_value design B j 0))%F)
    = zero.
Proof.
  assert (Hok : is_Ok (fst (StandardizeAcrossFeatures X design info_dict
                              no_smoothing empty_world)) = true)
    by (vm_compute; reflexivity).
  destruct (StandardizeAcrossFeatures X design info_dict no_smoothing empty_world)
    as [[[[[[s stm] vp] B] g]|e] w'] eqn:E.
  - exists s, stm, vp, B, g, w'. split; [reflexivity|].
    apply (StandardizeAcrossFeatures_residuals_orthogonal X design info_dict
             no_smoothing empty_world w' s stm vp B g eq_refl eq_refl E 0 0);
      simpl; lia.
  - discriminate Hok.
Defined.


Lemma round_trip_witness :
  exists s stm vp B g w',
    StandardizeAcrossFeatures X design info_dict no_smoothing empty_world
    = (Ok (s, stm, vp, B, g), w') /\
    at_ X 0 0 = (at_ s 0 0 * sqrt (at_ vp 0 0) + at_ stm 0 0)%F.
Proof.
  assert (Hvp : match StandardizeAcrossFeatures X design info_dict no_smoothing
                        empty_world with
                | (Ok (s, stm, vp, B, g), _) => negb (eqb (sqrt (at_ vp 0 0)) zero)
                | _ => false
                end = true)
    by (vm_compute; reflexivity).
  destruct (StandardizeAcrossFeatures X design info_dict no_smoothing empty_world)
    as [[[[[[s stm] vp] B] g]|e] w'] eqn:E.
  - exists s, stm, vp, B, g, w'. split; [reflexivity|].
    apply (StandardizeAcrossFeatures_round_trip X design design info_dict
             no_smoothing empty_world w' s stm vp B g eq_refl eq_refl eq_refl E 0 0);
      [simpl; lia | simpl; lia |].
    intros H. apply eqb_eq in H. rewrite H in Hvp. discriminate Hvp.
  - discriminate Hvp.
Defined.

Lemma shapes_witness :
  exists s stm vp B g w',
    StandardizeAcrossFeatures X design info_dict no_smoothing empty_world
    = (Ok (s, stm, vp, B, g), w') /\
    shape vp = (2, 1).
Proof.
  assert (Hok : is_Ok (fst (StandardizeAcrossFeatures X design info_dict
                              no_smoothing empty_world)) = true)
    by (vm_compute; reflexivity).
  destruct (StandardizeAcrossFeatures X design info_dict no_smoothing empty_world)
    as [[[[[[s stm] vp] B] g]|e] w'] eqn:E.
  - exists s, stm, vp, B, g, w'. split; [reflexivity|].
    destruct (StandardizeAcrossFeatures_shapes X design design info_dict
                no_smoothing empty_world w' s stm vp B g eq_refl eq_refl eq_refl E)
      as (_ & _ & H & _).
    exact H.
  - discriminate Hok.
Defined.

Lemma site_means_witness :
  exists s stm vp B g w',
    StandardizeAcrossFeatures X design info_dict no_smoothing empty_world
    = (Ok (s, stm, vp, B, g), w') /\
    (sum_n 6 (fun j => at_ design j 0) * at_ B 0 0)%F
    = sum_n 6 (fun j => (at_ design j 0 * at_ X 0 j)%F).
Proof.
  assert (Hok : is_Ok (fst (StandardizeAcrossFeatures X design info_dict
                              no_smoothing empty_world)) = true)
    by (vm_compute; reflexivity).
  destruct (StandardizeAcrossFeatures X design info_dict no_smoothing empty_world)
    as [[[[[[s stm] vp] B] g]|e] w'] eqn:E.
  - exists s, stm, vp, B, g, w'. split; [reflexivity|].
    apply (StandardizeAcrossFeatures_site_means X design info_dict no_smoothing
             empty_world w' s stm vp B g site_code eq_refl eq_refl
             example_indicator_design E 0 0); simpl; lia.
  - discriminate Hok.
Defined.

Lemma grand_mean_is_mean_witness :
  exists s stm vp B g w',
    StandardizeAcrossFeatures X design info_dict no_smoothing empty_world
    = (Ok (s, stm, vp, B, g), w') /\
    nth 0 g zero = (sum_n 6 (fun j => at_ X 0 j) / of_nat 6)%F.
Proof.
  assert (Hok : is_Ok (fst (StandardizeAcrossFeatures X design info_dict
                              no_smoothing empty_world)) = true)
    by (vm_compute; reflexivity).
  destruct (StandardizeAcrossFeatures X design info_dict no_smoothing empty_world)
    as [[[[[[s stm] vp] B] g]|e] w'] eqn:E.
  - exists s, stm, vp, B, g, w'. split; [reflexivity|].
    apply (StandardizeAcrossFeatures_grand_mean_is_mean X design info_dict
             no_smoothing empty_world w' s stm vp B g eq_refl eq_refl eq_refl
             eq_refl six_not_zero example_site_indicator_columns E 0).
    simpl; lia.
  - discriminate Hok.
Defined.

Lemma smoothing_columns_witness :
  exists p s stm vp B g w',
    prepare covars ["AGE"] = Ok p /\
    StandardizeAcrossFeatures X (p_design p) (p_info_dict p) (p_smooth_model p)
      empty_world = (Ok (s, stm, vp, B, g), w') /\
    exists D, smooth_design (p_smooth_model p) = Some D /\
              shape B = (shape1 D, 2).
Proof.
  assert (Hok : match prepare covars ["AGE"] with
                | Ok p =>
                    perform_smoothing (p_smooth_model p)
                    && is_Ok (fst (StandardizeAcrossFeatures X (p_design p)
                                     (p_info_dict p) (p_smooth_model p) empty_world))
                | Err _ => false
                end = true)
    by (vm_compute; reflexivity).
  destruct (prepare covars ["AGE"]) as [p|e] eqn:Ep; [|discriminate Hok].
  apply andb_true_iff in Hok as [Hsm Hok].
  destruct (StandardizeAcrossFeatures X (p_design p) (p_info_dict p)
              (p_smooth_model p) empty_world)
    as [[[[[[s stm] vp] B] g]|e] w'] eqn:E; [|discriminate Hok].
  exists p, s, stm, vp, B, g, w'. split; [reflexivity|]. split; [exact E|].
  destruct (StandardizeAcrossFeatures_smoothing_columns X (p_design p)
              (p_info_dict p) (p_smooth_model p) empty_world w' s stm vp B g Hsm E)
    as (D & HD & Hshape & _).
  exists D. auto.
Defined.

Lemma smooth_design_layout_witness :
  exists p df,
    prepare covars ["AGE"] = Ok p /\
    df_gam (p_smooth_model p) = Some df /\
    map fst df = formula_terms (n_batch (p_info_dict p)) ["AGE"; "SITE"; "SEX"] ["AGE"].
Proof.
  assert (Hok : is_Ok (prepare covars ["AGE"]) = true) by (vm_compute; reflexivity).
  destruct (prepare covars ["AGE"]) as [p|e] eqn:E.
  - destruct (prepare_smooth_design_layout covars ["AGE"] p
                Witness.example_columns_NoDup ltac:(discriminate) E)
      as (bs & df & D & _ & Hdf & _ & Hkeys & _).
    exists p, df. auto.
  - discriminate Hok.
Defined.

End Checked.

(** ** The example, evaluated *)

Module Evaluated.
Import Example.

(** The design and the batch information of the table with SITE alone. *)
Example prepared_of_example :
  match prepare covars_site_only [] with
  | Ok p => Some (p_info_dict p, rationals (p_design p))
  | Err _ => None
  end = Some (info_dict, rationals design).
Proof. vm_compute. reflexivity. Qed.

(** The formula for the table with AGE smoothed: SITE is column 1, SEX is
    column 2. *)
Example formula_of_example :
  match prepare covars ["AGE"] with
  | Ok p => formula (p_smooth_model p)
  | Err _ => None
  end = Some "y ~ x0 + x1 + c2 - 1".
Proof. vm_compute. reflexivity. Qed.

(** With SITE as the only column: [B_hat] holds the site means, a row per
    site and a column per feature, and the grand mean averages its rows. *)
Example estimates_of_example :
  match StandardizeAcrossFeatures X design info_dict no_smoothing empty_world with
  | (Ok (s, stm, vp, B, g), _) => Some (rationals B, map this g, rationals vp)
  | _ => None
  end
  = Some ([[2; 65 # 3]; [20 # 3; 95 # 3]], [13 # 3; 80 # 3], [[10 # 9]; [650 # 9]])%Q.
Proof. vm_compute. reflexivity. Qed.

(** C5 as stated fails: averaged over its first two columns, [B_hat] gives
    one value per design column, [71/6] and [115/6], not the grand mean
    [13/3] and [80/3] that the code returns. *)
Lemma grand_mean_is_not_an_average_of_columns :
  exists s stm vp B g w',
    StandardizeAcrossFeatures X design info_dict no_smoothing empty_world
    = (Ok (s, stm, vp, B, g), w') /\
    g <> weighted_average_of_columns (sample_per_batch info_dict)
           (n_sample info_dict) (n_batch info_dict) B.
Proof.
  do 6 eexists. split; [vm_compute; reflexivity|].
  intros H. apply (f_equal (map this)) in H. vm_compute in H. discriminate H.
Qed.

(** With AGE smoothed and the least-squares fit, rows 0 and 1 of [B_hat]
    are the site effects: the residuals of feature 0 add up to zero over
    the samples of site 0. *)
Example site_residuals_of_example :
  option_map this (site_residual_sum data covars ["AGE"] empty_world 0 0)
  = Some 0%Q.
Proof. vm_compute. reflexivity. Qed.

(** With a fit that returns its parameters in the opposite order the call
    returns as well, but rows 0 and 1 of [B_hat] are then the coefficients
    of AGE and SEX, and the residuals no longer add up to zero within a
    site: the meaning of [B_hat[:n_batch, :]] with smoothing rests on the
    order in which the fit returns its parameters. *)
Example site_residuals_of_reversed_fit :
  option_map this
    (@site_residual_sum Qc_scalar reversed_gam unit_adjustment
       data covars ["AGE"] empty_world 0 0)
  = Some (-1068371 # 5407)%Q.
Proof. vm_compute. reflexivity. Qed.

End Evaluated.
